(** * musicplay2ai: the timeline engine of the piano roll

    A shallow embedding of the JavaScript sources
    - [src/PianoRoll.js] (class [PianoRoll]: the MIDI export, the
      message-list codec, the playback scheduler, the pointer gestures
      and the undo history), and
    - [src/unnamed/part_000] (Drawer.js: class [EventBroker], the
      captured branch of [Drawer.handleEvent], and the button and
      popup-slider controls),
    followed by the properties of the specification and further
    properties of the code, stated over it.
    Line numbers in the comments are those of these two files.

    Conventions.  A JavaScript array is a [list].  A number that the code
    treats as an integer (MIDI bytes, pitches, channels, ticks of a MIDI
    file) is a [Z]; the 32-bit bit operations have their wrap-around
    ([toInt32]) written out.  A number that comes out of pointer or
    clock arithmetic is an exact rational [Q]: rounding errors, NaN and
    the infinities of IEEE doubles are outside the model, and the places
    where the code can produce NaN are marked.  Objects that the code
    reaches through several references (a note held by [state.notes] and
    by [state.selectedNotes]) live in a store indexed by locations.
    Calls of the callbacks [onPlayNote], [onStopNote] and [onMidiMessage]
    are recorded, in order, in an output trace. *)

From Stdlib Require Import ZArith QArith Qminmax Qabs Qround Lia Lqa List Bool.
From stdpp Require Import gmap list sorting strings.
From Equations Require Import Equations.
Close Scope Q_scope.

(** * Part I: the model *)

(** ** Array.prototype.sort

    ECMAScript asks for a stable sort.  For a comparator that is a
    consistent order every stable sort returns the same array, and the
    model is the simplest one: insertion sort, taking the elements from
    left to right and moving each one back over the sorted elements that
    are greater.  For a comparator that is not consistent ECMAScript
    leaves the order to the implementation; the model then gives the
    order of this insertion sort. *)

Module JsArray.

Section Sort.

Context {A : Type}.

(** [gt a b] stands for the test [comparefn(a, b) > 0]. *)
Variable gt : A -> A -> bool.

(** Insertion of [x] behind the sorted prefix; [sorted_rev] is that
    prefix, last element first. *)
Fixpoint insert_back (x : A) (sorted_rev : list A) : list A :=
  match sorted_rev with
  | [] => [x]
  | y :: rest => if gt y x then y :: insert_back x rest else x :: y :: rest
  end.

Definition sort (l : list A) : list A :=
  rev (fold_left (fun acc x => insert_back x acc) l []).

End Sort.
End JsArray.

(** ** Variable-length quantities ([writeVlq] in [saveToMidi], lines 416-459) *)

Module Vlq.
Local Open Scope Z_scope.

(** The conversion of an integer to a signed 32-bit integer that the
    bit operators of JavaScript apply to their operands. *)
Definition toInt32 (z : Z) : Z := (z + 2 ^ 31) mod 2 ^ 32 - 2 ^ 31.

(** [a & b], [a | b] and [a >> k] (for [0 <= k < 32]). *)
Definition js_and (a b : Z) : Z := Z.land (toInt32 a) (toInt32 b).

Definition js_or (a b : Z) : Z := Z.lor (toInt32 a) (toInt32 b).

Definition js_sar (a k : Z) : Z := Z.shiftr (toInt32 a) k.

(** The loop [while (value > 0) { bytes.push((value & 0x7F) | 0x80);
    value >>= 7; }].  It ends because [>>=] makes a positive value
    smaller. *)
Equations? writeVlq_loop (value : Z) (bytes : list Z) : list Z by wf (Z.to_nat value) lt :=
  writeVlq_loop value bytes with Z_lt_dec 0 value => {
    | left _ => writeVlq_loop (js_sar value 7) (bytes ++ [js_or (js_and value 127) 128]);
    | right _ => bytes }.
Proof.
  unfold js_sar, toInt32.
  pose proof (Z.mod_pos_bound (value + 2 ^ 31) (2 ^ 32) ltac:(lia)) as Hrange.
  pose proof (Z.mod_le (value + 2 ^ 31) (2 ^ 32) ltac:(lia) ltac:(lia)) as Hle.
  set (w := (value + 2 ^ 31) mod 2 ^ 32 - 2 ^ 31) in *.
  rewrite Z.shiftr_div_pow2 by lia.
  destruct (Z_le_gt_dec w 0) as [Hn | Hp].
  - assert (w / 2 ^ 7 <= 0) by (apply Z.div_le_upper_bound; lia). lia.
  - assert (w / 2 ^ 7 < w) by (apply Z.div_lt; lia).
    assert (0 <= w / 2 ^ 7) by (apply Z.div_pos; lia). lia.
Qed.

(** [writeVlq] (lines 423-432): the low group first, then the loop,
    then [bytes.reverse()]. *)
Definition writeVlq (value : Z) : list Z :=
  rev (writeVlq_loop (js_sar value 7) [js_and value 127]).

(** Modelled from the spec: the decoder of variable-length quantities,
    which the repository leaves to the synthesizer library.  "Decoding
    reverses this, accumulating 7-bit groups until a byte with high bit
    clear."  The result is the value and the bytes not consumed; [None]
    when the bytes end inside a quantity. *)
Fixpoint readVlq (acc : Z) (bs : list Z) : option (Z * list Z) :=
  match bs with
  | [] => None
  | b :: rest =>
      let acc' := Z.lor (Z.shiftl acc 7) (Z.land b 127) in
      if Z.testbit b 7 then readVlq acc' rest else Some (acc', rest)
  end.
End Vlq.

(** ** The message-list codec ([_notesToMessages], [_messagesToNotes], lines 1416-1463) *)

Module Codec.
Import JsArray.

Local Open Scope Z_scope.

(** A note record, with integer ticks (section 3 of the specification;
    integers below 2^53 are exact in JavaScript). *)
Record note := mkNote {
  pitch : Z; velocity : Z; channel : Z; start_tick : Z; duration_ticks : Z }.

(** An element of the [notes] array: a note, or an object of type
    'other' with its [time] and its bytes [msg]. *)
Inductive item :=
| Note (n : note)
| Other (time : Z) (msg : list Z).

(** The fields [pitch], [velocity], [time] and [channel] of a message
    of type 'noteOn' or 'noteOff'. *)
Record noteMsg := mkMsg { m_pitch : Z; m_velocity : Z; m_time : Z; m_channel : Z }.

Inductive message :=
| noteOn (m : noteMsg)
| noteOff (m : noteMsg)
| other (time : Z) (msg : list Z).

(** [msg.time] *)
Definition time (m : message) : Z :=
  match m with
  | noteOn m | noteOff m => m_time m
  | other t _ => t
  end.

(** The body of [notes.forEach] in [_notesToMessages] (lines 1441-1454).
    [n.channel || 0] is [n.channel] for a number. *)
Definition item_messages (n : item) : list message :=
  match n with
  | Other t bytes => [other t bytes]
  | Note n =>
      [ noteOn (mkMsg (pitch n) (velocity n) (start_tick n) (channel n));
        noteOff (mkMsg (pitch n) 0 (start_tick n + duration_ticks n) (channel n)) ]
  end.

(** The comparator of lines 1455-1461. *)
Definition export_compare (a b : message) : Z :=
  if time a <? time b then -1
  else if time a >? time b then 1
  else match a, b with
       | noteOff _, noteOn _ => -1
       | noteOn _, noteOff _ => 1
       | _, _ => 0
       end.

(** [_notesToMessages] (lines 1439-1463) *)
Definition _notesToMessages (notes : list item) : list message :=
  sort (fun a b => 0 <? export_compare a b) (notes ≫= item_messages).

(** The comparator [(a, b) => a.time - b.time] of line 1419. *)
Definition import_compare (a b : message) : Z := time a - time b.

(** The key [`${msg.pitch}_${msg.channel}`] of [openNotes]: for numbers,
    two keys are the same string exactly when pitch and channel agree. *)
Definition key (pitch channel : Z) : Z * Z := (pitch, channel).

(** Lines 1423-1432: the message [msg] closes the note open for its key,
    if there is one.  The state is the array [notes] built so far and
    the object [openNotes]. *)
Definition close_note (msg : noteMsg) (st : list item * gmap (Z * Z) noteMsg)
  : list item * gmap (Z * Z) noteMsg :=
  let '(notes, openNotes) := st in
  match openNotes !! key (m_pitch msg) (m_channel msg) with
  | Some nOn =>
      (notes ++ [Note (mkNote (m_pitch nOn) (m_velocity nOn) (m_channel nOn)
                        (m_time nOn) (m_time msg - m_time nOn))],
       delete (key (m_pitch msg) (m_channel msg)) openNotes)
  | None => st
  end.

(** The body of [messages.forEach] in [_messagesToNotes] (lines 1420-1436). *)
Definition import_message (st : list item * gmap (Z * Z) noteMsg) (msg : message)
  : list item * gmap (Z * Z) noteMsg :=
  match msg with
  | noteOn m =>
      if 0 <? m_velocity m
      then (st.1, <[key (m_pitch m) (m_channel m) := m]> st.2)
      else if m_velocity m =? 0 then close_note m st
      else st
  | noteOff m => close_note m st
  | other t bytes => (st.1 ++ [Other t bytes], st.2)
  end.

(** [_messagesToNotes] (lines 1416-1438) *)
Definition _messagesToNotes (messages : list message) : list item :=
  (fold_left import_message
     (sort (fun a b => 0 <? import_compare a b) messages) ([], ∅)).1.

#[global] Instance noteMsg_eq_dec : EqDecision noteMsg.
Proof. solve_decision. Defined.

#[global] Instance message_eq_dec : EqDecision message.
Proof. solve_decision. Defined.

(** *** Notions used in the statements *)

(** The two messages of a note. *)
Definition on_msg (n : note) : noteMsg :=
  mkMsg (pitch n) (velocity n) (start_tick n) (channel n).

Definition off_msg (n : note) : noteMsg :=
  mkMsg (pitch n) 0 (start_tick n + duration_ticks n) (channel n).

(** The (pitch, channel) pair of a note. *)
Definition note_key (n : note) : Z * Z := key (pitch n) (channel n).

(** The note of [ns] that a [noteOff] message closes, looked up by its key. *)
Definition closed (ns : list note) (m : message) : option item :=
  match m with
  | noteOff f =>
      Note <$> find (fun n => bool_decide (note_key n = key (m_pitch f) (m_channel f))) ns
  | _ => None
  end.

(** Some notes. *)
Definition nA := mkNote 60 100 0 0 24.

Definition nB := mkNote 62 100 0 24 24.

Definition nC := mkNote 60 90 1 12 36.

Definition silent := mkNote 60 0 0 0 96.

(** The tie-break of the export order: at equal times, every [noteOff]
    stands before every [noteOn]. *)
Definition off_before_on (ms : list message) : Prop :=
  forall (i j : nat) a b,
    ms !! i = Some (noteOn a) -> ms !! j = Some (noteOff b) ->
    m_time a = m_time b -> (j < i)%nat.

(** The order that the comparator realises on note messages: by time,
    and then [noteOff] before [noteOn]. *)
Definition rank (m : message) : Z :=
  match m with
  | noteOn _ => 1
  | _ => 0
  end.

Definition is_note_message (m : message) : Prop :=
  match m with
  | other _ _ => False
  | _ => True
  end.
End Codec.

(** ** The piano roll: playback, gestures and undo history *)

Module PianoRoll.
Import JsArray.

Local Open Scope Q_scope.

(** *** Numbers

    The tests [a < b], [a > b] and [a >= b] on numbers. *)

Definition Qltb (a b : Q) : bool := negb (Qle_bool b a).

Definition Qgtb (a b : Q) : bool := Qltb b a.

Definition Qgeb (a b : Q) : bool := Qle_bool b a.

(** *** Configuration constants ([this.config], [this.MAX_HISTORY])

    The defaults of the constructor (lines 17-28); [TEN_SECONDS] is the
    constant of [_setTrackParameter]. *)

Definition noteHeight : Q := 16.

Definition beatWidth : Q := 64.

Definition totalPitches : Z := 128.

Definition keysWidth : Q := 100.

Definition timelineHeight : Q := 30.

Definition MAX_HISTORY : nat := 25.

Definition TEN_SECONDS : Q := 10000.

(** *** The note collection

    The elements of [state.notes] are objects, and [state.selectedNotes]
    holds some of the same objects: a write to a selected note is seen
    through [state.notes].  The objects therefore live in a store
    ([heap]), and the two arrays hold locations.  [nextLoc] is the next
    unused location. *)

Definition loc := positive.

(** The field [eventType] that [_setTrackParameter] gives its events. *)
Inductive eventKind := programChange | volumeChange.

#[global] Instance eventKind_eq_dec : EqDecision eventKind.
Proof. solve_decision. Defined.

(** A note object.  [originalDuration] is the field that
    [_handleResizeMouseDown] adds; [None]: the object does not have it. *)
Record note := mkNote {
  pitch : Z; velocity : Z; channel : Z;
  start_tick : Q; duration_ticks : Q;
  originalDuration : option Q }.

(** An object of type 'other'.  The fields [eventType] and [channel] are
    present on the events of [_setTrackParameter] only. *)
Record otherEvent := mkOther {
  time : Q; msg : list Z; eventType : option eventKind; o_channel : option Z }.

Inductive item :=
| Note (n : note)
| Other (o : otherEvent).

(** The objects of [state.lookaheadEvents] (lines 955-967); [playing]
    is the field [isPlaying] of a 'noteOn' object. *)
Inductive event :=
| evNoteOn (tick : Q) (pitch velocity channel : Z) (playing : bool)
| evNoteOff (tick : Q) (pitch channel : Z)
| evOther (tick : Q) (msg : list Z).

(** A call of [onPlayNote], [onStopNote] or [onMidiMessage]. *)
Inductive output :=
| PlayNote (pitch velocity channel : Z)
| StopNote (pitch channel : Z)
| MidiMessage (msg : list Z).

(** [state.marquee] *)
Record rect := mkRect { x1 : Q; y1 : Q; x2 : Q; y2 : Q }.

(** The scroll offsets, which the code reads from [state] and which no
    function of this model writes. *)
Record view := mkView { scrollX : Q; scrollY : Q }.

(** The fields of [this.state] that the modelled methods read or write,
    [this.bpm], the store and the output trace. *)
Record state := mkState {
  heap : gmap loc item;
  nextLoc : loc;
  notes : list loc;
  selectedNotes : list loc;
  ppqn : Q;
  bpm : Q;
  songDurationTicks : Q;
  isPlaying : bool;
  playheadTick : Q;
  lastFrameTime : Q;
  lookaheadEvents : list event;
  mutedChannels : gset Z;
  isDragging : bool;
  wasAddingNote : bool;
  isResizing : bool;
  isMarqueeSelecting : bool;
  isDraggingVScroll : bool;
  isDraggingHScroll : bool;
  isPanning : bool;
  isDraggingPlayhead : bool;
  potentialDeselect : bool;
  resizeStartTicks : Q;
  marquee : rect;
  undoHistory : list (list item);
  redoHistory : list (list item);
  playheadLastDraggedTime : Q;
  out : list output
}.

(** One assignment [this.state.field = v] for each field. *)
Definition set_heap (v : gmap loc item) (s : state) : state :=
  mkState v (nextLoc s) (notes s) (selectedNotes s) (ppqn s) (bpm s)
    (songDurationTicks s) (isPlaying s) (playheadTick s) (lastFrameTime s)
    (lookaheadEvents s) (mutedChannels s) (isDragging s) (wasAddingNote s)
    (isResizing s) (isMarqueeSelecting s) (isDraggingVScroll s)
    (isDraggingHScroll s) (isPanning s) (isDraggingPlayhead s)
    (potentialDeselect s) (resizeStartTicks s) (marquee s) (undoHistory s)
    (redoHistory s) (playheadLastDraggedTime s) (out s).

Definition set_nextLoc (v : loc) (s : state) : state :=
  mkState (heap s) v (notes s) (selectedNotes s) (ppqn s) (bpm s)
    (songDurationTicks s) (isPlaying s) (playheadTick s) (lastFrameTime s)
    (lookaheadEvents s) (mutedChannels s) (isDragging s) (wasAddingNote s)
    (isResizing s) (isMarqueeSelecting s) (isDraggingVScroll s)
    (isDraggingHScroll s) (isPanning s) (isDraggingPlayhead s)
    (potentialDeselect s) (resizeStartTicks s) (marquee s) (undoHistory s)
    (redoHistory s) (playheadLastDraggedTime s) (out s).

Definition set_notes (v : list loc) (s : state) : state :=
  mkState (heap s) (nextLoc s) v (selectedNotes s) (ppqn s) (bpm s)
    (songDurationTicks s) (isPlaying s) (playheadTick s) (lastFrameTime s)
    (lookaheadEvents s) (mutedChannels s) (isDragging s) (wasAddingNote s)
    (isResizing s) (isMarqueeSelecting s) (isDraggingVScroll s)
    (isDraggingHScroll s) (isPanning s) (isDraggingPlayhead s)
    (potentialDeselect s) (resizeStartTicks s) (marquee s) (undoHistory s)
    (redoHistory s) (playheadLastDraggedTime s) (out s).

Definition set_selectedNotes (v : list loc) (s : state) : state :=
  mkState (heap s) (nextLoc s) (notes s) v (ppqn s) (bpm s) (songDurationTicks
    s) (isPlaying s) (playheadTick s) (lastFrameTime s) (lookaheadEvents s)
    (mutedChannels s) (isDragging s) (wasAddingNote s) (isResizing s)
    (isMarqueeSelecting s) (isDraggingVScroll s) (isDraggingHScroll s)
    (isPanning s) (isDraggingPlayhead s) (potentialDeselect s)
    (resizeStartTicks s) (marquee s) (undoHistory s) (redoHistory s)
    (playheadLastDraggedTime s) (out s).

Definition set_ppqn (v : Q) (s : state) : state :=
  mkState (heap s) (nextLoc s) (notes s) (selectedNotes s) v (bpm s)
    (songDurationTicks s) (isPlaying s) (playheadTick s) (lastFrameTime s)
    (lookaheadEvents s) (mutedChannels s) (isDragging s) (wasAddingNote s)
    (isResizing s) (isMarqueeSelecting s) (isDraggingVScroll s)
    (isDraggingHScroll s) (isPanning s) (isDraggingPlayhead s)
    (potentialDeselect s) (resizeStartTicks s) (marquee s) (undoHistory s)
    (redoHistory s) (playheadLastDraggedTime s) (out s).

Definition set_songDurationTicks (v : Q) (s : state) : state :=
  mkState (heap s) (nextLoc s) (notes s) (selectedNotes s) (ppqn s) (bpm s) v
    (isPlaying s) (playheadTick s) (lastFrameTime s) (lookaheadEvents s)
    (mutedChannels s) (isDragging s) (wasAddingNote s) (isResizing s)
    (isMarqueeSelecting s) (isDraggingVScroll s) (isDraggingHScroll s)
    (isPanning s) (isDraggingPlayhead s) (potentialDeselect s)
    (resizeStartTicks s) (marquee s) (undoHistory s) (redoHistory s)
    (playheadLastDraggedTime s) (out s).

Definition set_isPlaying (v : bool) (s : state) : state :=
  mkState (heap s) (nextLoc s) (notes s) (selectedNotes s) (ppqn s) (bpm s)
    (songDurationTicks s) v (playheadTick s) (lastFrameTime s)
    (lookaheadEvents s) (mutedChannels s) (isDragging s) (wasAddingNote s)
    (isResizing s) (isMarqueeSelecting s) (isDraggingVScroll s)
    (isDraggingHScroll s) (isPanning s) (isDraggingPlayhead s)
    (potentialDeselect s) (resizeStartTicks s) (marquee s) (undoHistory s)
    (redoHistory s) (playheadLastDraggedTime s) (out s).

Definition set_playheadTick (v : Q) (s : state) : state :=
  mkState (heap s) (nextLoc s) (notes s) (selectedNotes s) (ppqn s) (bpm s)
    (songDurationTicks s) (isPlaying s) v (lastFrameTime s) (lookaheadEvents
    s) (mutedChannels s) (isDragging s) (wasAddingNote s) (isResizing s)
    (isMarqueeSelecting s) (isDraggingVScroll s) (isDraggingHScroll s)
    (isPanning s) (isDraggingPlayhead s) (potentialDeselect s)
    (resizeStartTicks s) (marquee s) (undoHistory s) (redoHistory s)
    (playheadLastDraggedTime s) (out s).

Definition set_lastFrameTime (v : Q) (s : state) : state :=
  mkState (heap s) (nextLoc s) (notes s) (selectedNotes s) (ppqn s) (bpm s)
    (songDurationTicks s) (isPlaying s) (playheadTick s) v (lookaheadEvents s)
    (mutedChannels s) (isDragging s) (wasAddingNote s) (isResizing s)
    (isMarqueeSelecting s) (isDraggingVScroll s) (isDraggingHScroll s)
    (isPanning s) (isDraggingPlayhead s) (potentialDeselect s)
    (resizeStartTicks s) (marquee s) (undoHistory s) (redoHistory s)
    (playheadLastDraggedTime s) (out s).

Definition set_lookaheadEvents (v : list event) (s : state) : state :=
  mkState (heap s) (nextLoc s) (notes s) (selectedNotes s) (ppqn s) (bpm s)
    (songDurationTicks s) (isPlaying s) (playheadTick s) (lastFrameTime s) v
    (mutedChannels s) (isDragging s) (wasAddingNote s) (isResizing s)
    (isMarqueeSelecting s) (isDraggingVScroll s) (isDraggingHScroll s)
    (isPanning s) (isDraggingPlayhead s) (potentialDeselect s)
    (resizeStartTicks s) (marquee s) (undoHistory s) (redoHistory s)
    (playheadLastDraggedTime s) (out s).

Definition set_isDragging (v : bool) (s : state) : state :=
  mkState (heap s) (nextLoc s) (notes s) (selectedNotes s) (ppqn s) (bpm s)
    (songDurationTicks s) (isPlaying s) (playheadTick s) (lastFrameTime s)
    (lookaheadEvents s) (mutedChannels s) v (wasAddingNote s) (isResizing s)
    (isMarqueeSelecting s) (isDraggingVScroll s) (isDraggingHScroll s)
    (isPanning s) (isDraggingPlayhead s) (potentialDeselect s)
    (resizeStartTicks s) (marquee s) (undoHistory s) (redoHistory s)
    (playheadLastDraggedTime s) (out s).

Definition set_wasAddingNote (v : bool) (s : state) : state :=
  mkState (heap s) (nextLoc s) (notes s) (selectedNotes s) (ppqn s) (bpm s)
    (songDurationTicks s) (isPlaying s) (playheadTick s) (lastFrameTime s)
    (lookaheadEvents s) (mutedChannels s) (isDragging s) v (isResizing s)
    (isMarqueeSelecting s) (isDraggingVScroll s) (isDraggingHScroll s)
    (isPanning s) (isDraggingPlayhead s) (potentialDeselect s)
    (resizeStartTicks s) (marquee s) (undoHistory s) (redoHistory s)
    (playheadLastDraggedTime s) (out s).

Definition set_isResizing (v : bool) (s : state) : state :=
  mkState (heap s) (nextLoc s) (notes s) (selectedNotes s) (ppqn s) (bpm s)
    (songDurationTicks s) (isPlaying s) (playheadTick s) (lastFrameTime s)
    (lookaheadEvents s) (mutedChannels s) (isDragging s) (wasAddingNote s) v
    (isMarqueeSelecting s) (isDraggingVScroll s) (isDraggingHScroll s)
    (isPanning s) (isDraggingPlayhead s) (potentialDeselect s)
    (resizeStartTicks s) (marquee s) (undoHistory s) (redoHistory s)
    (playheadLastDraggedTime s) (out s).

Definition set_isMarqueeSelecting (v : bool) (s : state) : state :=
  mkState (heap s) (nextLoc s) (notes s) (selectedNotes s) (ppqn s) (bpm s)
    (songDurationTicks s) (isPlaying s) (playheadTick s) (lastFrameTime s)
    (lookaheadEvents s) (mutedChannels s) (isDragging s) (wasAddingNote s)
    (isResizing s) v (isDraggingVScroll s) (isDraggingHScroll s) (isPanning s)
    (isDraggingPlayhead s) (potentialDeselect s) (resizeStartTicks s) (marquee
    s) (undoHistory s) (redoHistory s) (playheadLastDraggedTime s) (out s).

Definition set_isDraggingVScroll (v : bool) (s : state) : state :=
  mkState (heap s) (nextLoc s) (notes s) (selectedNotes s) (ppqn s) (bpm s)
    (songDurationTicks s) (isPlaying s) (playheadTick s) (lastFrameTime s)
    (lookaheadEvents s) (mutedChannels s) (isDragging s) (wasAddingNote s)
    (isResizing s) (isMarqueeSelecting s) v (isDraggingHScroll s) (isPanning
    s) (isDraggingPlayhead s) (potentialDeselect s) (resizeStartTicks s)
    (marquee s) (undoHistory s) (redoHistory s) (playheadLastDraggedTime s)
    (out s).

Definition set_isDraggingHScroll (v : bool) (s : state) : state :=
  mkState (heap s) (nextLoc s) (notes s) (selectedNotes s) (ppqn s) (bpm s)
    (songDurationTicks s) (isPlaying s) (playheadTick s) (lastFrameTime s)
    (lookaheadEvents s) (mutedChannels s) (isDragging s) (wasAddingNote s)
    (isResizing s) (isMarqueeSelecting s) (isDraggingVScroll s) v (isPanning
    s) (isDraggingPlayhead s) (potentialDeselect s) (resizeStartTicks s)
    (marquee s) (undoHistory s) (redoHistory s) (playheadLastDraggedTime s)
    (out s).

Definition set_isPanning (v : bool) (s : state) : state :=
  mkState (heap s) (nextLoc s) (notes s) (selectedNotes s) (ppqn s) (bpm s)
    (songDurationTicks s) (isPlaying s) (playheadTick s) (lastFrameTime s)
    (lookaheadEvents s) (mutedChannels s) (isDragging s) (wasAddingNote s)
    (isResizing s) (isMarqueeSelecting s) (isDraggingVScroll s)
    (isDraggingHScroll s) v (isDraggingPlayhead s) (potentialDeselect s)
    (resizeStartTicks s) (marquee s) (undoHistory s) (redoHistory s)
    (playheadLastDraggedTime s) (out s).

Definition set_isDraggingPlayhead (v : bool) (s : state) : state :=
  mkState (heap s) (nextLoc s) (notes s) (selectedNotes s) (ppqn s) (bpm s)
    (songDurationTicks s) (isPlaying s) (playheadTick s) (lastFrameTime s)
    (lookaheadEvents s) (mutedChannels s) (isDragging s) (wasAddingNote s)
    (isResizing s) (isMarqueeSelecting s) (isDraggingVScroll s)
    (isDraggingHScroll s) (isPanning s) v (potentialDeselect s)
    (resizeStartTicks s) (marquee s) (undoHistory s) (redoHistory s)
    (playheadLastDraggedTime s) (out s).

Definition set_potentialDeselect (v : bool) (s : state) : state :=
  mkState (heap s) (nextLoc s) (notes s) (selectedNotes s) (ppqn s) (bpm s)
    (songDurationTicks s) (isPlaying s) (playheadTick s) (lastFrameTime s)
    (lookaheadEvents s) (mutedChannels s) (isDragging s) (wasAddingNote s)
    (isResizing s) (isMarqueeSelecting s) (isDraggingVScroll s)
    (isDraggingHScroll s) (isPanning s) (isDraggingPlayhead s) v
    (resizeStartTicks s) (marquee s) (undoHistory s) (redoHistory s)
    (playheadLastDraggedTime s) (out s).

Definition set_resizeStartTicks (v : Q) (s : state) : state :=
  mkState (heap s) (nextLoc s) (notes s) (selectedNotes s) (ppqn s) (bpm s)
    (songDurationTicks s) (isPlaying s) (playheadTick s) (lastFrameTime s)
    (lookaheadEvents s) (mutedChannels s) (isDragging s) (wasAddingNote s)
    (isResizing s) (isMarqueeSelecting s) (isDraggingVScroll s)
    (isDraggingHScroll s) (isPanning s) (isDraggingPlayhead s)
    (potentialDeselect s) v (marquee s) (undoHistory s) (redoHistory s)
    (playheadLastDraggedTime s) (out s).

Definition set_undoHistory (v : list (list item)) (s : state) : state :=
  mkState (heap s) (nextLoc s) (notes s) (selectedNotes s) (ppqn s) (bpm s)
    (songDurationTicks s) (isPlaying s) (playheadTick s) (lastFrameTime s)
    (lookaheadEvents s) (mutedChannels s) (isDragging s) (wasAddingNote s)
    (isResizing s) (isMarqueeSelecting s) (isDraggingVScroll s)
    (isDraggingHScroll s) (isPanning s) (isDraggingPlayhead s)
    (potentialDeselect s) (resizeStartTicks s) (marquee s) v (redoHistory s)
    (playheadLastDraggedTime s) (out s).

Definition set_redoHistory (v : list (list item)) (s : state) : state :=
  mkState (heap s) (nextLoc s) (notes s) (selectedNotes s) (ppqn s) (bpm s)
    (songDurationTicks s) (isPlaying s) (playheadTick s) (lastFrameTime s)
    (lookaheadEvents s) (mutedChannels s) (isDragging s) (wasAddingNote s)
    (isResizing s) (isMarqueeSelecting s) (isDraggingVScroll s)
    (isDraggingHScroll s) (isPanning s) (isDraggingPlayhead s)
    (potentialDeselect s) (resizeStartTicks s) (marquee s) (undoHistory s) v
    (playheadLastDraggedTime s) (out s).

Definition set_playheadLastDraggedTime (v : Q) (s : state) : state :=
  mkState (heap s) (nextLoc s) (notes s) (selectedNotes s) (ppqn s) (bpm s)
    (songDurationTicks s) (isPlaying s) (playheadTick s) (lastFrameTime s)
    (lookaheadEvents s) (mutedChannels s) (isDragging s) (wasAddingNote s)
    (isResizing s) (isMarqueeSelecting s) (isDraggingVScroll s)
    (isDraggingHScroll s) (isPanning s) (isDraggingPlayhead s)
    (potentialDeselect s) (resizeStartTicks s) (marquee s) (undoHistory s)
    (redoHistory s) v (out s).

Definition set_out (v : list output) (s : state) : state :=
  mkState (heap s) (nextLoc s) (notes s) (selectedNotes s) (ppqn s) (bpm s)
    (songDurationTicks s) (isPlaying s) (playheadTick s) (lastFrameTime s)
    (lookaheadEvents s) (mutedChannels s) (isDragging s) (wasAddingNote s)
    (isResizing s) (isMarqueeSelecting s) (isDraggingVScroll s)
    (isDraggingHScroll s) (isPanning s) (isDraggingPlayhead s)
    (potentialDeselect s) (resizeStartTicks s) (marquee s) (undoHistory s)
    (redoHistory s) (playheadLastDraggedTime s) v.

(** A call of one of the three callbacks. *)
Definition emit (o : output) (s : state) : state := set_out (out s ++ [o]) s.

(** The objects of [state.notes], in array order. *)
Definition items (s : state) : list item := omap (fun l => heap s !! l) (notes s).

(** [JSON.parse(JSON.stringify(this.state.notes))]: a copy by value. *)
Definition snapshot (s : state) : list item := items s.

(** A new object. *)
Definition alloc (it : item) (s : state) : loc * state :=
  (nextLoc s, set_nextLoc (Pos.succ (nextLoc s)) (set_heap (<[nextLoc s := it]> (heap s)) s)).

(** [this.state.notes = array], for an array of fresh objects. *)
Definition adopt (its : list item) (s : state) : state :=
  let '(ls, s') :=
    fold_left (fun '(ls, s) it => let '(l, s') := alloc it s in (ls ++ [l], s'))
              its ([], s) in
  set_notes ls s'.

(** *** [_recalculateSongDuration] (lines 532-540)

    The loop skips the objects of type 'other': they have neither
    [start_tick] nor [duration_ticks], their [endTick] is NaN, and
    [NaN > lastTick] is false. *)

Definition _recalculateSongDuration (s : state) : state :=
  let lastTick :=
    fold_left (fun lastTick n =>
                 match n with
                 | Note n =>
                     let endTick := start_tick n + duration_ticks n in
                     if Qgtb endTick lastTick then endTick else lastTick
                 | Other _ => lastTick
                 end) (items s) 0 in
  set_songDurationTicks lastTick s.

(** *** The initial state (lines 16, 51-87) and [loadFromJson] (lines 406-411)

    [initial] has the default options ([ppqn] 96, [bpm] 120). *)

Definition initial : state :=
  {| heap := ∅; nextLoc := 1%positive; notes := []; selectedNotes := [];
     ppqn := 96; bpm := 120; songDurationTicks := 0;
     isPlaying := false; playheadTick := 0; lastFrameTime := 0;
     lookaheadEvents := []; mutedChannels := ∅;
     isDragging := false; wasAddingNote := false; isResizing := false;
     isMarqueeSelecting := false; isDraggingVScroll := false;
     isDraggingHScroll := false; isPanning := false;
     isDraggingPlayhead := false; potentialDeselect := false;
     resizeStartTicks := 0; marquee := mkRect 0 0 0 0;
     undoHistory := []; redoHistory := [];
     playheadLastDraggedTime := 0; out := [] |}.

(** The objects that [_messagesToNotes] builds, with their integer ticks
    read as numbers of this module. *)
Definition imported (n : Codec.item) : item :=
  match n with
  | Codec.Note n =>
      Note (mkNote (Codec.pitch n) (Codec.velocity n) (Codec.channel n)
              (inject_Z (Codec.start_tick n)) (inject_Z (Codec.duration_ticks n)) None)
  | Codec.Other t bytes => Other (mkOther (inject_Z t) bytes None None)
  end.

Definition loadFromJson (messages : list Codec.message) (ppqn : Q) (s : state) : state :=
  let s := set_ppqn ppqn s in
  let s := adopt (imported <$> Codec._messagesToNotes messages) s in
  _recalculateSongDuration s.

(** *** Undo history (lines 498-513, 1266-1272)

    [push] appends and [pop] takes the last element; [shift] removes the
    first.  [undo] and [redo] make the popped array the new
    [state.notes]. *)

Definition _saveStateForUndo (s : state) : state :=
  let s := set_redoHistory [] s in
  let s := set_undoHistory (undoHistory s ++ [snapshot s]) s in
  if (MAX_HISTORY <? length (undoHistory s))%nat
  then set_undoHistory (tail (undoHistory s)) s
  else s.

Definition undo (s : state) : state :=
  match rev (undoHistory s) with
  | [] => s
  | popped :: rest =>
      let s := set_redoHistory (redoHistory s ++ [snapshot s]) s in
      let s := adopt popped (set_undoHistory (rev rest) s) in
      let s := set_selectedNotes [] s in
      _recalculateSongDuration s
  end.

Definition redo (s : state) : state :=
  match rev (redoHistory s) with
  | [] => s
  | popped :: rest =>
      let s := set_undoHistory (undoHistory s ++ [snapshot s]) s in
      let s := adopt popped (set_redoHistory (rev rest) s) in
      let s := set_selectedNotes [] s in
      _recalculateSongDuration s
  end.

(** *** Playback (lines 467-481, 952-1022)

    [play] and [_handlePlayheadDrag] take the value of
    [performance.now()] as the argument [now], and [_playbackLoop] the
    timestamp of its animation frame.  The request for the next frame and
    the redrawing are not modelled: one call of [_playbackLoop] is one
    frame. *)

(** [e.tick] *)
Definition tick (e : event) : Q :=
  match e with
  | evNoteOn t _ _ _ _ | evNoteOff t _ _ | evOther t _ => t
  end.

(** [e.channel], which the objects of type 'other' do not have. *)
Definition event_channel (e : event) : option Z :=
  match e with
  | evNoteOn _ _ _ c _ | evNoteOff _ _ c => Some c
  | evOther _ _ => None
  end.

(** The body of [notes.forEach] in [_buildLookaheadEvents]. *)
Definition item_events (n : item) : list event :=
  match n with
  | Other o => [evOther (time o) (msg o)]
  | Note n =>
      [ evNoteOn (start_tick n) (pitch n) (velocity n) (channel n) false;
        evNoteOff (start_tick n + duration_ticks n) (pitch n) (channel n) ]
  end.

Definition _buildLookaheadEvents (s : state) : state :=
  set_lookaheadEvents
    (sort (fun a b => Qgtb (tick a - tick b) 0) (items s ≫= item_events)) s.

Definition play (now : Q) (s : state) : state :=
  if isPlaying s then s
  else _buildLookaheadEvents (set_lastFrameTime now (set_isPlaying true s)).

Definition pause (s : state) : state :=
  let s := set_isPlaying false s in
  fold_left (fun s e =>
               match e with
               | evNoteOn _ p _ c true => emit (StopNote p c) s
               | _ => s
               end) (lookaheadEvents s) s.

Definition stop (s : state) : state := set_playheadTick 0 (pause s).

(** [array.find(p)] followed by an assignment to the object found. *)
Fixpoint update_first (p : event -> bool) (f : event -> event) (l : list event)
  : list event :=
  match l with
  | [] => []
  | e :: l' => if p e then f e :: l' else e :: update_first p f l'
  end.

(** [onEvent.isPlaying = b] *)
Definition set_playing (b : bool) (e : event) : event :=
  match e with
  | evNoteOn t p v c _ => evNoteOn t p v c b
  | _ => e
  end.

(** [this.state.mutedChannels.has(e.channel)] *)
Definition muted (s : state) (e : event) : bool :=
  match event_channel e with
  | Some c => bool_decide (c ∈ mutedChannels s)
  | None => false
  end.

(** Lines 984-1003: what the loop does for one due event [e]. *)
Definition fire (e : event) (s : state) : state :=
  if muted s e then s
  else match e with
       | evNoteOn t p v c _ =>
           let s := emit (PlayNote p v c) s in
           set_lookaheadEvents
             (update_first
                (fun ev => match ev with
                           | evNoteOn t' p' _ c' _ =>
                               Qeq_bool t' t && (p' =? p)%Z && (c' =? c)%Z
                           | _ => false
                           end)
                (set_playing true) (lookaheadEvents s)) s
       | evNoteOff t p c =>
           let s := emit (StopNote p c) s in
           set_lookaheadEvents
             (update_first
                (fun ev => match ev with
                           | evNoteOn t' p' _ c' playing =>
                               Qltb t' t && (p' =? p)%Z && (c' =? c)%Z && playing
                           | _ => false
                           end)
                (set_playing false) (lookaheadEvents s)) s
       | evOther _ bytes => emit (MidiMessage bytes) s
       end.

(** Lines 975-978. *)
Definition elapsedTicks (timestamp : Q) (s : state) : Q :=
  let elapsedMs := timestamp - lastFrameTime s in
  let ticksPerSecond := (bpm s / 60) * ppqn s in
  (elapsedMs / 1000) * ticksPerSecond.

(** [e.tick >= this.state.playheadTick && e.tick < newPlayheadTick] *)
Definition due (from to : Q) (e : event) : bool :=
  Qgeb (tick e) from && Qltb (tick e) to.

(** [lookaheadEvents.forEach]; the flags are written to the objects of
    the array that is being traversed, and the array keeps its events. *)
Definition fire_due (from to : Q) (s : state) : state :=
  fold_left (fun s e => if due from to e then fire e s else s) (lookaheadEvents s) s.

Definition _playbackLoop (timestamp : Q) (s : state) : state :=
  if negb (isPlaying s) then s
  else
    let elapsed := elapsedTicks timestamp s in
    let s := set_lastFrameTime timestamp s in
    let newPlayheadTick := playheadTick s + elapsed in
    let s := fire_due (playheadTick s) newPlayheadTick s in
    let s := set_playheadTick newPlayheadTick s in
    if Qgtb (playheadTick s) (songDurationTicks s) then stop s else s.

(** *** [_setTrackParameter] (lines 1212-1263)

    [channel] is the number of the track, from 1. *)

Inductive trackParameter := instrument | volume | unknownParameter.

(** [array.findIndex(p)]; [None] is the result -1. *)
Fixpoint findIndex (p : item -> bool) (h : gmap loc item) (ls : list loc) : option nat :=
  match ls with
  | [] => None
  | l :: ls' =>
      if match h !! l with Some n => p n | None => false end then Some 0%nat
      else S <$> findIndex p h ls'
  end.

(** [(a, b) => a.time - b.time || a.start_tick - b.start_tick] is
    positive.  A note has no [time] and an other-event no [start_tick],
    so a mixed pair compares as NaN, which [sort] reads as 0. *)
Definition by_time_gt (h : gmap loc item) (a b : loc) : bool :=
  match h !! a, h !! b with
  | Some (Other oa), Some (Other ob) => Qgtb (time oa - time ob) 0
  | Some (Note na), Some (Note nb) => Qgtb (start_tick na - start_tick nb) 0
  | _, _ => false
  end.

Definition _setTrackParameter (now : Q) (channel : Z) (type : trackParameter) (value : Z)
    (s : state) : state :=
  match
    match type with
    | instrument => Some ([Vlq.js_or 0xC0 (channel - 1); value], programChange)
    | volume => Some ([Vlq.js_or 0xB0 (channel - 1); 7; value]%Z, volumeChange)
    | unknownParameter => None
    end
  with
  | None => s
  | Some (message, kind) =>
      let s := emit (MidiMessage message) s in
      let wasDraggedRecently := Qltb (now - playheadLastDraggedTime s) TEN_SECONDS in
      let tick := if wasDraggedRecently then playheadTick s else 0 in
      let newEvent := Other (mkOther tick message (Some kind) (Some (channel - 1)%Z)) in
      let s := _saveStateForUndo s in
      let existingEventIndex :=
        findIndex (fun e =>
                     match e with
                     | Other o =>
                         Qeq_bool (time o) tick
                         && bool_decide (eventType o = Some kind)
                         && bool_decide (o_channel o = Some (channel - 1)%Z)
                     | Note _ => false
                     end) (heap s) (notes s) in
      let '(l, s) := alloc newEvent s in
      let s :=
        match existingEventIndex with
        | Some i => set_notes (<[i := l]> (notes s)) s
        | None => set_notes (sort (by_time_gt (heap s)) (notes s ++ [l])) s
        end in
      _buildLookaheadEvents s
  end.

(** *** Pointer geometry (lines 1311-1340)

    A position is the pair of [pos.x] and [pos.y].  The divisions are
    those of the rational numbers: the model is that of the code for
    [ppqn] other than 0. *)

Definition _getGridPos (v : view) (pos : Q * Q) : Q * Q :=
  (pos.1 - keysWidth + scrollX v, pos.2 - timelineHeight + scrollY v).

Definition _tickToPixel (s : state) (tick : Q) : Q := (tick / ppqn s) * beatWidth.

Definition _pixelToTick (s : state) (pixel : Q) : Q := (pixel / beatWidth) * ppqn s.

Definition _pitchToPixel (pitch : Z) : Q := inject_Z (totalPitches - 1 - pitch) * noteHeight.

(** [{x, y, w, h}] *)
Definition _getNoteRect (s : state) (n : note) : Q * Q * Q * Q :=
  (_tickToPixel s (start_tick n), _pitchToPixel (pitch n),
   _tickToPixel s (duration_ticks n), noteHeight).

(** *** Dragging the playhead (lines 1181-1191) *)

Definition _handlePlayheadDrag (v : view) (now : Q) (pos : Q * Q) (s : state) : state :=
  let gridX := pos.1 - keysWidth + scrollX v in
  let tick := (gridX / beatWidth) * ppqn s in
  let s := set_playheadTick (Qmax 0 tick) s in
  let s := if isPlaying s then _buildLookaheadEvents s else s in
  set_playheadLastDraggedTime now s.

(** *** Deleting the selection (lines 229-245)

    [confirm] is the answer of the confirmation dialog. *)

Definition _deleteNotes (confirm : bool) (s : state) : state :=
  match selectedNotes s with
  | [] => s
  | _ =>
      if negb confirm then s
      else
        let s := _saveStateForUndo s in
        let s := set_notes
                   (List.filter (fun n => negb (bool_decide (n ∈ selectedNotes s))) (notes s)) s in
        let s := set_selectedNotes [] s in
        let s := set_lookaheadEvents [] s in
        _recalculateSongDuration s
  end.

(** *** Resizing (lines 1103-1123) *)

(** [n.originalDuration = n.duration_ticks] *)
Definition store_originalDuration (s : state) (l : loc) : state :=
  match heap s !! l with
  | Some (Note n) =>
      set_heap (<[l := Note (mkNote (pitch n) (velocity n) (channel n) (start_tick n)
                               (duration_ticks n) (Some (duration_ticks n)))]> (heap s)) s
  | _ => s
  end.

Definition _handleResizeMouseDown (v : view) (note : loc) (pos : Q * Q) (s : state) : state :=
  let s := _saveStateForUndo s in
  let s := set_isResizing true s in
  let s := if bool_decide (note ∈ selectedNotes s) then s else set_selectedNotes [note] s in
  let s := set_resizeStartTicks (_pixelToTick s (_getGridPos v pos).1) s in
  fold_left store_originalDuration (selectedNotes s) s.

(** The write [n.duration_ticks = Math.max(s.ppqn / 16, newDuration)] to
    one selected object.  [None]: the object is a note without an
    [originalDuration]; JavaScript then stores NaN, a value outside the
    rational numbers of this model.  An other-event has neither field,
    before or after (its [duration_ticks] reads as NaN either way). *)
Definition resize_one (deltaTicks : Q) (s : state) (l : loc) : option state :=
  match heap s !! l with
  | Some (Note n) =>
      match originalDuration n with
      | Some original =>
          let newDuration := original + deltaTicks in
          Some (set_heap (<[l := Note (mkNote (pitch n) (velocity n) (channel n)
                                         (start_tick n)
                                         (Qmax (ppqn s / 16) newDuration)
                                         (originalDuration n))]> (heap s)) s)
      | None => None
      end
  | _ => Some s
  end.

Definition _handleNoteResize (v : view) (pos : Q * Q) (s : state) : option state :=
  let currentTick := _pixelToTick s (_getGridPos v pos).1 in
  let deltaTicks := currentTick - resizeStartTicks s in
  fold_left (fun acc l => acc ≫= fun s => resize_one deltaTicks s l)
            (selectedNotes s) (Some s).

(** *** Marquee selection and the end of a gesture (lines 696-718, 1385-1406) *)

(** The test of the filter in [_selectNotesInMarquee].  The rectangle of
    an object of type 'other' has NaN for [x] and [w], all four
    comparisons are false, and the filter keeps the object. *)
Definition in_marquee (v : view) (s : state) (n : item) : bool :=
  let m_x := Qmin (x1 (marquee s)) (x2 (marquee s)) in
  let m_y := Qmin (y1 (marquee s)) (y2 (marquee s)) in
  let m_w := Qabs (x1 (marquee s) - x2 (marquee s)) in
  let m_h := Qabs (y1 (marquee s) - y2 (marquee s)) in
  let g_x := m_x - keysWidth + scrollX v in
  let g_y := m_y - timelineHeight + scrollY v in
  match n with
  | Note n =>
      let '(r_x, r_y, r_w, r_h) := _getNoteRect s n in
      negb (Qgtb r_x (g_x + m_w) || Qltb (r_x + r_w) g_x
            || Qgtb r_y (g_y + m_h) || Qltb (r_y + r_h) g_y)
  | Other _ => true
  end.

Definition _selectNotesInMarquee (v : view) (s : state) : state :=
  set_selectedNotes
    (List.filter (fun l => match heap s !! l with
                           | Some n => in_marquee v s n
                           | None => false
                           end) (notes s)) s.

(** [_onInteractionEnd] from line 696 on, which is where a release
    arrives unless the drawer or a scroll bar took the gesture. *)
Definition _onInteractionEnd (v : view) (s : state) : state :=
  let s := if potentialDeselect s then set_selectedNotes [] s else s in
  let s := if isDragging s || isResizing s || wasAddingNote s
           then _recalculateSongDuration s else s in
  let s := if isMarqueeSelecting s then _selectNotesInMarquee v s else s in
  let s := if isDragging s || isResizing s then set_selectedNotes [] s else s in
  let s := if isPanning s then set_isPanning false s else s in
  let s := set_isDraggingPlayhead false s in
  let s := set_isDragging false s in
  let s := set_wasAddingNote false s in
  let s := set_isResizing false s in
  let s := set_isMarqueeSelecting false s in
  let s := set_isDraggingVScroll false s in
  let s := set_isDraggingHScroll false s in
  set_potentialDeselect false s.

(** *** Notions used in the statements *)

(** The callback that an event calls when it fires. *)
Definition emission (e : event) : output :=
  match e with
  | evNoteOn _ p v c _ => PlayNote p v c
  | evNoteOff _ p c => StopNote p c
  | evOther _ bytes => MidiMessage bytes
  end.

(** The events that muting spares: every event but the note-on and
    note-off events of a channel in [mutedChannels]. *)
Definition audible (channels : gset Z) (e : event) : bool :=
  match e with
  | evNoteOn _ _ _ c _ | evNoteOff _ _ c => negb (bool_decide (c ∈ channels))
  | evOther _ _ => true
  end.

(** The array [lookaheadEvents] as [_buildLookaheadEvents] leaves it. *)
Definition ticks_sorted (l : list event) : Prop :=
  StronglySorted (fun a b => tick a <= tick b) l.

(** What [pause] sends for one event of [lookaheadEvents]. *)
Definition still_flagged (e : event) : option output :=
  match e with
  | evNoteOn _ p _ c true => Some (StopNote p c)
  | _ => None
  end.

(** A song of one note: pitch 60 on channel 0, ticks 0 to 96. *)
Definition one_note : list Codec.message :=
  [ Codec.noteOn (Codec.mkMsg 60 100 0 0); Codec.noteOff (Codec.mkMsg 60 0 96 0) ].

Definition demo : state := loadFromJson one_note 96 initial.

(** Controller 120, "all sound off", on channel [ch]. *)
Definition all_sound_off (ch : Z) : output := MidiMessage [(0xB0 + ch)%Z; 120%Z; 0%Z].

(** The last tick of an event. *)
Definition item_end (n : item) : Q :=
  match n with
  | Note n => start_tick n + duration_ticks n
  | Other o => time o
  end.

(** [songDurationTicks] is at least the end tick of every event. *)
Definition covers_events (s : state) : Prop :=
  forall l n, l ∈ notes s -> heap s !! l = Some n -> item_end n <= songDurationTicks s.

(** [songDurationTicks] is at least the end tick of every note. *)
Definition covers_notes (s : state) : Prop :=
  forall l n, l ∈ notes s -> heap s !! l = Some (Note n) ->
              start_tick n + duration_ticks n <= songDurationTicks s.

(** The playhead dragged to tick 192 of [demo], and then a program
    change on track 1, less than ten seconds later. *)
Definition scrubbed : state := _handlePlayheadDrag (mkView 0 0) 1000 (228, 10) demo.

Definition with_program : state := _setTrackParameter 2000 1 instrument 5 scrubbed.

(** The two stacks hold at most [MAX_HISTORY] snapshots together. *)
Definition history_bounded (s : state) : Prop :=
  (length (undoHistory s) + length (redoHistory s) <= MAX_HISTORY)%nat.

(** [s'] has the stacks of [s]. *)
Definition same_history (s s' : state) : Prop :=
  undoHistory s' = undoHistory s /\ redoHistory s' = redoHistory s.

(** The ways in which a handler of the class touches the two stacks:
    a mutating action takes a snapshot first and leaves the stacks alone
    afterwards; [undo] and [redo]; loading a file empties both
    (lines 331-332); everything else leaves them as they are. *)
Inductive step : state -> state -> Prop :=
| step_mutating s s' : same_history (_saveStateForUndo s) s' -> step s s'
| step_undo s s' : same_history (undo s) s' -> step s s'
| step_redo s s' : same_history (redo s) s' -> step s s'
| step_load s s' : undoHistory s' = [] -> redoHistory s' = [] -> step s s'
| step_other s s' : same_history s s' -> step s s'.

(** The object after [store_originalDuration], and after [resize_one]. *)
Definition with_original (n : item) : item :=
  match n with
  | Note n => Note (mkNote (pitch n) (velocity n) (channel n) (start_tick n)
                      (duration_ticks n) (Some (duration_ticks n)))
  | Other o => Other o
  end.

Definition resized (floor deltaTicks : Q) (n : item) : item :=
  match n with
  | Note n =>
      match originalDuration n with
      | Some original =>
          Note (mkNote (pitch n) (velocity n) (channel n) (start_tick n)
                  (Qmax floor (original + deltaTicks)) (originalDuration n))
      | None => Note n
      end
  | Other o => Other o
  end.

(** Every selected note carries the duration it had when the gesture began. *)
Definition originals_recorded (s : state) : Prop :=
  forall l n, l ∈ selectedNotes s -> heap s !! l = Some (Note n) ->
              is_Some (originalDuration n).

(** The pointer moves of a resize gesture, each with the scroll offsets
    of its moment. *)
Definition resize_moves (moves : list (view * (Q * Q))) (s : state) : option state :=
  fold_left (fun acc m => acc ≫= _handleNoteResize m.1 m.2) moves (Some s).

(** Two note objects that differ at most in [duration_ticks]. *)
Definition same_note_resized (n n' : note) : Prop :=
  pitch n' = pitch n /\ velocity n' = velocity n /\ channel n' = channel n /\
  start_tick n' = start_tick n /\ originalDuration n' = originalDuration n.

Definition item_resized (x y : item) : Prop :=
  match x, y with
  | Note n, Note n' => same_note_resized n n'
  | Other o, Other o' => o = o'
  | _, _ => False
  end.

(** The state [s] of a gesture that began in [s1]. *)
Definition in_gesture (s1 s : state) : Prop :=
  selectedNotes s = selectedNotes s1 /\ ppqn s = ppqn s1 /\
  resizeStartTicks s = resizeStartTicks s1 /\
  forall k, option_Forall2 item_resized (heap s1 !! k) (heap s !! k).
End PianoRoll.

(** ** The pointer-capture broker *)

Module Broker.
Local Open Scope Q_scope.

(** *** Events and handler results *)

(** The identity of a control object. *)
Definition ref := nat.

(** [event.type] *)
Inductive eventType := pointerdown | pointermove | pointerup | wheel.

(** The [owner] property of an event: absent, [null], a control, or the
    point [{x, y}] that the drawer puts on wheel events. *)
Inductive owner :=
| ownerUndefined
| ownerNull
| ownerControl (c : ref)
| ownerPoint (x y : Q).

(** An event object; [{ ...event, owner: o }] is [with_owner o event]. *)
Record event := mkEvent {
  type : eventType; x : Q; y : Q; deltaY : Q; owner_of : owner }.

Definition with_owner (o : owner) (e : event) : event :=
  mkEvent (type e) (x e) (y e) (deltaY e) o.

Definition with_xy (x' y' : Q) (e : event) : event :=
  mkEvent (type e) x' y' (deltaY e) (owner_of e).

Definition with_type (t : eventType) (e : event) : event :=
  mkEvent t (x e) (y e) (deltaY e) (owner_of e).

(** [result.action] *)
Inductive action := capture | release | persist.

(** [{ action, control }]; [control] is absent in most results. *)
Record result := mkResult { action_of : action; control_of : option ref }.

(** Calls of the callbacks that a control was configured with. *)
Inductive callback :=
| onClick (c : ref)
| onStateChange (c : ref).

(** *** The controls *)

(** [{ x, y, width, height }] *)
Record bounds := mkBounds { b_x : Q; b_y : Q; b_width : Q; b_height : Q }.

Definition Qleb (a b : Q) : bool := Qle_bool a b.

(** [isPointInRect(x, y, rect)]; a [null] rectangle contains no point. *)
Definition isPointInRect (px py : Q) (rect : option bounds) : bool :=
  match rect with
  | None => false
  | Some r =>
      Qleb (b_x r) px && Qleb px (b_x r + b_width r)
      && Qleb (b_y r) py && Qleb py (b_y r + b_height r)
  end.

(** The fields of the three classes that their handlers read or write. *)
Record buttonControl := mkButton {
  bt_x : Q; bt_y : Q; bt_width : Q; bt_height : Q; bt_isPressed : bool }.

Record verticalSlider := mkSlider {
  sl_x : Q; sl_y : Q; sl_width : Q; sl_height : Q;
  sl_min : Z; sl_max : Z; sl_value : Z; sl_isDragging : bool }.

Record popupSlider := mkPopup {
  pp_x : Q; pp_y : Q; pp_width : Q; pp_height : Q;
  pp_isOpen : bool; pp_slider : verticalSlider }.

Inductive control :=
| Button (b : buttonControl)
| PopupSlider (p : popupSlider).

(** **** ButtonControl (lines 399-467) *)

Definition button_getBounds (b : buttonControl) : bounds :=
  mkBounds (bt_x b) (bt_y b) (bt_width b) (bt_height b).

(** [onPointerDown], [onPointerUp]; the class has no other handler. *)
Definition button_handleEvent (this : ref) (e : event) (b : buttonControl)
  : buttonControl * list callback * option result :=
  match type e with
  | pointerdown =>
      if isPointInRect (x e) (y e) (Some (button_getBounds b))
      then (mkButton (bt_x b) (bt_y b) (bt_width b) (bt_height b) true,
            [onClick this; onStateChange this], Some (mkResult capture (Some this)))
      else (b, [], None)
  | pointerup =>
      (mkButton (bt_x b) (bt_y b) (bt_width b) (bt_height b) false, [],
       Some (mkResult release None))
  | pointermove | wheel => (b, [], None)
  end.

(** **** VerticalSliderControl (lines 1264-1344)

    The division is that of the rational numbers: the model is that of
    the code for a slider whose height is not [handleHeight]. *)

Definition handleHeight : Q := 28.

(** [Math.round]: the nearest integer, halves upwards. *)
Definition round (q : Q) : Z := Qfloor (q + (1 # 2)).

Definition slider_isPointOnControl (px py : Q) (s : verticalSlider) : bool :=
  isPointInRect px py (Some (mkBounds (sl_x s) (sl_y s) (sl_width s) (sl_height s))).

Definition slider_updateValueFromPosition (this : ref) (py : Q) (s : verticalSlider)
  : verticalSlider * list callback :=
  let relativeY := py - (sl_y s + handleHeight / 2) in
  let ratio := 1 - Qmax 0 (Qmin 1 (relativeY / (sl_height s - handleHeight))) in
  let newValue := round (inject_Z (sl_min s) + ratio * inject_Z (sl_max s - sl_min s)) in
  if (newValue =? sl_value s)%Z then (s, [])
  else (mkSlider (sl_x s) (sl_y s) (sl_width s) (sl_height s) (sl_min s) (sl_max s)
          newValue (sl_isDragging s),
        [onStateChange this]).

Definition slider_set_dragging (d : bool) (s : verticalSlider) : verticalSlider :=
  mkSlider (sl_x s) (sl_y s) (sl_width s) (sl_height s) (sl_min s) (sl_max s)
    (sl_value s) d.

(** The slider's result is only tested for truth by the popup. *)
Definition slider_onPointerDown (this : ref) (px py : Q) (s : verticalSlider)
  : verticalSlider * list callback * bool :=
  if slider_isPointOnControl px py s
  then let '(s', cbs) := slider_updateValueFromPosition this py (slider_set_dragging true s) in
       (s', cbs, true)
  else (s, [], false).

Definition slider_onPointerMove (this : ref) (py : Q) (s : verticalSlider)
  : verticalSlider * list callback :=
  if sl_isDragging s then slider_updateValueFromPosition this py s else (s, []).

(** **** PopupSliderControl (lines 1165-1261) *)

Definition popup_set (isOpen : bool) (s : verticalSlider) (p : popupSlider) : popupSlider :=
  mkPopup (pp_x p) (pp_y p) (pp_width p) (pp_height p) isOpen s.

Definition popup_getBounds (p : popupSlider) : bounds :=
  mkBounds (pp_x p) (pp_y p) (pp_width p) (pp_height p).

Definition getPopupBounds (p : popupSlider) : option bounds :=
  if pp_isOpen p
  then Some (mkBounds (pp_x p) (pp_y p + pp_height p + 5) 60 (sl_height (pp_slider p) + 40))
  else None.

(** [owner === this] *)
Definition owner_is (this : ref) (o : owner) : bool :=
  match o with
  | ownerControl c => Nat.eqb c this
  | _ => false
  end.

(** [onPointerDown(x, y, owner)] (lines 1214-1238) *)
Definition popup_onPointerDown (this : ref) (px py : Q) (o : owner) (p : popupSlider)
  : popupSlider * list callback * option result :=
  let popupBounds := getPopupBounds p in
  if pp_isOpen p && negb (owner_is this o)
  then (popup_set false (pp_slider p) p, [], Some (mkResult release None))
  else if isPointInRect px py (Some (popup_getBounds p))
  then (popup_set (negb (pp_isOpen p)) (pp_slider p) p, [],
        if negb (pp_isOpen p) then Some (mkResult capture (Some this))
        else Some (mkResult release None))
  else if pp_isOpen p && isPointInRect px py popupBounds
  then let '(s', cbs, hit) := slider_onPointerDown this px py (pp_slider p) in
       (popup_set (pp_isOpen p) s' p, cbs,
        if hit then Some (mkResult persist (Some this)) else None)
  else (p, [], None).

(** [onPointerDown], [onPointerMove] and [onPointerUp], as
    [BaseControl.handleEvent] calls them. *)
Definition popup_handleEvent (this : ref) (e : event) (p : popupSlider)
  : popupSlider * list callback * option result :=
  match type e with
  | pointerdown => popup_onPointerDown this (x e) (y e) (owner_of e) p
  | pointermove =>
      if pp_isOpen p && sl_isDragging (pp_slider p)
      then let '(s', cbs) := slider_onPointerMove this (y e) (pp_slider p) in
           (popup_set (pp_isOpen p) s' p, cbs, None)
      else (p, [], None)
  | pointerup =>
      if sl_isDragging (pp_slider p)
      then (popup_set (pp_isOpen p) (slider_set_dragging false (pp_slider p)) p, [],
            Some (mkResult persist None))
      else (p, [], None)
  | wheel => (p, [], None)
  end.

(** [BaseControl.handleEvent] (lines 134-146), by class. *)
Definition control_handleEvent (this : ref) (e : event) (c : control)
  : control * list callback * option result :=
  match c with
  | Button b => let '(b', cbs, r) := button_handleEvent this e b in (Button b', cbs, r)
  | PopupSlider p => let '(p', cbs, r) := popup_handleEvent this e p in (PopupSlider p', cbs, r)
  end.

(** *** EventBroker (lines 1836-1885) *)

(** The broker's [capturedControl], the control objects, and what has
    been delivered to them and called by them so far. *)
Record world := mkWorld {
  capturedControl : option ref;
  controls : gmap ref control;
  delivered : list (ref * event);
  called : list callback }.

(** [control.handleEvent(event)], with the call recorded. *)
Definition deliver (c : ref) (e : event) (w : world) : world * option result :=
  match controls w !! c with
  | Some ctl =>
      let '(ctl', cbs, r) := control_handleEvent c e ctl in
      (mkWorld (capturedControl w) (<[c := ctl']> (controls w))
         (delivered w ++ [(c, e)]) (called w ++ cbs), r)
  | None => (w, None)
  end.

(** [this.capturedControl = c] *)
Definition set_captured (c : option ref) (w : world) : world :=
  mkWorld c (controls w) (delivered w) (called w).

(** [processResult] (lines 1861-1876) *)
Definition processResult (r : option result) (w : world) : world :=
  match r with
  | None => w
  | Some r =>
      match action_of r with
      | capture => set_captured (control_of r) w
      | release =>
          match capturedControl w with
          | Some _ => set_captured None w
          | None => w
          end
      | persist => w
      end
  end.

(** [dispatchEvent] (lines 1843-1858) *)
Definition dispatchEvent (e : event) (targetControl : option ref) (w : world) : world :=
  match capturedControl w with
  | Some c =>
      let '(w', r) := deliver c (with_owner (ownerControl c) e) w in
      processResult r w'
  | None =>
      match targetControl with
      | Some t =>
          let '(w', r) := deliver t (with_owner (ownerControl t) e) w in
          processResult r w'
      | None => w
      end
  end.

(** [handleGlobalClick] (lines 1879-1885) *)
Definition handleGlobalClick (e : event) (w : world) : world :=
  match capturedControl w with
  | Some c =>
      let '(w', r) := deliver c (with_owner ownerNull (with_type pointerdown e)) w in
      processResult r w'
  | None => w
  end.

(** *** Drawer.handleEvent, while a control is captured (lines 1382-1412) *)

(** The fields of the drawer that this branch reads. *)
Record drawer := mkDrawer {
  calculatedHeight : Q; scrollOffsetX : Q; scrollOffsetY : Q }.

(** [y < this.calculatedHeight] *)
Definition isPointInBounds (d : drawer) (px py : Q) : bool :=
  negb (Qle_bool (calculatedHeight d) py).

(** [None]: no control is captured, and the event goes on to the
    drawer's own interactions and hit test (lines 1414-1543). *)
Definition handleEvent (d : drawer) (e : event) (w : world) : option world :=
  match capturedControl w with
  | None => None
  | Some c =>
      let e := if negb (isPointInBounds d (x e) (y e))
               then with_xy (x e + scrollOffsetX d) (y e + scrollOffsetY d) e
               else e in
      if negb (isPointInBounds d (x e) (y e))
      then
        let globalClickEvent := with_owner ownerNull e in
        Some (dispatchEvent globalClickEvent (Some c) w)
      else
        let eventInDrawerSpace :=
          with_xy (x e + scrollOffsetX d) (y e + scrollOffsetY d) e in
        match type e with
        | wheel => Some (dispatchEvent (with_owner (ownerPoint (x e) (y e)) e) (Some c) w)
        | _ => Some (dispatchEvent eventInDrawerSpace (Some c) w)
        end
  end.

(** *** An open popup slider and a click far away from it *)

(** A popup slider, open and captured (control 7), in a drawer of height
    200, and a pointer-down at (500, 400). *)
Definition volumeSlider : verticalSlider := mkSlider 38 73 24 120 0 127 100 false.

Definition volumeOpen : popupSlider := mkPopup 20 20 100 28 true volumeSlider.

Definition volumeClosed : popupSlider := mkPopup 20 20 100 28 false volumeSlider.

Definition captured_popup : world :=
  mkWorld (Some 7%nat) {[ 7%nat := PopupSlider volumeOpen ]} [] [].

Definition panel : drawer := mkDrawer 200 0 0.

Definition click_outside : event := mkEvent pointerdown 500 400 0 ownerUndefined.
End Broker.

(** ** Message lists with other-events *)

Module MessageLists.
Import Codec.
Local Open Scope Z_scope.

(** The messages that open a note in [_messagesToNotes] (line 1421). *)
Definition opens (m : message) : option noteMsg :=
  match m with
  | noteOn f => if 0 <? m_velocity f then Some f else None
  | _ => None
  end.

(** The messages that close one (line 1423). *)
Definition closes (m : message) : option noteMsg :=
  match m with
  | noteOff f => Some f
  | noteOn f => if m_velocity f =? 0 then Some f else None
  | other _ _ => None
  end.

(** The note [n] is what the import makes of an opening message and a
    later closing message of [ms] for the same pitch and channel. *)
Definition paired (ms : list message) (n : note) : Prop :=
  exists m_on m_off f_on f_off,
    m_on ∈ ms /\ m_off ∈ ms /\ opens m_on = Some f_on /\ closes m_off = Some f_off /\
    m_pitch f_off = m_pitch f_on /\ m_channel f_off = m_channel f_on /\
    m_time f_on <= m_time f_off /\
    n = mkNote (m_pitch f_on) (m_velocity f_on) (m_channel f_on) (m_time f_on)
          (m_time f_off - m_time f_on).

(** An imported object is accounted for by the messages [ms]. *)
Definition accounted (ms : list message) (it : item) : Prop :=
  match it with
  | Note n => paired ms n
  | Other t bytes => other t bytes ∈ ms
  end.

(** The time and bytes of an object, and of a message, of type 'other'. *)
Definition other_item (it : item) : option (Z * list Z) :=
  match it with
  | Other t bytes => Some (t, bytes)
  | Note _ => None
  end.

Definition other_message (m : message) : option (Z * list Z) :=
  match m with
  | other t bytes => Some (t, bytes)
  | _ => None
  end.

(** The notes of a collection. *)
Definition notes_of (its : list item) : list note :=
  omap (fun it => match it with Note n => Some n | Other _ _ => None end) its.

Definition note_message (m : message) : bool :=
  match m with
  | other _ _ => false
  | _ => true
  end.

Definition other_to_item (m : message) : option item :=
  match m with
  | other t bytes => Some (Other t bytes)
  | _ => None
  end.

(** What is still open was opened by a message of [ms], under its own
    key, no later than the messages [l] still to come. *)
Definition open_ok (ms l : list message) (openNotes : gmap (Z * Z) noteMsg) : Prop :=
  forall k f, openNotes !! k = Some f ->
    noteOn f ∈ ms /\ 0 < m_velocity f /\ k = key (m_pitch f) (m_channel f) /\
    Forall (fun x => m_time f <= time x) l.
End MessageLists.

(** ** The writer of MIDI files *)

Module MidiFile.
Import Vlq Codec.
Local Open Scope Z_scope.

(** [Math.round]: the nearest integer, halves upwards. *)
Definition round (q : Q) : Z := Qfloor (q + (1 # 2))%Q.

(** The bytes of a message after its delta time.  [msg.channel || 0] is
    [msg.channel] for a number. *)
Definition event_bytes (msg : message) : list Z :=
  match msg with
  | other _ bytes => bytes
  | noteOn f => [js_or 0x90 (m_channel f); m_pitch f; m_velocity f]
  | noteOff f => [js_or 0x80 (m_channel f); m_pitch f; m_velocity f]
  end.

(** The bytes that [messages.forEach] pushes for one message, after a
    message at [lastTime]. *)
Definition message_bytes (lastTime : Z) (msg : message) : list Z :=
  let deltaTime := time msg - lastTime in
  writeVlq deltaTime ++ event_bytes msg.

(** The array [track] and the variable [lastTime] after [messages.forEach]. *)
Definition track_events (messages : list message) (track : list Z) : list Z * Z :=
  fold_left (fun '(track, lastTime) msg => (track ++ message_bytes lastTime msg, time msg))
            messages (track, 0).

(** The array [buffer] of [write].  For [bpm] 0 the quotient is
    [Infinity], which [>>] and [&] read as 0; the quotient of [Q] is 0
    there too. *)
Definition write_buffer (messages : list message) (ppqn : Z) (bpm : Q) : list Z :=
  let buffer :=
    [0x4D; 0x54; 0x68; 0x64; 0x00; 0x00; 0x00; 0x06; 0x00; 0x00;
     0x00; 0x01; js_and (js_sar ppqn 8) 0xFF; js_and ppqn 0xFF] in
  let microSecondsPerQuarterNote := round (60000000 / bpm)%Q in
  let track :=
    writeVlq 0 ++ [0xFF; 0x51; 0x03;
                   js_and (js_sar microSecondsPerQuarterNote 16) 0xFF;
                   js_and (js_sar microSecondsPerQuarterNote 8) 0xFF;
                   js_and microSecondsPerQuarterNote 0xFF] in
  let track := (track_events messages track).1 in
  let track := track ++ writeVlq 0 in
  let track := track ++ [0xFF; 0x2F; 0x00] in
  let buffer := buffer ++ [0x4D; 0x54; 0x72; 0x6B] in
  let trackLength := Z.of_nat (length track) in
  let buffer := buffer ++ [js_and (js_sar trackLength 24) 0xFF; js_and (js_sar trackLength 16) 0xFF;
                           js_and (js_sar trackLength 8) 0xFF; js_and trackLength 0xFF] in
  buffer ++ track.

(** [new Uint8Array(buffer)]: every element is taken modulo 256. *)
Definition write (messages : list message) (ppqn : Z) (bpm : Q) : list Z :=
  (fun b => b mod 256) <$> write_buffer messages ppqn bpm.


(** The number that a sequence of bytes is, most significant byte first. *)
Definition big_endian (bytes : list Z) : Z := fold_left (fun acc b => acc * 256 + b) bytes 0.



End MidiFile.

(** ** The editor: grid, hit test and pointer-down handlers *)

Module Editor.
Import JsArray PianoRoll.
Local Open Scope Q_scope.

(** The locations of the collection are in use: allocated, and below
    [nextLoc]. *)
Definition well_formed (s : state) : Prop :=
  forall l, l ∈ notes s -> (l < nextLoc s)%positive /\ is_Some (heap s !! l).


(** *** Settings of the editor

    Fields of [this.state] that the methods below read and that
    [setMode], [setCurrentChannel], [setPlayOnClick], the note-size
    control and [toggleHide] write. *)

Inductive mode := add | select | pan | otherMode.

Record settings := mkSettings {
  mode_of : mode;
  noteSize : Q;
  currentChannel : Z;
  playOnClick : bool;
  hiddenChannels : gset Z }.

(** A call [setTimeout(() => callback, delay)]: the delay in
    milliseconds and the callback that will be called. *)
Definition timer : Type := Q * output.

(** [this.state.marquee = r] *)
Definition set_marquee (r : rect) (s : state) : state :=
  mkState (heap s) (nextLoc s) (notes s) (selectedNotes s) (ppqn s) (bpm s)
    (songDurationTicks s) (isPlaying s) (playheadTick s) (lastFrameTime s)
    (lookaheadEvents s) (mutedChannels s) (isDragging s) (wasAddingNote s)
    (isResizing s) (isMarqueeSelecting s) (isDraggingVScroll s)
    (isDraggingHScroll s) (isPanning s) (isDraggingPlayhead s)
    (potentialDeselect s) (resizeStartTicks s) r (undoHistory s)
    (redoHistory s) (playheadLastDraggedTime s) (out s).

(** *** Snapping to the grid ([_pixelToGrid], lines 1350-1359) *)

(** [Math.round]: the nearest integer, halves upwards. *)
Definition round (q : Q) : Z := Qfloor (q + (1 # 2)).

(** The result is the pair of [tick] and [pitch]. *)
Definition _pixelToGrid (s : state) (pos : Q * Q) : Q * Z :=
  let q := ppqn s / 4 in
  let tick := inject_Z (round (pos.1 / _tickToPixel s q)) * q in
  let pitch := (totalPitches - 1 - Qfloor (pos.2 / noteHeight))%Z in
  (Qmax 0 tick, Z.max 0 (Z.min 127 pitch)).

(** *** Pointer-down on the grid ([_handleGridMouseDown], lines 1055-1091)

    The result is the new state and the timer that the method starts
    when [playOnClick] is set.  [state.soundOnAdd], which only the first
    lines of [_onInteractionEnd] read, is not modelled. *)

Definition ticksPerSecond (s : state) : Q := (bpm s / 60) * ppqn s.

Definition _handleGridMouseDown (c : settings) (v : view) (pos : Q * Q) (s : state)
  : state * option timer :=
  let s := set_selectedNotes [] s in
  match mode_of c with
  | add =>
      let s := _saveStateForUndo s in
      let gridPos := _pixelToGrid s (_getGridPos v pos) in
      let newNote := mkNote gridPos.2 100 (currentChannel c) gridPos.1 (noteSize c) None in
      let '(l, s) := alloc (Note newNote) s in
      let s := set_notes (notes s ++ [l]) s in
      let s := set_selectedNotes [l] s in
      let s := set_wasAddingNote true s in
      if playOnClick c
      then
        let durationMs := (noteSize c / ticksPerSecond s) * 1000 in
        (emit (PlayNote (pitch newNote) (velocity newNote) (channel newNote)) s,
         Some (durationMs, StopNote (pitch newNote) (channel newNote)))
      else (s, None)
  | select =>
      (set_marquee (mkRect pos.1 pos.2 pos.1 pos.2) (set_isMarqueeSelecting true s), None)
  | _ => (s, None)
  end.

(** [_handleMarqueeSelect] (lines 1124-1128) *)
Definition _handleMarqueeSelect (pos : Q * Q) (s : state) : state :=
  set_marquee (mkRect (x1 (marquee s)) (y1 (marquee s)) pos.1 pos.2) s.

(** *** Pointer-down on a note ([_handleNoteMouseDown], lines 1025-1053)

    [modifier] is [e.shiftKey || e.ctrlKey].  The result is the new
    state, [state.dragOffsets] and the timer started when [playOnClick]
    is set.  The method is called with the result of [_getNoteAt], a
    note; [None]: the object clicked is not a note.  The selection may
    hold objects of type 'other': they have neither [start_tick] nor
    [pitch], and their two offsets are NaN, here [None]. *)

Definition dragOffset : Type := loc * option (Q * Q).

Definition offset_of (v : view) (pos : Q * Q) (s : state) (l : loc) : dragOffset :=
  (l, match heap s !! l with
      | Some (Note n) =>
          Some ((_getGridPos v pos).1 - _tickToPixel s (start_tick n),
                (_getGridPos v pos).2 - _pitchToPixel (pitch n))
      | _ => None
      end).

Definition _handleNoteMouseDown (c : settings) (v : view) (modifier : bool) (note : loc)
    (pos : Q * Q) (s : state) : option (state * list dragOffset * option timer) :=
  match heap s !! note with
  | Some (Note n) =>
      let s := _saveStateForUndo s in
      let '(s, tm) :=
        if playOnClick c
        then
          let msPerTick := 1000 / ticksPerSecond s in
          let durationMs := duration_ticks n * msPerTick in
          (emit (PlayNote (pitch n) (velocity n) (channel n)) s,
           Some (durationMs, StopNote (pitch n) (channel n)))
        else (s, None) in
      let isSelected := bool_decide (note ∈ selectedNotes s) in
      let s :=
        if modifier
        then
          if isSelected
          then set_selectedNotes
                 (List.filter (fun n => negb (bool_decide (n = note))) (selectedNotes s)) s
          else set_selectedNotes (selectedNotes s ++ [note]) s
        else if isSelected then set_potentialDeselect true s
        else set_selectedNotes [note] s in
      let s := set_isDragging true s in
      Some (s, offset_of v pos s <$> selectedNotes s, tm)
  | _ => None
  end.

(** *** Dragging notes ([_handleNoteDrag], lines 1093-1101)

    The result is the new state and the list of the objects to which the
    code assigned a [start_tick] and a [pitch] that the store cannot
    hold: NaN (the offsets are NaN), or the two fields of an object that
    is not a note.  The store keeps these objects as they were. *)

Definition drag_one (v : view) (pos : Q * Q) (acc : state * list loc) (o : dragOffset)
  : state * list loc :=
  let '(s, nan) := acc in
  match heap s !! o.1, o.2 with
  | Some (Note n), Some (pixelOffsetX, pixelOffsetY) =>
      let newGridPixelX := (_getGridPos v pos).1 - pixelOffsetX in
      let newGridPixelY := (_getGridPos v pos).2 - pixelOffsetY in
      let newPos := _pixelToGrid s (newGridPixelX, newGridPixelY) in
      (set_heap (<[o.1 := Note (mkNote newPos.2 (velocity n) (channel n) newPos.1
                                  (duration_ticks n) (originalDuration n))]> (heap s)) s,
       nan)
  | _, _ => (s, nan ++ [o.1])
  end.

Definition _handleNoteDrag (v : view) (pos : Q * Q) (offsets : list dragOffset) (s : state)
  : state * list loc :=
  fold_left (drag_one v pos) offsets (s, []).

(** *** Hit test ([_getNoteAt], lines 1341-1349) *)

Definition Qleb (a b : Q) : bool := Qle_bool a b.

(** The test of [find]; an object of type 'other' has a rectangle of
    NaN and fails it. *)
Definition hit (c : settings) (s : state) (gridPos : Q * Q) (it : item) : bool :=
  match it with
  | Note n =>
      negb (bool_decide (channel n ∈ hiddenChannels c))
      && let '(r_x, r_y, r_w, r_h) := _getNoteRect s n in
         Qgeb gridPos.1 r_x && Qleb gridPos.1 (r_x + r_w)
         && Qgeb gridPos.2 r_y && Qleb gridPos.2 (r_y + r_h)
  | Other _ => false
  end.

Definition _getNoteAt (c : settings) (v : view) (x y : Q) (s : state) : option loc :=
  if Qltb y timelineHeight then None
  else
    let gridPos := _getGridPos v (x, y) in
    List.find (fun l => match heap s !! l with
                        | Some it => hit c s gridPos it
                        | None => false
                        end) (rev (notes s)).

(** *** Notions used in the statements *)

(** The selection that a pointer-down on [note] leaves. *)
Definition clicked_selection (modifier : bool) (note : loc) (selected : list loc) : list loc :=
  if modifier
  then
    if bool_decide (note ∈ selected)
    then List.filter (fun n => negb (bool_decide (n = note))) selected
    else selected ++ [note]
  else if bool_decide (note ∈ selected) then selected else [note].

(** Where a drag to [pos] puts a note that was at [n] when the pointer
    went down at [pos0]. *)
Definition dragged_to (s : state) (v0 : view) (pos0 : Q * Q) (v : view) (pos : Q * Q) (n : note)
  : Q * Z :=
  _pixelToGrid s
    ((_getGridPos v pos).1 - ((_getGridPos v0 pos0).1 - _tickToPixel s (start_tick n)),
     (_getGridPos v pos).2 - ((_getGridPos v0 pos0).2 - _pitchToPixel (pitch n))).

(** An editor in add mode with a note size of 96 ticks, on channel 0,
    with [playOnClick] set and no hidden channel. *)
Definition pencil : settings := mkSettings add 96 0 true ∅.

(** The grid position [g] lies on the rectangle of the note [n]. *)
Definition on_note (s : state) (g : Q * Q) (n : note) : Prop :=
  _tickToPixel s (start_tick n) <= g.1 /\
  g.1 <= _tickToPixel s (start_tick n) + _tickToPixel s (duration_ticks n) /\
  _pitchToPixel (pitch n) <= g.2 /\ g.2 <= _pitchToPixel (pitch n) + noteHeight.

(** The object at [l] is a visible note under the grid position [g]. *)
Definition under_pointer (c : settings) (s : state) (g : Q * Q) (l : loc) : Prop :=
  exists n, heap s !! l = Some (Note n) /\ (channel n ∉ hiddenChannels c) /\ on_note s g n.

(** The object at [l] is a note. *)
Definition is_note (s : state) (l : loc) : bool :=
  match heap s !! l with
  | Some (Note _) => true
  | _ => false
  end.

(** What a drag has done so far to the store of the pointer-down: a note
    is a note with the same velocity, channel and durations, and every
    other object is as it was. *)
Definition dragged_from (s0 s : state) : Prop :=
  ppqn s = ppqn s0 /\
  forall k,
    match heap s0 !! k with
    | Some (Note n) =>
        exists n', heap s !! k = Some (Note n') /\ velocity n' = velocity n /\
          channel n' = channel n /\ duration_ticks n' = duration_ticks n /\
          originalDuration n' = originalDuration n
    | other => heap s !! k = other
    end.

(** The events that a frame from [from] to [to] fires: those due, but
    for the note-on and note-off events of a muted channel. *)
Definition fired (from to : Q) (s : state) : list event :=
  List.filter (fun e => due from to e && audible (mutedChannels s) e) (lookaheadEvents s).

(** The event that [_setTrackParameter] stores, and the test of its
    [findIndex]. *)
Definition parameter_message (channel : Z) (type : trackParameter) (value : Z)
  : option (list Z * eventKind) :=
  match type with
  | instrument => Some ([Vlq.js_or 0xC0 (channel - 1); value], programChange)
  | volume => Some ([Vlq.js_or 0xB0 (channel - 1); 7; value]%Z, volumeChange)
  | unknownParameter => None
  end.

Definition parameter_tick (now : Q) (s : state) : Q :=
  if Qltb (now - playheadLastDraggedTime s) TEN_SECONDS then playheadTick s else 0.

Definition same_parameter (tick : Q) (kind : eventKind) (channel : Z) (e : item) : bool :=
  match e with
  | Other o =>
      Qeq_bool (time o) tick && bool_decide (eventType o = Some kind)
      && bool_decide (o_channel o = Some (channel - 1)%Z)
  | Note _ => false
  end.

(** *** Saving and loading ([getNotesAsJson], line 412; [loadFromJson])

    The ticks of a message list are integers.  [None]: a tick of the
    collection is not an integer. *)

Definition integer (q : Q) : option Z :=
  if Qeq_bool q (inject_Z (Qfloor q)) then Some (Qfloor q) else None.

(** What [_notesToMessages] reads of an object (lines 1441-1453): of a
    note its pitch, velocity, channel, start and duration; of an object
    of type 'other' its time and bytes, and no other field. *)
Definition read_item (it : item) : option Codec.item :=
  match it with
  | Note n =>
      t ← integer (start_tick n);
      d ← integer (duration_ticks n);
      Some (Codec.Note (Codec.mkNote (pitch n) (velocity n) (channel n) t d))
  | Other o =>
      t ← integer (time o);
      Some (Codec.Other t (msg o))
  end.

Definition getNotesAsJson (s : state) : option (list Codec.message) :=
  Codec._notesToMessages <$> mapM read_item (items s).

(** The object that [_messagesToNotes] builds for a saved object: a note
    without [originalDuration], an other-event without [eventType] and
    [channel]. *)
Definition reloaded (it : item) : item :=
  match it with
  | Note n =>
      Note (mkNote (pitch n) (velocity n) (channel n) (inject_Z (Qfloor (start_tick n)))
              (inject_Z (Qfloor (duration_ticks n))) None)
  | Other o => Other (mkOther (inject_Z (Qfloor (time o))) (msg o) None None)
  end.

(** The notes of a collection. *)
Definition notes_in (its : list item) : list note :=
  omap (fun it => match it with Note n => Some n | Other _ => None end) its.

(** The collection of [demo] with the volume of track 1 set to 90. *)
Definition with_volume : state := _setTrackParameter 2000 1 volume 90 demo.
End Editor.

(** ** The transport: play, pause, stop and mute *)

Module Transport.
Import JsArray PianoRoll.
Local Open Scope Q_scope.

(** *** Muting a channel ([toggleMute], lines 1194-1201) *)

Definition set_mutedChannels (v : gset Z) (s : state) : state :=
  mkState (heap s) (nextLoc s) (notes s) (selectedNotes s) (ppqn s) (bpm s)
    (songDurationTicks s) (isPlaying s) (playheadTick s) (lastFrameTime s)
    (lookaheadEvents s) v (isDragging s) (wasAddingNote s) (isResizing s)
    (isMarqueeSelecting s) (isDraggingVScroll s) (isDraggingHScroll s)
    (isPanning s) (isDraggingPlayhead s) (potentialDeselect s)
    (resizeStartTicks s) (marquee s) (undoHistory s) (redoHistory s)
    (playheadLastDraggedTime s) (out s).

Definition toggleMute (channel : Z) (s : state) : state :=
  if bool_decide (channel ∈ mutedChannels s)
  then set_mutedChannels (mutedChannels s ∖ {[channel]}) s
  else set_mutedChannels (mutedChannels s ∪ {[channel]}) s.

(** *** Sessions of the transport

    The calls that drive a playback and leave the lookahead list to
    [play] and [_playbackLoop]: the transport buttons, the animation
    frames and the mute switches. *)

Inductive command :=
| Play (now : Q)
| Frame (timestamp : Q)
| Pause
| Stop
| ToggleMute (channel : Z).

Definition run_command (c : command) (s : state) : state :=
  match c with
  | Play now => play now s
  | Frame timestamp => _playbackLoop timestamp s
  | Pause => pause s
  | Stop => stop s
  | ToggleMute channel => toggleMute channel s
  end.

Definition run (cs : list command) (s : state) : state :=
  fold_left (fun s c => run_command c s) cs s.

(** *** Notions used in the statements *)

(** The song of [demo] with the volume of track 1 (MIDI channel 0) set
    to 90, channel 0 muted, and playback started. *)
Definition muted_volume : state :=
  play 0 (toggleMute 0 (_setTrackParameter 2000 1 volume 90 demo)).

(** Whether the note of pitch [p] on channel [c] sounds after the
    callback [o], when [on] says whether it sounded before. *)
Definition heard (p c : Z) (on : bool) (o : output) : bool :=
  match o with
  | PlayNote p' _ c' => if (p' =? p)%Z && (c' =? c)%Z then true else on
  | StopNote p' c' => if (p' =? p)%Z && (c' =? c)%Z then false else on
  | MidiMessage _ => on
  end.

(** The note sounds after the callbacks of [trace]: the last of them
    for this pitch and channel is an [onPlayNote]. *)
Definition sounding (p c : Z) (trace : list output) : bool :=
  fold_left (heard p c) trace false.

(** The callbacks of [trace] are accounted for by the flags of the
    lookahead list: a note that sounds has a flagged event. *)
Definition flagged (trace : list output) (s : state) : Prop :=
  forall p c, sounding p c trace = true ->
    exists t v, evNoteOn t p v c true ∈ lookaheadEvents s.
End Transport.

(** ** Buttons and sliders *)

Module Widgets.
Import Broker.
Local Open Scope Q_scope.

(** *** Notions used in the statements *)

(** [this.isPressed = v] *)
Definition button_pressed (v : bool) (b : buttonControl) : buttonControl :=
  mkButton (bt_x b) (bt_y b) (bt_width b) (bt_height b) v.

(** The value that a slider shows for a pointer at height [py]. *)
Definition slider_value_at (py : Q) (s : verticalSlider) : Z :=
  sl_value (slider_updateValueFromPosition 0%nat py s).1.

(** [this.isOpen = v] *)
Definition popup_open (v : bool) (p : popupSlider) : popupSlider :=
  mkPopup (pp_x p) (pp_y p) (pp_width p) (pp_height p) v (pp_slider p).

(** The slider of a popup set to the value for a pointer at height [py]. *)
Definition popup_slid (py : Q) (p : popupSlider) : popupSlider :=
  mkPopup (pp_x p) (pp_y p) (pp_width p) (pp_height p) (pp_isOpen p)
    (mkSlider (sl_x (pp_slider p)) (sl_y (pp_slider p)) (sl_width (pp_slider p))
       (sl_height (pp_slider p)) (sl_min (pp_slider p)) (sl_max (pp_slider p))
       (slider_value_at py (pp_slider p)) (sl_isDragging (pp_slider p))).
End Widgets.

(** * Part II: the properties *)

(** ** Array.prototype.sort *)

Module JsArrayProps.
Import JsArray.
Section SortFacts.

Context {A : Type} (gt : A -> A -> bool).

Lemma insert_back_perm x racc : insert_back gt x racc ≡ₚ x :: racc.
Proof.
  induction racc as [| y rest IH]; simpl; [reflexivity |].
  destruct (gt y x); [| reflexivity].
  rewrite IH. apply Permutation_swap.
Qed.

Lemma fold_insert_back_perm l : forall racc,
  fold_left (fun acc x => insert_back gt x acc) l racc ≡ₚ l ++ racc.
Proof.
  induction l as [| x l IH]; intros racc; simpl; [reflexivity |].
  rewrite IH, insert_back_perm. symmetry. apply Permutation_middle.
Qed.

Lemma sort_perm l : sort gt l ≡ₚ l.
Proof.
  unfold sort. rewrite <- Permutation_rev, fold_insert_back_perm, app_nil_r.
  reflexivity.
Qed.

(** Sortedness of the result, for an array of elements in [P] on
    which the comparator refines a transitive order [R]. *)
Section Ordered.

Variable P : A -> Prop.

Variable R : A -> A -> Prop.

Hypothesis R_trans : forall a b c, R a b -> R b c -> R a c.

Hypothesis gt_true : forall y x, P y -> P x -> gt y x = true -> R x y.

Hypothesis gt_false : forall y x, P y -> P x -> gt y x = false -> R y x.

Lemma insert_back_sorted x racc :
  P x -> Forall P racc ->
  StronglySorted (flip R) racc ->
  StronglySorted (flip R) (insert_back gt x racc).
Proof.
  intros Px. induction racc as [| y rest IH]; simpl; intros HP Hs.
  - repeat constructor.
  - apply Forall_cons in HP as [Py HP].
    apply StronglySorted_inv in Hs as [Hrest Hy].
    destruct (gt y x) eqn:Hgt.
    + constructor; [apply IH; assumption |].
      rewrite insert_back_perm. constructor; [apply gt_true; assumption | exact Hy].
    + constructor; [constructor; assumption |].
      constructor; [apply gt_false; assumption |].
      eapply Forall_impl; [exact Hy |]. unfold flip. intros z Hz.
      eapply R_trans; [exact Hz | apply gt_false; assumption].
Qed.

Lemma fold_insert_back_sorted l : forall racc,
  Forall P l -> Forall P racc ->
  StronglySorted (flip R) racc ->
  StronglySorted (flip R) (fold_left (fun acc x => insert_back gt x acc) l racc).
Proof.
  induction l as [| x l IH]; intros racc Hl HP Hs; simpl; [exact Hs |].
  apply Forall_cons in Hl as [Px Hl].
  apply IH; [exact Hl | | apply insert_back_sorted; assumption].
  rewrite insert_back_perm. constructor; assumption.
Qed.

Lemma StronglySorted_flip_rev (l : list A) :
  StronglySorted (flip R) l -> StronglySorted R (rev l).
Proof.
  induction l as [| x l IH]; simpl; intros Hs; [constructor |].
  apply StronglySorted_inv in Hs as [Hl Hx].
  apply StronglySorted_app_2; [| apply IH, Hl | repeat constructor].
  intros a b Ha Hb. apply list_elem_of_singleton in Hb as ->.
  rewrite Forall_forall in Hx. apply Hx.
  apply list_elem_of_In, in_rev, list_elem_of_In, Ha.
Qed.

Lemma sort_sorted_on l : Forall P l -> StronglySorted R (sort gt l).
Proof.
  intros Hl. apply StronglySorted_flip_rev, fold_insert_back_sorted.
  - exact Hl.
  - constructor.
  - constructor.
Qed.

End Ordered.

Lemma sort_sorted (R : A -> A -> Prop) l :
  (forall a b c, R a b -> R b c -> R a c) ->
  (forall y x, gt y x = true -> R x y) ->
  (forall y x, gt y x = false -> R y x) ->
  StronglySorted R (sort gt l).
Proof.
  intros Htrans Htrue Hfalse.
  apply (sort_sorted_on (fun _ => True)); auto.
  apply Forall_forall. auto.
Qed.

Lemma StronglySorted_lookup_lt (R : A -> A -> Prop) l :
  StronglySorted R l ->
  forall (i j : nat) a b, (i < j)%nat -> l !! i = Some a -> l !! j = Some b -> R a b.
Proof.
  induction 1 as [| x l Hl IH Hx]; intros i j a b Hij Ha Hb; [destruct i; discriminate |].
  destruct j as [| j]; [lia |]. cbn in Hb.
  destruct i as [| i].
  - injection Ha as <-. rewrite Forall_forall in Hx. apply Hx.
    eapply list_elem_of_lookup_2. exact Hb.
  - cbn in Ha. apply (IH i j); [lia | assumption | assumption].
Qed.

(** An array in which no element is greater than a later one is left
    as it is. *)
Lemma fold_insert_back_id l : forall racc,
  StronglySorted (fun a b => gt a b = false) l ->
  (forall y, head racc = Some y -> Forall (fun x => gt y x = false) l) ->
  fold_left (fun acc x => insert_back gt x acc) l racc = rev l ++ racc.
Proof.
  induction l as [| x l IH]; intros racc Hs Hhd; simpl; [reflexivity |].
  apply StronglySorted_inv in Hs as [Hl Hx].
  assert (insert_back gt x racc = x :: racc) as ->.
  { destruct racc as [| y rest]; [reflexivity |]. simpl.
    specialize (Hhd y eq_refl). apply Forall_inv in Hhd. rewrite Hhd. reflexivity. }
  rewrite IH; [rewrite <- app_assoc; reflexivity | exact Hl |].
  intros y [= <-]. exact Hx.
Qed.

Lemma sort_id l : StronglySorted (fun a b => gt a b = false) l -> sort gt l = l.
Proof.
  intros Hs. unfold sort. rewrite fold_insert_back_id, app_nil_r, rev_involutive.
  - reflexivity.
  - exact Hs.
  - discriminate.
Qed.

End SortFacts.
End JsArrayProps.

(** ** Variable-length quantities ([writeVlq] in [saveToMidi], lines 416-459) *)

Module VlqProps.
Import Vlq.
Local Open Scope Z_scope.

Lemma toInt32_le z : 0 < z -> toInt32 z <= z.
Proof.
  intros Hz. unfold toInt32.
  pose proof (Z.mod_le (z + 2 ^ 31) (2 ^ 32)) as H.
  lia.
Qed.

Lemma js_sar_decreases z : 0 < z -> (Z.to_nat (js_sar z 7) < Z.to_nat z)%nat.
Proof.
  intros Hz. unfold js_sar. pose proof (toInt32_le z Hz) as Hle.
  rewrite Z.shiftr_div_pow2 by lia.
  destruct (Z_le_gt_dec (toInt32 z) 0) as [Hn | Hp].
  - assert (toInt32 z / 2 ^ 7 <= 0) by (apply Z.div_le_upper_bound; lia). lia.
  - assert (toInt32 z / 2 ^ 7 < toInt32 z) by (apply Z.div_lt; lia).
    assert (0 <= toInt32 z / 2 ^ 7) by (apply Z.div_pos; lia). lia.
Qed.

Lemma writeVlq_loop_step v bytes :
  writeVlq_loop v bytes =
  if Z_lt_dec 0 v
  then writeVlq_loop (js_sar v 7) (bytes ++ [js_or (js_and v 127) 128])
  else bytes.
Proof.
  rewrite writeVlq_loop_equation_1. destruct (Z_lt_dec 0 v); reflexivity.
Qed.

(** *** Bit-level facts about the bytes pushed by the loop *)

Lemma toInt32_small z : - 2 ^ 31 <= z < 2 ^ 31 -> toInt32 z = z.
Proof. intros H. unfold toInt32. rewrite Z.mod_small; lia. Qed.

Lemma land_127_mod z : Z.land z 127 = z mod 128.
Proof. change 127 with (Z.ones 7). rewrite Z.land_ones by lia. reflexivity. Qed.

Lemma land_127_range z : 0 <= Z.land z 127 < 128.
Proof. rewrite land_127_mod. apply Z.mod_pos_bound. lia. Qed.

Lemma js_and_127 v : - 2 ^ 31 <= v < 2 ^ 31 -> js_and v 127 = Z.land v 127.
Proof. intros H. unfold js_and. rewrite !toInt32_small; [reflexivity | lia | lia]. Qed.

Lemma js_sar_7 v : - 2 ^ 31 <= v < 2 ^ 31 -> js_sar v 7 = Z.shiftr v 7.
Proof. intros H. unfold js_sar. rewrite toInt32_small; [reflexivity | lia]. Qed.

Lemma js_or_128 g : 0 <= g < 128 -> js_or g 128 = Z.lor g 128.
Proof. intros H. unfold js_or. rewrite !toInt32_small; [reflexivity | lia | lia]. Qed.

Lemma shiftr_7_range v : 0 <= v < 2 ^ 31 -> 0 <= Z.shiftr v 7 < 2 ^ 31.
Proof.
  intros H. rewrite Z.shiftr_div_pow2 by lia. split.
  - apply Z.div_pos; lia.
  - apply Z.div_lt_upper_bound; lia.
Qed.

Lemma continuation_testbit g : Z.testbit (Z.lor (Z.land g 127) 128) 7 = true.
Proof. rewrite Z.lor_spec. change (Z.testbit 128 7) with true. apply orb_true_r. Qed.

Lemma continuation_group g : Z.land (Z.lor (Z.land g 127) 128) 127 = Z.land g 127.
Proof.
  rewrite Z.land_lor_distr_l, <- Z.land_assoc.
  change (Z.land 127 127) with 127. change (Z.land 128 127) with 0.
  apply Z.lor_0_r.
Qed.

Lemma final_testbit g : Z.testbit (Z.land g 127) 7 = false.
Proof. rewrite Z.land_spec. change (Z.testbit 127 7) with false. apply andb_false_r. Qed.

Lemma group_append acc g :
  Z.lor (Z.shiftl acc 7) (Z.land g 127) = acc * 128 + Z.land g 127.
Proof.
  rewrite Z.shiftl_mul_pow2 by lia. change (2 ^ 7) with 128.
  symmetry. rewrite Z.add_nocarry_lxor; [apply Z.lxor_lor |]; 
  apply Z.bits_inj'; intros n Hn; rewrite Z.land_spec, Z.bits_0;
  destruct (Z_lt_dec n 7) as [Hlt | Hge].
  - change 128 with (2 ^ 7). rewrite Z.mul_pow2_bits_low by lia. reflexivity.
  - rewrite (Z.land_spec g 127).
    replace (Z.testbit 127 n) with false; [ rewrite !andb_false_r; reflexivity |].
    change 127 with (Z.ones 7). symmetry. apply Z.ones_spec_high. lia.
  - change 128 with (2 ^ 7). rewrite Z.mul_pow2_bits_low by lia. reflexivity.
  - rewrite (Z.land_spec g 127).
    replace (Z.testbit 127 n) with false; [ rewrite !andb_false_r; reflexivity |].
    change 127 with (Z.ones 7). symmetry. apply Z.ones_spec_high. lia.
Qed.

(** *** The loop, seen as a list of continuation bytes *)

Lemma loop_ind (P : Z -> Prop) :
  (forall v, (0 < v -> P (js_sar v 7)) -> P v) -> forall v, P v.
Proof.
  intros Hstep v. remember (Z.to_nat v) as m eqn:Hm. revert v Hm.
  induction m as [m IH] using lt_wf_ind. intros v ->.
  apply Hstep. intros Hpos. apply (IH _ (js_sar_decreases v Hpos)). reflexivity.
Qed.

Lemma loop_app v : forall bytes, writeVlq_loop v bytes = bytes ++ writeVlq_loop v [].
Proof.
  induction v as [v IH] using loop_ind. intros bytes.
  rewrite (writeVlq_loop_step v bytes), (writeVlq_loop_step v []).
  destruct (Z_lt_dec 0 v) as [Hpos | Hneg].
  - rewrite (IH Hpos (bytes ++ _)), (IH Hpos ([] ++ _)). rewrite <- app_assoc. reflexivity.
  - rewrite app_nil_r. reflexivity.
Qed.

Lemma loop_nonpos v : v <= 0 -> writeVlq_loop v [] = [].
Proof. intros H. rewrite writeVlq_loop_step. destruct (Z_lt_dec 0 v); [lia | reflexivity]. Qed.

Lemma loop_pos v :
  0 < v < 2 ^ 31 ->
  writeVlq_loop v [] = Z.lor (Z.land v 127) 128 :: writeVlq_loop (Z.shiftr v 7) [].
Proof.
  intros H. rewrite writeVlq_loop_step. destruct (Z_lt_dec 0 v); [| lia].
  rewrite loop_app, js_sar_7, js_and_127 by lia.
  rewrite js_or_128 by apply land_127_range. reflexivity.
Qed.

Lemma loop_lookup v :
  0 <= v < 2 ^ 31 ->
  forall (i : nat) g, writeVlq_loop v [] !! i = Some g ->
    g = Z.lor (Z.land (Z.shiftr v (7 * Z.of_nat i)) 127) 128.
Proof.
  induction v as [v IH] using loop_ind. intros Hv i g.
  destruct (Z_lt_dec 0 v) as [Hpos | Hneg].
  - rewrite loop_pos by lia. destruct i as [| i]; simpl.
    + intros [= <-]. reflexivity.
    + intros Hg. rewrite js_sar_7 in IH by lia.
      rewrite (IH Hpos (shiftr_7_range v Hv) i g Hg).
      rewrite Z.shiftr_shiftr by lia. do 3 f_equal. lia.
  - rewrite loop_nonpos by lia. destruct i; discriminate.
Qed.

Lemma loop_length v :
  0 <= v < 2 ^ 31 ->
  let k := Z.of_nat (length (writeVlq_loop v [])) in
  v < 128 ^ k /\ (k = 0 \/ 128 ^ (k - 1) <= v).
Proof.
  induction v as [v IH] using loop_ind. intros Hv.
  destruct (Z_lt_dec 0 v) as [Hpos | Hneg].
  - rewrite loop_pos by lia. rewrite js_sar_7 in IH by lia.
    specialize (IH Hpos (shiftr_7_range v Hv)). cbn zeta in *.
    set (k := Z.of_nat (length (writeVlq_loop (Z.shiftr v 7) []))) in *.
    replace (Z.of_nat (length (_ :: writeVlq_loop (Z.shiftr v 7) []))) with (k + 1)
      by (subst k; simpl length; lia).
    assert (0 <= k) by (subst k; lia).
    rewrite Z.shiftr_div_pow2 in IH by lia. change (2 ^ 7) with 128 in IH.
    destruct IH as [Hub Hlb]. rewrite Z.pow_add_r, Z.pow_1_r by lia.
    pose proof (Z.div_mod v 128 ltac:(lia)) as Hdm.
    pose proof (Z.mod_pos_bound v 128 ltac:(lia)) as Hmod.
    split; [nia |]. right. replace (k + 1 - 1) with k by lia.
    destruct Hlb as [-> | Hlb]; [simpl; lia |].
    destruct (Z.eq_dec k 0) as [-> | Hk]; [simpl; lia |].
    replace k with (k - 1 + 1) by lia. rewrite Z.pow_add_r, Z.pow_1_r by lia. nia.
  - rewrite loop_nonpos by lia. simpl. split; [lia | left; reflexivity].
Qed.

Lemma readVlq_continuation acc g tail :
  readVlq acc (Z.lor (Z.land g 127) 128 :: tail) = readVlq (acc * 128 + Z.land g 127) tail.
Proof.
  cbn [readVlq]. rewrite continuation_testbit, continuation_group, group_append. reflexivity.
Qed.

Lemma readVlq_loop v :
  0 <= v < 2 ^ 31 ->
  forall acc tail,
    readVlq acc (rev (writeVlq_loop v []) ++ tail) =
    readVlq (acc * 128 ^ Z.of_nat (length (writeVlq_loop v [])) + v) tail.
Proof.
  induction v as [v IH] using loop_ind. intros Hv acc tail.
  destruct (Z_lt_dec 0 v) as [Hpos | Hneg].
  - rewrite loop_pos by lia. rewrite js_sar_7 in IH by lia.
    specialize (IH Hpos (shiftr_7_range v Hv)).
    simpl rev. rewrite <- app_assoc. simpl app. rewrite IH, readVlq_continuation.
    f_equal. simpl length. rewrite Nat2Z.inj_succ, Z.pow_succ_r by lia.
    rewrite land_127_mod, Z.shiftr_div_pow2 by lia. change (2 ^ 7) with 128.
    pose proof (Z.div_mod v 128 ltac:(lia)). lia.
  - rewrite loop_nonpos by lia. simpl. f_equal. lia.
Qed.

Lemma readVlq_bound bs :
  forall acc n rest, 0 <= acc -> readVlq acc bs = Some (n, rest) ->
    exists k : nat, (k <= length bs)%nat /\ (length rest + k = length bs)%nat /\
      0 <= n < (acc + 1) * 128 ^ Z.of_nat k.
Proof.
  induction bs as [| b bs IH]; intros acc n rest Hacc; cbn [readVlq]; [discriminate |].
  rewrite group_append. pose proof (land_127_range b) as Hg.
  destruct (Z.testbit b 7).
  - intros Hr. assert (0 <= acc * 128 + Z.land b 127) as Hacc' by lia.
    destruct (IH _ _ _ Hacc' Hr) as (k & Hk & Hlen & Hn).
    exists (S k). cbn [length]. split; [lia |]. split; [lia |].
    rewrite Nat2Z.inj_succ, Z.pow_succ_r by lia.
    assert (0 < 128 ^ Z.of_nat k) by (apply Z.pow_pos_nonneg; lia). nia.
  - intros [= <- <-]. exists 1%nat. cbn [length]. split; [lia |]. split; [lia |].
    change (128 ^ Z.of_nat 1) with 128. lia.
Qed.

Lemma continuation_value g : Z.lor (Z.land g 127) 128 = Z.land g 127 + 128.
Proof.
  assert (Z.land (Z.land g 127) 128 = 0) as Hdisj.
  { rewrite <- Z.land_assoc. change (Z.land 127 128) with 0. apply Z.land_0_r. }
  rewrite Z.add_nocarry_lxor by exact Hdisj. symmetry. apply Z.lxor_lor, Hdisj.
Qed.

Lemma writeVlq_rev n :
  0 <= n < 2 ^ 31 ->
  rev (writeVlq n) = Z.land n 127 :: writeVlq_loop (Z.shiftr n 7) [].
Proof.
  intros Hn. unfold writeVlq. rewrite rev_involutive, loop_app.
  rewrite js_sar_7, js_and_127 by lia. reflexivity.
Qed.

Lemma writeVlq_eq n :
  0 <= n < 2 ^ 31 ->
  writeVlq n = rev (writeVlq_loop (Z.shiftr n 7) []) ++ [Z.land n 127].
Proof.
  intros Hn. rewrite <- (rev_involutive (writeVlq n)), writeVlq_rev by exact Hn.
  reflexivity.
Qed.

(** C2.  For every [n] from 0 to 0x0FFFFFFF, the bytes of [writeVlq n]
    are the base-128 digits of [n], most significant first: counted
    from the end, byte [i] holds the bits [7i .. 7i+6] of [n] in its low
    seven bits, and its high bit is set unless it is the last byte.  No
    sequence of bytes that decodes to [n] is shorter, and the decoder
    reads [n] back from [writeVlq n], consuming exactly these bytes. *)
Theorem writeVlq_correct n :
  0 <= n <= 0x0FFFFFFF ->
  (forall (i : nat) g, rev (writeVlq n) !! i = Some g ->
     Z.land g 127 = Z.land (Z.shiftr n (7 * Z.of_nat i)) 127 /\
     0 <= g < 256 /\
     Z.testbit g 7 = match i with O => false | S _ => true end) /\
  (forall bs', readVlq 0 bs' = Some (n, []) -> (length (writeVlq n) <= length bs')%nat) /\
  (forall rest, readVlq 0 (writeVlq n ++ rest) = Some (n, rest)).
Proof.
  intros Hn. assert (0 <= n < 2 ^ 31) as Hn' by lia.
  pose proof (writeVlq_rev n Hn') as Hrev.
  pose proof (shiftr_7_range n Hn') as Hv.
  split; [| split].
  - intros i g. rewrite Hrev. destruct i as [| i].
    + intros [= <-]. rewrite Z.shiftr_0_r.
      split; [| split; [pose proof (land_127_range n); lia | apply final_testbit]].
      rewrite <- Z.land_assoc. reflexivity.
    + change ((Z.land n 127 :: writeVlq_loop (Z.shiftr n 7) []) !! S i)
        with (writeVlq_loop (Z.shiftr n 7) [] !! i).
      intros Hg. rewrite (loop_lookup _ Hv i g Hg).
      rewrite continuation_group, continuation_testbit, Z.shiftr_shiftr by lia.
      split; [do 2 f_equal; lia |]. split; [| reflexivity].
      rewrite continuation_value.
      pose proof (land_127_range (Z.shiftr n (7 + 7 * Z.of_nat i))). lia.
  - intros bs' Hread.
    destruct (readVlq_bound bs' 0 n [] ltac:(lia) Hread) as (k & _ & Hlen & Hub).
    cbn [length] in Hlen. rewrite <- (length_rev (writeVlq n)), Hrev. cbn [length].
    destruct (loop_length _ Hv) as [_ Hlb]. cbn zeta in Hlb.
    set (L := length (writeVlq_loop (Z.shiftr n 7) [])) in *.
    destruct bs' as [| b bs']; [discriminate |]. cbn [length] in *.
    destruct Hlb as [HL | Hlb]; [lia |].
    destruct (Nat.eq_dec L 0%nat) as [HL0 | HL0]; [lia |].
    rewrite Z.shiftr_div_pow2 in Hlb by lia. change (2 ^ 7) with 128 in Hlb.
    assert (128 ^ Z.of_nat L <= n) as HLn.
    { replace (Z.of_nat L) with (Z.of_nat L - 1 + 1) by lia.
      rewrite Z.pow_add_r, Z.pow_1_r by lia.
      pose proof (Z.div_mod n 128 ltac:(lia)). pose proof (Z.mod_pos_bound n 128 ltac:(lia)).
      nia. }
    assert (128 ^ Z.of_nat L < 128 ^ Z.of_nat k) as Hpow by lia.
    apply Z.pow_lt_mono_r_iff in Hpow; lia.
  - intros rest. rewrite (writeVlq_eq n Hn'), <- app_assoc, readVlq_loop by exact Hv.
    cbn [app readVlq]. rewrite final_testbit, group_append. f_equal. f_equal.
    rewrite <- Z.land_assoc. change (Z.land 127 127) with 127.
    rewrite land_127_mod, Z.shiftr_div_pow2 by lia. change (2 ^ 7) with 128.
    pose proof (Z.div_mod n 128 ltac:(lia)). lia.
Qed.

Lemma writeVlq_correct_witness :
  0 <= 300 <= 0x0FFFFFFF /\ readVlq 0 (writeVlq 300 ++ [7]) = Some (300, [7]).
Proof.
  split; [lia |]. apply (writeVlq_correct 300). lia.
Defined.
End VlqProps.

(** ** The message-list codec ([_notesToMessages], [_messagesToNotes], lines 1416-1463) *)

Module CodecProps.
Import JsArrayProps Codec.
Import JsArray.

Local Open Scope Z_scope.

Lemma StronglySorted_mono {A} (R S : A -> A -> Prop) l :
  (forall a b, R a b -> S a b) -> StronglySorted R l -> StronglySorted S l.
Proof.
  intros HRS. induction 1 as [| x l Hl IH Hx]; constructor; [exact IH |].
  eapply Forall_impl; [exact Hx | auto].
Qed.

Lemma notesToMessages_perm notes :
  _notesToMessages notes ≡ₚ notes ≫= item_messages.
Proof. apply sort_perm. Qed.

Lemma notesToMessages_time_sorted notes :
  StronglySorted (fun a b => time a <= time b) (_notesToMessages notes).
Proof.
  apply sort_sorted.
  - intros a b c. lia.
  - intros y x. unfold export_compare.
    destruct (time y <? time x) eqn:Hlt; [discriminate |]. lia.
  - intros y x. unfold export_compare.
    destruct (time y <? time x) eqn:Hlt; [lia |].
    destruct (time y >? time x) eqn:Hgt; [discriminate |]. lia.
Qed.

Lemma import_sort_id messages :
  StronglySorted (fun a b => time a <= time b) messages ->
  sort (fun a b => 0 <? import_compare a b) messages = messages.
Proof.
  intros Hs. apply sort_id. revert Hs. apply StronglySorted_mono.
  intros a b Hab. unfold import_compare. lia.
Qed.

Lemma elem_of_note_messages m (l : list note) :
  m ∈ (Note <$> l) ≫= item_messages <->
  exists n, n ∈ l /\ (m = noteOn (on_msg n) \/ m = noteOff (off_msg n)).
Proof.
  rewrite list_elem_of_bind. split.
  - intros (i & Hm & Hi). apply list_elem_of_fmap in Hi as (n & -> & Hn).
    exists n. split; [exact Hn |]. simpl in Hm.
    apply elem_of_cons in Hm as [-> | Hm]; [left; reflexivity |].
    apply list_elem_of_singleton in Hm as ->. right; reflexivity.
  - intros (n & Hn & Hm). exists (Note n). split; [| apply list_elem_of_fmap_2, Hn].
    simpl. destruct Hm as [-> | ->]; [left | right; left].
Qed.

Lemma note_messages_NoDup (l : list note) :
  NoDup (note_key <$> l) -> NoDup ((Note <$> l) ≫= item_messages).
Proof.
  induction l as [| a l IH]; [constructor |].
  rewrite fmap_cons, NoDup_cons. intros [Ha Hl].
  change ((Note <$> a :: l) ≫= item_messages)
    with (noteOn (on_msg a) :: noteOff (off_msg a) :: (Note <$> l) ≫= item_messages).
  assert (forall m, (m = noteOn (on_msg a) \/ m = noteOff (off_msg a)) ->
                    m ∉ (Note <$> l) ≫= item_messages) as Hfresh.
  { intros m Hm Hin. apply elem_of_note_messages in Hin as (n & Hn & Hm').
    apply Ha. replace (note_key a) with (note_key n); [apply list_elem_of_fmap_2, Hn |].
    unfold note_key, on_msg, off_msg in *.
    destruct Hm as [-> | ->], Hm' as [Hm' | Hm']; congruence. }
  rewrite !NoDup_cons, elem_of_cons. split; [| split; [| apply IH, Hl]].
  - intros [Heq | Hin]; [discriminate |]. eapply Hfresh; [left; reflexivity | exact Hin].
  - apply Hfresh. right; reflexivity.
Qed.

Section RoundTrip.

Variable ns : list note.

Hypothesis keys_distinct : NoDup (note_key <$> ns).

Hypothesis sounding : Forall (fun n => 0 < duration_ticks n /\ 0 < velocity n) ns.

Lemma note_of_key n n' : n ∈ ns -> n' ∈ ns -> note_key n = note_key n' -> n = n'.
Proof.
  revert keys_distinct. clear sounding.
  induction ns as [| a l IH]; intros Hnd Hn Hn' Hk; [inversion Hn |].
  rewrite fmap_cons in Hnd. apply NoDup_cons in Hnd as [Ha Hnd].
  apply elem_of_cons in Hn as [-> | Hn]; apply elem_of_cons in Hn' as [-> | Hn'].
  - reflexivity.
  - exfalso. apply Ha. rewrite Hk. apply list_elem_of_fmap_2, Hn'.
  - exfalso. apply Ha. rewrite <- Hk. apply list_elem_of_fmap_2, Hn.
  - apply IH; assumption.
Qed.

Lemma find_note n :
  n ∈ ns -> find (fun n' => bool_decide (note_key n' = note_key n)) ns = Some n.
Proof.
  intros Hn. pose proof (fun n' H' => note_of_key n' n H' Hn) as Huniq.
  clear keys_distinct sounding.
  induction ns as [| a l IH]; [inversion Hn |]. simpl.
  case_bool_decide as Hk.
  - f_equal. apply Huniq; [left | exact Hk].
  - apply elem_of_cons in Hn as [-> | Hn]; [contradiction |].
    apply IH; [exact Hn |]. intros n' Hn'. apply Huniq. right. exact Hn'.
Qed.

Lemma closed_off n : n ∈ ns -> closed ns (noteOff (off_msg n)) = Some (Note n).
Proof. intros Hn. simpl. change (key _ _) with (note_key n). rewrite find_note; done. Qed.

Lemma import_fold ms : forall out (openNotes : gmap (Z * Z) noteMsg),
  StronglySorted (fun a b => time a <= time b) ms ->
  NoDup ms ->
  (forall m, m ∈ ms -> exists n, n ∈ ns /\ (m = noteOn (on_msg n) \/ m = noteOff (off_msg n))) ->
  (forall n, n ∈ ns -> noteOff (off_msg n) ∈ ms -> noteOn (on_msg n) ∉ ms ->
             openNotes !! note_key n = Some (on_msg n)) ->
  (fold_left import_message ms (out, openNotes)).1 = out ++ omap (closed ns) ms.
Proof.
  induction ms as [| m ms IH]; intros out openNotes Hsorted Hnd Hfrom Hopen.
  - simpl. rewrite app_nil_r. reflexivity.
  - apply StronglySorted_inv in Hsorted as [Hsorted Hm].
    apply NoDup_cons in Hnd as [Hm_fresh Hnd]. rewrite Forall_forall in Hm.
    destruct (Hfrom m ltac:(left)) as (n0 & Hn0 & [-> | ->]).
    + (* a noteOn with positive velocity opens its key *)
      pose proof sounding as Hv. rewrite Forall_forall in Hv.
      destruct (Hv n0 Hn0) as [_ Hvel].
      cbn [fold_left import_message on_msg m_velocity].
      destruct (Z.ltb_spec 0 (velocity n0)) as [_ | ?]; [| lia].
      cbn [omap list_omap]. rewrite IH; [reflexivity | exact Hsorted | exact Hnd | |].
      * intros m Hin. apply Hfrom. right. exact Hin.
      * intros n Hn Hoff Hon. cbn [fst snd m_pitch m_channel].
        change (key (pitch n0) (channel n0)) with (note_key n0).
        destruct (decide (note_key n0 = note_key n)) as [Hk | Hk].
        -- rewrite (note_of_key n0 n Hn0 Hn Hk), lookup_insert_eq. reflexivity.
        -- rewrite lookup_insert_ne by exact Hk. apply Hopen; [exact Hn | right; exact Hoff |].
           rewrite elem_of_cons. intros [Heq | Hin]; [| contradiction].
           apply Hk. injection Heq. unfold note_key, key. congruence.
    + (* a noteOff finds the noteOn of its own note *)
      pose proof sounding as Hv. rewrite Forall_forall in Hv.
      destruct (Hv n0 Hn0) as [Hdur _].
      assert (noteOn (on_msg n0) ∉ noteOff (off_msg n0) :: ms) as Hon0.
      { rewrite elem_of_cons. intros [Heq | Hin]; [discriminate |].
        apply Hm in Hin. simpl in Hin. lia. }
      pose proof (Hopen n0 Hn0 ltac:(left) Hon0) as Hlook.
      cbn [fold_left import_message]. unfold close_note.
      change (key (m_pitch (off_msg n0)) (m_channel (off_msg n0))) with (note_key n0).
      rewrite Hlook. cbn [omap list_omap]. rewrite (closed_off n0 Hn0).
      replace (mkNote _ _ _ _ _) with n0
        by (destruct n0; cbn; f_equal; lia).
      rewrite IH; [rewrite <- app_assoc; reflexivity | exact Hsorted | exact Hnd | |].
      * intros m Hin. apply Hfrom. right. exact Hin.
      * intros n Hn Hoff Hon.
        assert (note_key n0 <> note_key n) as Hk.
        { intros Hk. apply Hm_fresh. rewrite (note_of_key n0 n Hn0 Hn Hk). exact Hoff. }
        rewrite lookup_delete_ne by exact Hk. apply Hopen; [exact Hn | right; exact Hoff |].
        rewrite elem_of_cons. intros [Heq | Hin]; [discriminate | contradiction].
Qed.

Lemma omap_closed_messages (l : list note) :
  (forall n, n ∈ l -> n ∈ ns) ->
  omap (closed ns) ((Note <$> l) ≫= item_messages) = Note <$> l.
Proof.
  induction l as [| a l IH]; intros Hl; [reflexivity |].
  change ((Note <$> a :: l) ≫= item_messages)
    with (noteOn (on_msg a) :: noteOff (off_msg a) :: (Note <$> l) ≫= item_messages).
  cbn [omap list_omap]. rewrite (closed_off a) by (apply Hl; left).
  change (closed ns (noteOn (on_msg a))) with (@None item). cbn.
  rewrite IH; [reflexivity |]. intros n Hn. apply Hl. right. exact Hn.
Qed.

(** C1, as amended.  A list of notes with pairwise distinct
    (pitch, channel) keys (so that no two notes of one key can overlap),
    positive durations and positive velocities is reproduced by
    [_messagesToNotes] after [_notesToMessages], as a multiset: every
    note comes back once, with its pitch, velocity, channel, start tick
    and duration unchanged. *)
Theorem messages_round_trip :
  _messagesToNotes (_notesToMessages (Note <$> ns)) ≡ₚ Note <$> ns.
Proof.
  unfold _messagesToNotes.
  rewrite import_sort_id by apply notesToMessages_time_sorted.
  rewrite (import_fold _ [] ∅).
  - cbn [app]. rewrite notesToMessages_perm. rewrite omap_closed_messages; done.
  - apply notesToMessages_time_sorted.
  - rewrite notesToMessages_perm. apply note_messages_NoDup, keys_distinct.
  - intros m Hm. apply elem_of_note_messages. rewrite <- notesToMessages_perm. exact Hm.
  - intros n Hn _ Hon. exfalso. apply Hon. rewrite notesToMessages_perm.
    apply elem_of_note_messages. exists n. split; [exact Hn | left; reflexivity].
Qed.

End RoundTrip.

Lemma messages_round_trip_witness :
  _messagesToNotes (_notesToMessages (Note <$> [nB; nC; nA])) ≡ₚ Note <$> [nB; nC; nA].
Proof.
  apply (messages_round_trip [nB; nC; nA]).
  - apply (bool_decide_unpack _). vm_compute. exact I.
  - repeat constructor.
Defined.

(** C1, as stated, fails for a note of velocity 0: its [noteOn] is read
    back as a [noteOff], nothing is opened, and the note is lost. *)
Lemma round_trip_loses_silent_note :
  NoDup (note_key <$> [silent]) /\
  Forall (fun n => 0 < duration_ticks n) [silent] /\
  _messagesToNotes (_notesToMessages (Note <$> [silent])) = [] /\
  ~ (_messagesToNotes (_notesToMessages (Note <$> [silent])) ≡ₚ Note <$> [silent]).
Proof.
  split; [apply NoDup_singleton |]. split; [repeat constructor |].
  assert (_messagesToNotes (_notesToMessages (Note <$> [silent])) = []) as Hrun
    by (vm_compute; reflexivity).
  split; [exact Hrun |]. rewrite Hrun. intros Hperm.
  apply Permutation_nil in Hperm. discriminate.
Qed.

(** For notes alone the comparator is a consistent order, by time and
    then [noteOff] before [noteOn], and the tie-break holds. *)
Lemma notesToMessages_ranked (ns : list note) :
  StronglySorted (fun a b => time a < time b \/ (time a = time b /\ rank a <= rank b))
    (_notesToMessages (Note <$> ns)).
Proof.
  apply (sort_sorted_on _ is_note_message).
  - intros a b c. lia.
  - intros y x Py Px. unfold export_compare.
    destruct (time y <? time x) eqn:Hlt; [discriminate |].
    destruct (time y >? time x) eqn:Hgt; [lia |].
    destruct y, x; cbn in *; try contradiction; try discriminate; lia.
  - intros y x Py Px. unfold export_compare.
    destruct (time y <? time x) eqn:Hlt; [lia |].
    destruct (time y >? time x) eqn:Hgt; [discriminate |].
    destruct y, x; cbn in *; try contradiction; try discriminate; lia.
  - apply Forall_forall. intros m Hm. apply elem_of_note_messages in Hm as (n & _ & [-> | ->]);
      exact I.
Qed.

Lemma export_tie_break_notes (ns : list note) :
  off_before_on (_notesToMessages (Note <$> ns)).
Proof.
  intros i j a b Ha Hb Htime.
  destruct (Nat.lt_trichotomy j i) as [Hlt | [-> | Hgt]]; [exact Hlt | congruence |].
  pose proof (StronglySorted_lookup_lt _ _ (notesToMessages_ranked ns) i j _ _ Hgt Ha Hb) as HR.
  cbn in HR. lia.
Qed.

(** C3 (code defect).  The comparator of the export is not an order
    once an [other] message shares the time of two note messages: it
    puts the [other] message level with the [noteOn] and level with the
    [noteOff], and the [noteOn] after the [noteOff].  With an [other]
    event at tick 24 between them in the array, the [noteOn] of the note
    that starts at 24 is exported before the [noteOff] of the note that
    ends at 24. *)
Theorem export_tie_break_broken :
  (export_compare (noteOn (mkMsg 62 100 24 0)) (other 24 [192; 5]) = 0 /\
   export_compare (other 24 [192; 5]) (noteOff (mkMsg 60 0 24 0)) = 0 /\
   export_compare (noteOn (mkMsg 62 100 24 0)) (noteOff (mkMsg 60 0 24 0)) = 1) /\
  _notesToMessages [Note nB; Other 24 [192; 5]; Note nA] =
    [ noteOn (mkMsg 60 100 0 0); noteOn (mkMsg 62 100 24 0); other 24 [192; 5];
      noteOff (mkMsg 60 0 24 0); noteOff (mkMsg 62 0 48 0) ] /\
  ~ off_before_on (_notesToMessages [Note nB; Other 24 [192; 5]; Note nA]).
Proof.
  split; [repeat split |].
  assert (_notesToMessages [Note nB; Other 24 [192; 5]; Note nA] =
    [ noteOn (mkMsg 60 100 0 0); noteOn (mkMsg 62 100 24 0); other 24 [192; 5];
      noteOff (mkMsg 60 0 24 0); noteOff (mkMsg 62 0 48 0) ]) as Hrun
    by (vm_compute; reflexivity).
  split; [exact Hrun |]. rewrite Hrun. intros Htie.
  specialize (Htie 1%nat 3%nat (mkMsg 62 100 24 0) (mkMsg 60 0 24 0) eq_refl eq_refl eq_refl).
  lia.
Qed.
End CodecProps.

(** ** The piano roll: playback, gestures and undo history *)

Module PianoRollProps.
Import JsArrayProps PianoRoll.
Import JsArray.

Local Open Scope Q_scope.

(** *** Facts about the numbers *)

Lemma Qltb_lt a b : Qltb a b = true <-> a < b.
Proof.
  unfold Qltb. rewrite negb_true_iff, <- not_true_iff_false, Qle_bool_iff.
  split; [apply Qnot_le_lt | apply Qlt_not_le].
Qed.

Lemma Qltb_ge a b : Qltb a b = false <-> b <= a.
Proof. unfold Qltb. rewrite negb_false_iff. apply Qle_bool_iff. Qed.

Lemma Qgtb_gt a b : Qgtb a b = true <-> b < a.
Proof. apply Qltb_lt. Qed.

Lemma Qgtb_le a b : Qgtb a b = false <-> a <= b.
Proof. apply Qltb_ge. Qed.

Lemma Qgeb_ge a b : Qgeb a b = true <-> b <= a.
Proof. apply Qle_bool_iff. Qed.

Lemma fire_out e s :
  out (fire e s) = out s ++ (if muted s e then [] else [emission e]).
Proof.
  unfold fire. destruct (muted s e); [rewrite app_nil_r; reflexivity |].
  destruct e; reflexivity.
Qed.

Lemma fire_frame e s :
  mutedChannels (fire e s) = mutedChannels s /\
  isPlaying (fire e s) = isPlaying s /\
  playheadTick (fire e s) = playheadTick s /\
  songDurationTicks (fire e s) = songDurationTicks s /\
  notes (fire e s) = notes s /\ heap (fire e s) = heap s.
Proof. unfold fire. destruct (muted s e); [| destruct e]; repeat split. Qed.

Lemma update_first_ticks p b l :
  map tick (update_first p (set_playing b) l) = map tick l.
Proof.
  induction l as [| e l IH]; simpl; [reflexivity |].
  destruct (p e); simpl; [destruct e; reflexivity | rewrite IH; reflexivity].
Qed.

Lemma fire_ticks e s : map tick (lookaheadEvents (fire e s)) = map tick (lookaheadEvents s).
Proof.
  unfold fire. destruct (muted s e); [reflexivity |].
  destruct e; cbn; try apply update_first_ticks; reflexivity.
Qed.

Lemma muted_fire e e' s : muted (fire e s) e' = muted s e'.
Proof. unfold muted. destruct (fire_frame e s) as [-> _]. reflexivity. Qed.

Lemma muted_audible s e : negb (muted s e) = audible (mutedChannels s) e.
Proof. destruct e; reflexivity. Qed.

Lemma fire_due_fold from to l : forall s,
  let s' := fold_left (fun s e => if due from to e then fire e s else s) l s in
  out s' = out s ++ map emission (List.filter (fun e => due from to e && negb (muted s e)) l) /\
  mutedChannels s' = mutedChannels s /\
  isPlaying s' = isPlaying s /\
  playheadTick s' = playheadTick s /\
  songDurationTicks s' = songDurationTicks s /\
  notes s' = notes s /\ heap s' = heap s /\
  map tick (lookaheadEvents s') = map tick (lookaheadEvents s).
Proof.
  induction l as [| e l IH]; intros s; cbn zeta.
  - simpl. rewrite app_nil_r. repeat split.
  - cbn [fold_left List.filter].
    destruct (due from to e).
    + specialize (IH (fire e s)). cbn zeta in IH.
      destruct IH as (Hout & Hm & Hp & Ht & Hd & Hn & Hh & Hl).
      destruct (fire_frame e s) as (Hm' & Hp' & Ht' & Hd' & Hn' & Hh').
      rewrite Hout, Hm, Hp, Ht, Hd, Hn, Hh, Hl, fire_out, fire_ticks.
      repeat split; try assumption.
      rewrite <- app_assoc. f_equal.
      assert (forall e', muted (fire e s) e' = muted s e') as Hmu by (intros; apply muted_fire).
      erewrite (filter_ext (fun e0 => due from to e0 && negb (muted (fire e s) e0)));
        [| intros e'; rewrite Hmu; reflexivity].
      destruct (muted s e); reflexivity.
    + apply IH.
Qed.

Lemma ticks_sorted_filter p l : ticks_sorted l -> ticks_sorted (List.filter p l).
Proof.
  unfold ticks_sorted. induction 1 as [| e l Hl IH He]; simpl; [constructor |].
  destruct (p e); [| exact IH]. constructor; [exact IH |].
  rewrite Forall_forall in *. intros e' He'. apply He.
  apply list_elem_of_In. apply list_elem_of_In, filter_In in He' as [He' _]. exact He'.
Qed.

Lemma buildLookaheadEvents_sorted s : ticks_sorted (lookaheadEvents (_buildLookaheadEvents s)).
Proof.
  unfold _buildLookaheadEvents, ticks_sorted. cbn. apply sort_sorted.
  - intros a b c. apply Qle_trans.
  - intros y x Hgt. apply Qgtb_gt in Hgt. apply Qlt_le_weak.
    apply (Qplus_lt_l _ _ (- tick x)). rewrite Qplus_opp_r. exact Hgt.
  - intros y x Hle. apply Qgtb_le in Hle.
    apply (Qplus_le_l _ _ (- tick x)). rewrite Qplus_opp_r. exact Hle.
Qed.

Lemma pause_fold l : forall s,
  let s' := fold_left (fun s e => match e with
                                   | evNoteOn _ p _ c true => emit (StopNote p c) s
                                   | _ => s
                                   end) l s in
  out s' = out s ++ omap still_flagged l /\
  isPlaying s' = isPlaying s /\ playheadTick s' = playheadTick s /\
  lookaheadEvents s' = lookaheadEvents s /\
  undoHistory s' = undoHistory s /\ redoHistory s' = redoHistory s.
Proof.
  induction l as [| e l IH]; intros s; cbn zeta.
  - simpl. rewrite app_nil_r. repeat split.
  - cbn [fold_left omap list_omap].
    destruct e as [t p v c [|] | |]; cbn [still_flagged]; try apply IH.
    specialize (IH (emit (StopNote p c) s)). cbn zeta in IH.
    destruct IH as (-> & -> & -> & -> & -> & ->). cbn. rewrite <- app_assoc.
    repeat split.
Qed.

Lemma pause_spec s :
  out (pause s) = out s ++ omap still_flagged (lookaheadEvents s) /\
  isPlaying (pause s) = false /\ playheadTick (pause s) = playheadTick s /\
  lookaheadEvents (pause s) = lookaheadEvents s.
Proof.
  unfold pause.
  destruct (pause_fold (lookaheadEvents (set_isPlaying false s)) (set_isPlaying false s))
    as (Hout & Hp & Ht & Hl & _).
  cbn zeta in *. rewrite Hout, Hp, Ht, Hl. repeat split.
Qed.

Lemma stop_spec s :
  out (stop s) = out s ++ omap still_flagged (lookaheadEvents s) /\
  isPlaying (stop s) = false /\ playheadTick (stop s) = 0.
Proof.
  destruct (pause_spec s) as (Hout & Hp & _). unfold stop.
  split; [exact Hout | split; [exact Hp | reflexivity]].
Qed.

Lemma still_flagged_StopNote l :
  Forall (fun o => exists p c, o = StopNote p c) (omap still_flagged l).
Proof.
  apply Forall_forall. intros o Ho. apply list_elem_of_omap in Ho as (e & _ & He).
  destruct e as [t p v c [|] | |]; try discriminate. injection He as <-. eauto.
Qed.

(** C4, as amended.  In a frame of a playing roll, the events handed to
    the sink are exactly the lookahead events whose tick lies in
    [[playheadTick, playheadTick + elapsedTicks)], except the note-on
    and note-off events of a channel in [mutedChannels]: for a muted
    channel the frame calls neither [onPlayNote] nor [onStopNote], and
    the message of an other-event is always sent.  The events are fired
    in the order of the (tick-sorted) lookahead list, hence in
    non-decreasing tick order; the playhead then advances by
    [elapsedTicks]; and when the new playhead exceeds
    [songDurationTicks] playback stops with the playhead back at 0,
    after a note-off for every note still flagged as sounding. *)
Theorem playback_frame (timestamp : Q) (s : state) :
  isPlaying s = true ->
  ticks_sorted (lookaheadEvents s) ->
  let from := playheadTick s in
  let to := playheadTick s + elapsedTicks timestamp s in
  let fired :=
    List.filter (fun e => due from to e && audible (mutedChannels s) e) (lookaheadEvents s) in
  let s' := _playbackLoop timestamp s in
  (forall e, e ∈ fired <->
             e ∈ lookaheadEvents s /\ (from <= tick e /\ tick e < to) /\
             match e with
             | evNoteOn _ _ _ c _ | evNoteOff _ _ c => c ∉ mutedChannels s
             | evOther _ _ => True
             end) /\
  (forall p v c, c ∈ mutedChannels s ->
     (PlayNote p v c ∉ map emission fired) /\ (StopNote p c ∉ map emission fired)) /\
  (forall t bytes, evOther t bytes ∈ lookaheadEvents s -> from <= t -> t < to ->
     MidiMessage bytes ∈ map emission fired) /\
  ticks_sorted fired /\
  (exists released,
      out s' = out s ++ map emission fired ++ released /\
      Forall (fun o => exists p c, o = StopNote p c) released /\
      (to <= songDurationTicks s -> released = [])) /\
  (to <= songDurationTicks s -> playheadTick s' = to /\ isPlaying s' = true) /\
  (songDurationTicks s < to -> playheadTick s' = 0 /\ isPlaying s' = false).
Proof.
  intros Hplaying Hsorted from to fired s'.
  assert (forall e, e ∈ fired <->
             e ∈ lookaheadEvents s /\ (from <= tick e /\ tick e < to) /\
             match e with
             | evNoteOn _ _ _ c _ | evNoteOff _ _ c => c ∉ mutedChannels s
             | evOther _ _ => True
             end) as Hfired.
  { intros e. unfold fired. rewrite !list_elem_of_In, filter_In.
    unfold due. rewrite !andb_true_iff, Qgeb_ge, Qltb_lt.
    destruct e as [t p v c b | t p c | t bytes]; cbn [audible];
      rewrite ?negb_true_iff, ?bool_decide_eq_false; tauto. }
  split; [exact Hfired |].
  split.
  { intros p v c Hc. split; intros Hin; apply list_elem_of_fmap in Hin as (e & He & Hin);
      apply Hfired in Hin as (_ & _ & Hm);
      destruct e as [t p' v' c' b | t p' c' | t bytes]; try discriminate;
      injection He as -> ->; subst; contradiction. }
  split.
  { intros t bytes Hin Hfrom Hto. apply list_elem_of_fmap. exists (evOther t bytes).
    split; [reflexivity |]. apply Hfired. repeat split; assumption. }
  split; [apply ticks_sorted_filter, Hsorted |].
  destruct (fire_due_fold from to (lookaheadEvents s) (set_lastFrameTime timestamp s))
    as (Hout & _ & Hp & _ & Hd & _).
  cbn zeta in Hout, Hp, Hd.
  change (muted (set_lastFrameTime timestamp s)) with (muted s) in Hout.
  change (out (set_lastFrameTime timestamp s)) with (out s) in Hout.
  change (isPlaying (set_lastFrameTime timestamp s)) with (isPlaying s) in Hp.
  change (songDurationTicks (set_lastFrameTime timestamp s)) with (songDurationTicks s) in Hd.
  rewrite (filter_ext _ (fun e => due from to e && audible (mutedChannels s) e)) in Hout
    by (intros e; rewrite muted_audible; reflexivity).
  fold fired in Hout.
  subst s'. unfold _playbackLoop. rewrite Hplaying. cbn [negb]. cbn zeta.
  change (playheadTick (set_lastFrameTime timestamp s)) with (playheadTick s).
  fold to. unfold fire_due.
  change (lookaheadEvents (set_lastFrameTime timestamp s)) with (lookaheadEvents s).
  set (s1 := fold_left _ (lookaheadEvents s) (set_lastFrameTime timestamp s)) in *.
  change (playheadTick (set_playheadTick to s1)) with to.
  change (songDurationTicks (set_playheadTick to s1)) with (songDurationTicks s1).
  rewrite Hd.
  destruct (Qgtb to (songDurationTicks s)) eqn:Hend.
  - apply Qgtb_gt in Hend.
    destruct (stop_spec (set_playheadTick to s1)) as (Hout' & Hp' & Ht').
    split; [| split].
    + exists (omap still_flagged (lookaheadEvents (set_playheadTick to s1))).
      split; [| split].
      * rewrite Hout'. change (out (set_playheadTick to s1)) with (out s1).
        rewrite Hout, <- app_assoc. reflexivity.
      * apply still_flagged_StopNote.
      * intros Hle. exfalso. exact (Qlt_not_le _ _ Hend Hle).
    + intros Hle. exfalso. exact (Qlt_not_le _ _ Hend Hle).
    + intros _. split; assumption.
  - apply Qgtb_le in Hend. split; [| split].
    + exists []. rewrite app_nil_r. repeat split; [exact Hout | constructor].
    + intros _. split; [reflexivity |]. cbn. rewrite Hp. exact Hplaying.
    + intros Hlt. exfalso. exact (Qlt_not_le _ _ Hlt Hend).
Qed.

Lemma ticks_sorted_map l : ticks_sorted l <-> StronglySorted Qle (map tick l).
Proof.
  unfold ticks_sorted. induction l as [| e l IH]; cbn.
  - split; constructor.
  - rewrite !StronglySorted_cons, IH, Forall_map. reflexivity.
Qed.

(** The lookahead list is sorted when it is built, and a frame changes
    nothing but [isPlaying] flags in it. *)
Lemma playbackLoop_keeps_sorted timestamp s :
  ticks_sorted (lookaheadEvents s) ->
  ticks_sorted (lookaheadEvents (_playbackLoop timestamp s)).
Proof.
  intros Hs. unfold _playbackLoop. destruct (negb (isPlaying s)); [exact Hs |]. cbn zeta.
  destruct (fire_due_fold (playheadTick (set_lastFrameTime timestamp s))
              (playheadTick (set_lastFrameTime timestamp s) + elapsedTicks timestamp s)
              (lookaheadEvents (set_lastFrameTime timestamp s))
              (set_lastFrameTime timestamp s)) as (_ & _ & _ & _ & _ & _ & _ & Hl).
  cbn zeta in Hl. fold (fire_due (playheadTick (set_lastFrameTime timestamp s))
              (playheadTick (set_lastFrameTime timestamp s) + elapsedTicks timestamp s)
              (set_lastFrameTime timestamp s)) in Hl.
  set (s1 := fire_due _ _ _) in *.
  assert (ticks_sorted (lookaheadEvents s1)) as Hs1
    by (apply ticks_sorted_map; rewrite Hl; apply ticks_sorted_map; exact Hs).
  destruct (Qgtb _ _); [| exact Hs1].
  unfold stop. destruct (pause_spec (set_playheadTick
    (playheadTick (set_lastFrameTime timestamp s) + elapsedTicks timestamp s) s1))
    as (_ & _ & _ & Hl').
  change (lookaheadEvents (set_playheadTick 0 ?x)) with (lookaheadEvents x).
  rewrite Hl'. exact Hs1.
Qed.

Lemma playback_frame_witness :
  playheadTick (_playbackLoop 250 (play 0 demo)) =
    playheadTick (play 0 demo) + elapsedTicks 250 (play 0 demo) /\
  isPlaying (_playbackLoop 250 (play 0 demo)) = true.
Proof.
  apply (playback_frame 250 (play 0 demo)).
  - reflexivity.
  - apply buildLookaheadEvents_sorted.
  - vm_compute. discriminate.
Defined.

(** C5 (code defect).  [stop] hands the sink a note-off for each
    lookahead event still flagged [isPlaying] and nothing else: no
    "all sound off" on any channel.  When the lookahead list has been
    rebuilt during playback the flags are gone, and a sounding note is
    left on: here the note started in the first frame gets no note-off. *)
Theorem stop_leaves_note_sounding :
  (forall s, out (stop s) = out s ++ omap still_flagged (lookaheadEvents s)) /\
  (forall s ch, all_sound_off ch ∉ omap still_flagged (lookaheadEvents s)) /\
  let playing := _playbackLoop 100 (play 0 demo) in
  let rebuilt := _setTrackParameter 200 1 volume 90 playing in
  out playing = [PlayNote 60 100 0] /\
  out (stop rebuilt) = [PlayNote 60 100 0; MidiMessage [176; 7; 90]%Z] /\
  isPlaying (stop rebuilt) = false.
Proof.
  split; [intros s; apply stop_spec |]. split.
  - intros s ch Hin.
    pose proof (still_flagged_StopNote (lookaheadEvents s)) as Hall.
    rewrite Forall_forall in Hall. destruct (Hall _ Hin) as (p & c & Heq). discriminate.
  - vm_compute. repeat split.
Qed.

Lemma lastTick_fold l : forall acc,
  let lastTick :=
    fold_left (fun lastTick n =>
                 match n with
                 | Note n =>
                     let endTick := start_tick n + duration_ticks n in
                     if Qgtb endTick lastTick then endTick else lastTick
                 | Other _ => lastTick
                 end) l acc in
  acc <= lastTick /\
  forall n, Note n ∈ l -> start_tick n + duration_ticks n <= lastTick.
Proof.
  induction l as [| i l IH]; intros acc; cbn zeta.
  - split; [apply Qle_refl | intros n Hn; inversion Hn].
  - cbn [fold_left]. destruct i as [n0 | o].
    + destruct (Qgtb (start_tick n0 + duration_ticks n0) acc) eqn:Hgt.
      * apply Qgtb_gt in Hgt. destruct (IH (start_tick n0 + duration_ticks n0)) as [Hacc Hall].
        split; [eapply Qle_trans; [apply Qlt_le_weak, Hgt | exact Hacc] |].
        intros n Hn. apply elem_of_cons in Hn as [[= ->] | Hn]; [exact Hacc | apply Hall, Hn].
      * apply Qgtb_le in Hgt. destruct (IH acc) as [Hacc Hall].
        split; [exact Hacc |].
        intros n Hn. apply elem_of_cons in Hn as [[= ->] | Hn]; [| apply Hall, Hn].
        eapply Qle_trans; [exact Hgt | exact Hacc].
    + destruct (IH acc) as [Hacc Hall]. split; [exact Hacc |].
      intros n Hn. apply elem_of_cons in Hn as [Hn | Hn]; [discriminate | apply Hall, Hn].
Qed.

Lemma recalculate_covers_notes s : covers_notes (_recalculateSongDuration s).
Proof.
  intros l n Hl Hn. unfold _recalculateSongDuration in *. cbn in Hl, Hn |- *.
  apply lastTick_fold. apply list_elem_of_omap. exists l. split; assumption.
Qed.

Lemma onInteractionEnd_recalculates v s :
  isDragging s || isResizing s || wasAddingNote s = true ->
  notes (_onInteractionEnd v s) = notes s /\
  heap (_onInteractionEnd v s) = heap s /\
  songDurationTicks (_onInteractionEnd v s) = songDurationTicks (_recalculateSongDuration s).
Proof.
  destruct s. unfold _onInteractionEnd. cbn.
  destruct potentialDeselect0, isDragging0, isResizing0, wasAddingNote0,
    isMarqueeSelecting0, isPanning0; cbn; intros H; try discriminate H; repeat split.
Qed.

(** C6, as stated, fails: an other-event inserted at tick 192 by
    [_setTrackParameter] lies past [songDurationTicks = 96], which is not
    recomputed, and recomputing it would not count the event either. *)
Lemma other_event_past_song_duration :
  items with_program =
    [ Note (mkNote 60 100 0 (inject_Z 0) (inject_Z 96) None);
      Other (mkOther (playheadTick scrubbed) [192; 5]%Z (Some programChange) (Some 0%Z)) ] /\
  playheadTick scrubbed == 192 /\
  songDurationTicks with_program == 96 /\
  ~ covers_events with_program /\
  ~ covers_events (_recalculateSongDuration with_program).
Proof.
  split; [vm_compute; reflexivity |]. split; [vm_compute; reflexivity |].
  split; [vm_compute; reflexivity |].
  assert (forall s, notes s = notes with_program -> heap s = heap with_program ->
                    songDurationTicks s == 96 -> ~ covers_events s) as Hno.
  { intros s Hn Hh Hd Hcov.
    specialize (Hcov 2%positive
                  (Other (mkOther (playheadTick scrubbed) [192; 5]%Z (Some programChange)
                            (Some 0%Z)))).
    rewrite Hn, Hh, Hd in Hcov.
    apply Qle_bool_iff in Hcov; [vm_compute in Hcov; discriminate | |].
    - apply (bool_decide_unpack _). vm_compute. exact I.
    - vm_compute. reflexivity. }
  split; apply Hno; try reflexivity; vm_compute; reflexivity.
Qed.

(** C6, as amended.  [_recalculateSongDuration] makes [songDurationTicks]
    at least the end tick of every note of the collection, and it runs
    at the release of an add, drag or resize gesture, after a confirmed
    delete, after undo and redo, and on load. *)
Theorem song_duration_covers_notes :
  (forall s, covers_notes (_recalculateSongDuration s)) /\
  (forall v s, isDragging s || isResizing s || wasAddingNote s = true ->
               covers_notes (_onInteractionEnd v s)) /\
  (forall s, selectedNotes s <> [] -> covers_notes (_deleteNotes true s)) /\
  (forall s, undoHistory s <> [] -> covers_notes (undo s)) /\
  (forall s, redoHistory s <> [] -> covers_notes (redo s)) /\
  (forall messages ppqn s, covers_notes (loadFromJson messages ppqn s)).
Proof.
  split; [exact recalculate_covers_notes |]. split; [| split; [| split; [| split]]].
  - intros v s Hflags l n. destruct (onInteractionEnd_recalculates v s Hflags) as (-> & -> & Hd).
    intros Hl Hn. rewrite Hd. exact (recalculate_covers_notes s l n Hl Hn).
  - intros s Hsel. unfold _deleteNotes. destruct (selectedNotes s); [contradiction |].
    apply recalculate_covers_notes.
  - intros s Hne. unfold undo. destruct (rev (undoHistory s)) eqn:Hrev.
    + apply (f_equal (@rev _)) in Hrev. rewrite rev_involutive in Hrev. contradiction.
    + apply recalculate_covers_notes.
  - intros s Hne. unfold redo. destruct (rev (redoHistory s)) eqn:Hrev.
    + apply (f_equal (@rev _)) in Hrev. rewrite rev_involutive in Hrev. contradiction.
    + apply recalculate_covers_notes.
  - intros messages ppqn s. apply recalculate_covers_notes.
Qed.

Lemma saveStateForUndo_spec s :
  redoHistory (_saveStateForUndo s) = [] /\
  undoHistory (_saveStateForUndo s) =
    (let pushed := undoHistory s ++ [snapshot s] in
     if (MAX_HISTORY <? length pushed)%nat then tail pushed else pushed).
Proof.
  unfold _saveStateForUndo. cbn zeta.
  change (undoHistory (set_undoHistory ?u _)) with u.
  change (undoHistory (set_redoHistory [] s)) with (undoHistory s).
  change (snapshot (set_redoHistory [] s)) with (snapshot s).
  destruct (MAX_HISTORY <? length (undoHistory s ++ [snapshot s]))%nat; split; reflexivity.
Qed.

Lemma tail_length {A} (l : list A) : length (tail l) = Nat.pred (length l).
Proof. destruct l; reflexivity. Qed.

Lemma saveStateForUndo_bounded s :
  (length (undoHistory s) <= MAX_HISTORY)%nat -> history_bounded (_saveStateForUndo s).
Proof.
  intros Hlen. unfold history_bounded.
  destruct (saveStateForUndo_spec s) as [-> ->]. cbn zeta.
  destruct (Nat.ltb_spec MAX_HISTORY (length (undoHistory s ++ [snapshot s]))) as [Hgt | Hle].
  - rewrite tail_length, length_app. cbn [length]. lia.
  - cbn [length]. lia.
Qed.

Lemma alloc_fold_history its : forall ls s,
  same_history s
    (fold_left (fun '(ls, s) it => let '(l, s') := alloc it s in (ls ++ [l], s')) its (ls, s)).2.
Proof.
  induction its as [| it its IH]; intros ls s; [split; reflexivity |].
  cbn [fold_left]. unfold alloc at 2.
  destruct (IH (ls ++ [nextLoc s])
              (set_nextLoc (Pos.succ (nextLoc s)) (set_heap (<[nextLoc s := it]> (heap s)) s)))
    as [Hu Hr].
  split; [rewrite Hu | rewrite Hr]; reflexivity.
Qed.

Lemma adopt_history its s : same_history s (adopt its s).
Proof.
  unfold adopt. pose proof (alloc_fold_history its [] s) as H.
  destruct (fold_left _ its ([], s)) as [ls s']. exact H.
Qed.

Lemma undo_bounded s : history_bounded s -> history_bounded (undo s).
Proof.
  unfold history_bounded, undo. intros Hb.
  destruct (rev (undoHistory s)) as [| popped rest] eqn:Hrev; [exact Hb |].
  apply (f_equal (@rev _)) in Hrev. rewrite rev_involutive in Hrev. cbn [rev] in Hrev.
  cbn -[adopt MAX_HISTORY].
  destruct (adopt_history popped
              (set_undoHistory (rev rest) (set_redoHistory (redoHistory s ++ [snapshot s]) s)))
    as [-> ->].
  cbn -[MAX_HISTORY]. rewrite Hrev in Hb. rewrite !length_app in *. cbn [length] in *. lia.
Qed.

Lemma redo_bounded s : history_bounded s -> history_bounded (redo s).
Proof.
  unfold history_bounded, redo. intros Hb.
  destruct (rev (redoHistory s)) as [| popped rest] eqn:Hrev; [exact Hb |].
  apply (f_equal (@rev _)) in Hrev. rewrite rev_involutive in Hrev. cbn [rev] in Hrev.
  cbn -[adopt MAX_HISTORY].
  destruct (adopt_history popped
              (set_redoHistory (rev rest) (set_undoHistory (undoHistory s ++ [snapshot s]) s)))
    as [-> ->].
  cbn -[MAX_HISTORY]. rewrite Hrev in Hb. rewrite !length_app in *. cbn [length] in *. lia.
Qed.

Lemma step_bounded s s' : step s s' -> history_bounded s -> history_bounded s'.
Proof.
  unfold history_bounded.
  intros [? ? [-> ->] | ? ? [-> ->] | ? ? [-> ->] | ? ? -> -> | ? ? [-> ->]] Hb.
  - apply saveStateForUndo_bounded. lia.
  - apply undo_bounded, Hb.
  - apply redo_bounded, Hb.
  - cbn. lia.
  - exact Hb.
Qed.

Lemma reachable_bounded s : rtc step initial s -> history_bounded s.
Proof.
  revert s. apply rtc_ind_r.
  - unfold history_bounded. cbn. lia.
  - intros a b _ Hstep IH. eapply step_bounded; [exact Hstep | exact IH].
Qed.

(** *** Writes to the selected objects *)

Section AlterFold.

Variable g : item -> item.

Hypothesis g_idem : forall x, g (g x) = g x.

Lemma fold_alter_lookup ls : forall (h : gmap loc item) k,
  fold_left (fun h l => alter g l h) ls h !! k =
  if bool_decide (k ∈ ls) then g <$> h !! k else h !! k.
Proof.
  induction ls as [| l ls IH]; intros h k; cbn [fold_left]; [reflexivity |].
  rewrite IH, lookup_alter.
  destruct (decide (l = k)) as [-> | Hne].
  - rewrite (bool_decide_eq_true_2 (k ∈ k :: ls)) by left.
    case_bool_decide; [| reflexivity].
    destruct (h !! k); cbn; [rewrite g_idem |]; reflexivity.
  - case_bool_decide as Hin.
    + rewrite bool_decide_eq_true_2 by (right; exact Hin). reflexivity.
    + rewrite bool_decide_eq_false_2; [reflexivity |].
      rewrite elem_of_cons. intros [-> | ?]; contradiction.
Qed.

Lemma fold_set_heap_alter (step : state -> loc -> state) :
  (forall s l, step s l = set_heap (alter g l (heap s)) s) ->
  forall ls s,
    fold_left step ls s = set_heap (fold_left (fun h l => alter g l h) ls (heap s)) s.
Proof.
  intros Hstep. induction ls as [| l ls IH]; intros s; cbn [fold_left].
  - destruct s; reflexivity.
  - rewrite IH, Hstep. reflexivity.
Qed.

End AlterFold.

Lemma insert_as_alter (g : item -> item) (h : gmap loc item) l x :
  h !! l = Some x -> <[l := g x]> h = alter g l h.
Proof.
  intros Hl. apply map_eq. intros k. rewrite lookup_alter, lookup_insert.
  destruct (decide (l = k)) as [<- | _]; [rewrite Hl |]; reflexivity.
Qed.

Lemma alter_unchanged (g : item -> item) (h : gmap loc item) l :
  (forall x, h !! l = Some x -> g x = x) -> alter g l h = h.
Proof.
  intros Hg. apply map_eq. intros k. rewrite lookup_alter.
  destruct (decide (l = k)) as [<- | _]; [| reflexivity].
  destruct (h !! l) eqn:Hl; cbn; [rewrite Hg by reflexivity |]; reflexivity.
Qed.

Lemma store_originalDuration_alter s l :
  store_originalDuration s l = set_heap (alter with_original l (heap s)) s.
Proof.
  unfold store_originalDuration. destruct (heap s !! l) as [[n | o] |] eqn:Hl.
  - rewrite <- (insert_as_alter with_original _ _ _ Hl). reflexivity.
  - rewrite alter_unchanged; [destruct s; reflexivity |].
    intros x. rewrite Hl. intros [= <-]. reflexivity.
  - rewrite alter_unchanged; [destruct s; reflexivity |].
    intros x. rewrite Hl. discriminate.
Qed.

Lemma resize_one_alter deltaTicks s l :
  (forall n, heap s !! l = Some (Note n) -> is_Some (originalDuration n)) ->
  resize_one deltaTicks s l =
  Some (set_heap (alter (resized (ppqn s / 16) deltaTicks) l (heap s)) s).
Proof.
  intros Hrec. unfold resize_one. destruct (heap s !! l) as [[n | o] |] eqn:Hl.
  - destruct (Hrec n eq_refl) as [original Ho]. rewrite Ho. f_equal.
    rewrite <- (insert_as_alter (resized (ppqn s / 16) deltaTicks) _ _ _ Hl).
    cbn. rewrite Ho. reflexivity.
  - rewrite alter_unchanged; [destruct s; reflexivity |].
    intros x. rewrite Hl. intros [= <-]. reflexivity.
  - rewrite alter_unchanged; [destruct s; reflexivity |].
    intros x. rewrite Hl. discriminate.
Qed.

Lemma resized_idem floor deltaTicks x :
  resized floor deltaTicks (resized floor deltaTicks x) = resized floor deltaTicks x.
Proof.
  destruct x as [n | o]; [| reflexivity]. cbn.
  destruct (originalDuration n) eqn:Ho; cbn; rewrite ?Ho; reflexivity.
Qed.

Lemma with_original_idem x : with_original (with_original x) = with_original x.
Proof. destruct x; reflexivity. Qed.

Lemma resize_fold deltaTicks ls : forall s,
  (forall l n, l ∈ ls -> heap s !! l = Some (Note n) -> is_Some (originalDuration n)) ->
  fold_left (fun acc l => acc ≫= fun s => resize_one deltaTicks s l) ls (Some s) =
  Some (set_heap (fold_left (fun h l => alter (resized (ppqn s / 16) deltaTicks) l h)
                    ls (heap s)) s).
Proof.
  induction ls as [| l ls IH]; intros s Hrec; cbn [fold_left].
  - destruct s; reflexivity.
  - cbn [mbind option_bind].
    rewrite resize_one_alter by (intros n; apply Hrec; left).
    rewrite IH; [reflexivity |].
    intros l' n Hl'. cbn. rewrite lookup_alter.
    destruct (decide (l = l')) as [<- | _]; [| apply Hrec; right; exact Hl'].
    destruct (heap s !! l) as [[n0 | o] |] eqn:Hl; cbn; try discriminate.
    destruct (Hrec l n0 ltac:(left) Hl) as [original Ho]. rewrite Ho.
    intros [= <-]. cbn. eauto.
Qed.

Lemma handleResizeMouseDown_spec v note pos s :
  let s1 := _handleResizeMouseDown v note pos s in
  selectedNotes s1 =
    (if bool_decide (note ∈ selectedNotes s) then selectedNotes s else [note]) /\
  ppqn s1 = ppqn s /\ isResizing s1 = true /\
  same_history (_saveStateForUndo s) s1 /\
  forall k, heap s1 !! k =
            if bool_decide (k ∈ selectedNotes s1) then with_original <$> heap s !! k
            else heap s !! k.
Proof.
  cbn zeta. unfold _handleResizeMouseDown. cbn zeta.
  rewrite (fold_set_heap_alter with_original store_originalDuration
             store_originalDuration_alter).
  set (s0 := _saveStateForUndo s).
  assert (selectedNotes s0 = selectedNotes s /\ ppqn s0 = ppqn s /\ heap s0 = heap s)
    as (Hsel & Hppqn & Hheap).
  { unfold s0, _saveStateForUndo. cbn zeta.
    destruct (MAX_HISTORY <? _)%nat; repeat split. }
  change (selectedNotes (set_isResizing true s0)) with (selectedNotes s0).
  rewrite Hsel.
  destruct (bool_decide (note ∈ selectedNotes s)); cbn -[s0];
    rewrite ?Hsel, ?Hppqn, ?Hheap; (repeat split); intros k.
  - exact (fold_alter_lookup with_original with_original_idem (selectedNotes s) (heap s) k).
  - exact (fold_alter_lookup with_original with_original_idem [note] (heap s) k).
Qed.

Lemma handleNoteResize_spec v pos s :
  originals_recorded s ->
  let deltaTicks := _pixelToTick s (_getGridPos v pos).1 - resizeStartTicks s in
  exists s', _handleNoteResize v pos s = Some s' /\
    selectedNotes s' = selectedNotes s /\ ppqn s' = ppqn s /\
    resizeStartTicks s' = resizeStartTicks s /\ same_history s s' /\
    forall k, heap s' !! k =
              if bool_decide (k ∈ selectedNotes s)
              then resized (ppqn s / 16) deltaTicks <$> heap s !! k
              else heap s !! k.
Proof.
  intros Hrec. cbn zeta. unfold _handleNoteResize. cbn zeta.
  rewrite resize_fold by exact Hrec.
  eexists. split; [reflexivity |]. repeat split.
  intros k. cbn. apply fold_alter_lookup, resized_idem.
Qed.

Lemma item_resized_refl x : item_resized x x.
Proof. destruct x; cbn; [repeat split | reflexivity]. Qed.

Lemma item_resized_step floor deltaTicks x y :
  item_resized x y -> item_resized x (resized floor deltaTicks y).
Proof.
  destruct x as [n | o], y as [n' | o']; cbn; try tauto.
  destruct (originalDuration n') eqn:Ho; cbn; [| tauto].
  unfold same_note_resized. cbn. rewrite Ho. tauto.
Qed.

Lemma in_gesture_refl s : in_gesture s s.
Proof.
  repeat split. intros k. destruct (heap s !! k); constructor. apply item_resized_refl.
Qed.

Lemma in_gesture_recorded s1 s :
  originals_recorded s1 -> in_gesture s1 s -> originals_recorded s.
Proof.
  intros Hrec (Hsel & _ & _ & Hheap) l n Hl Hn. rewrite Hsel in Hl.
  specialize (Hheap l). rewrite Hn in Hheap.
  inversion Hheap as [x y Hxy Hx Hy |]; subst.
  destruct x as [n1 | o]; cbn in Hxy; [| contradiction].
  destruct Hxy as (_ & _ & _ & _ & ->). eapply Hrec; [exact Hl | symmetry; eassumption].
Qed.

Lemma handleNoteResize_in_gesture v pos s1 s :
  originals_recorded s1 -> in_gesture s1 s ->
  exists s', _handleNoteResize v pos s = Some s' /\ in_gesture s1 s' /\
    forall k, heap s' !! k =
              if bool_decide (k ∈ selectedNotes s1)
              then resized (ppqn s1 / 16)
                     (_pixelToTick s1 (_getGridPos v pos).1 - resizeStartTicks s1)
                   <$> heap s !! k
              else heap s !! k.
Proof.
  intros Hrec Hg.
  destruct (handleNoteResize_spec v pos s (in_gesture_recorded s1 s Hrec Hg))
    as (s' & Hrun & Hsel & Hppqn & Hstart & _ & Hheap).
  destruct Hg as (Hsel1 & Hppqn1 & Hstart1 & Hheap1).
  assert (_pixelToTick s (_getGridPos v pos).1 = _pixelToTick s1 (_getGridPos v pos).1) as Htick
    by (unfold _pixelToTick; rewrite Hppqn1; reflexivity).
  rewrite Hsel1, Hppqn1, Hstart1, Htick in Hheap.
  exists s'. split; [exact Hrun |]. split; [| exact Hheap].
  split; [congruence |]. split; [congruence |]. split; [congruence |].
  intros k. rewrite Hheap. specialize (Hheap1 k).
  case_bool_decide; [| exact Hheap1].
  inversion Hheap1; cbn; constructor. apply item_resized_step. assumption.
Qed.

Lemma resize_moves_in_gesture moves : forall s1 s,
  originals_recorded s1 -> in_gesture s1 s ->
  exists s', resize_moves moves s = Some s' /\ in_gesture s1 s'.
Proof.
  unfold resize_moves.
  induction moves as [| [v pos] moves IH]; intros s1 s Hrec Hg; cbn [fold_left].
  - eauto.
  - destruct (handleNoteResize_in_gesture v pos s1 s Hrec Hg) as (s' & Hrun & Hg' & _).
    cbn [mbind option_bind fst snd]. rewrite Hrun. apply IH; assumption.
Qed.

Lemma handleResizeMouseDown_recorded v note pos s :
  originals_recorded (_handleResizeMouseDown v note pos s).
Proof.
  destruct (handleResizeMouseDown_spec v note pos s) as (_ & _ & _ & _ & Hheap).
  cbn zeta in Hheap. intros l n Hl. rewrite Hheap, bool_decide_eq_true_2 by exact Hl.
  destruct (heap s !! l) as [[n0 | o] |]; cbn; intros [= <-]. cbn. eauto.
Qed.

(** C8.  In a resize gesture (pointer-down on the trailing edge, then
    any number of pointer-moves), the last move leaves every selected
    note with [duration_ticks = max(ppqn/16, originalDuration +
    (currentTick - anchorTick))], where [originalDuration] is the
    duration the note had when the gesture began; so no resized note is
    shorter than [ppqn/16].  The moves all succeed, and nothing else of
    the note changes. *)
Theorem resize_duration_floor (v0 : view) (note : loc) (pos0 : Q * Q) (s : state)
    (moves : list (view * (Q * Q))) (v : view) (pos : Q * Q) :
  let s1 := _handleResizeMouseDown v0 note pos0 s in
  let anchorTick := _pixelToTick s (_getGridPos v0 pos0).1 in
  let currentTick := _pixelToTick s (_getGridPos v pos).1 in
  resizeStartTicks s1 = anchorTick /\
  exists s', resize_moves (moves ++ [(v, pos)]) s1 = Some s' /\
    forall l n, l ∈ selectedNotes s1 -> heap s !! l = Some (Note n) ->
      exists n', heap s' !! l = Some (Note n') /\
        duration_ticks n' = Qmax (ppqn s / 16) (duration_ticks n + (currentTick - anchorTick)) /\
        ppqn s / 16 <= duration_ticks n' /\
        pitch n' = pitch n /\ velocity n' = velocity n /\ channel n' = channel n /\
        start_tick n' = start_tick n.
Proof.
  cbn zeta.
  pose proof (handleResizeMouseDown_recorded v0 note pos0 s) as Hrec.
  destruct (handleResizeMouseDown_spec v0 note pos0 s) as (_ & Hppqn & _ & _ & Hheap1).
  cbn zeta in Hheap1.
  set (s1 := _handleResizeMouseDown v0 note pos0 s) in *.
  assert (resizeStartTicks s1 = _pixelToTick s (_getGridPos v0 pos0).1) as Hanchor.
  { unfold s1, _handleResizeMouseDown. cbn zeta.
    rewrite (fold_set_heap_alter with_original store_originalDuration
               store_originalDuration_alter).
    unfold _saveStateForUndo. cbn zeta.
    destruct (MAX_HISTORY <? _)%nat; destruct (bool_decide _); reflexivity. }
  split; [exact Hanchor |].
  destruct (resize_moves_in_gesture moves s1 s1 Hrec (in_gesture_refl s1))
    as (s2 & Hrun2 & Hg2).
  destruct (handleNoteResize_in_gesture v pos s1 s2 Hrec Hg2) as (s' & Hrun & _ & Hheap).
  exists s'. split.
  { unfold resize_moves in *. rewrite fold_left_app, Hrun2. exact Hrun. }
  intros l n Hl Hn.
  destruct Hg2 as (_ & _ & _ & Hheap2). specialize (Hheap2 l).
  rewrite Hheap1, bool_decide_eq_true_2, Hn in Hheap2 by exact Hl. cbn in Hheap2.
  inversion Hheap2 as [x y Hxy Hx Hy |]; subst.
  destruct y as [n2 | o]; cbn in Hxy; [| contradiction].
  destruct Hxy as (Hp & Hv & Hc & Hst & Ho). cbn in Hp, Hv, Hc, Hst, Ho.
  rewrite Hheap, bool_decide_eq_true_2, <- Hy by exact Hl.
  cbn [fmap option_fmap option_map resized]. rewrite Ho.
  eexists. split; [reflexivity |].
  cbn [duration_ticks pitch velocity channel start_tick].
  rewrite Hanchor, Hppqn. unfold _pixelToTick. rewrite Hppqn.
  repeat split; try assumption. apply Q.le_max_l.
Qed.

(** *** The end of a gesture *)

(** C10.  A pointer-up with [isDragging] or [isResizing] set empties
    [selectedNotes]; a pointer-up that ends a marquee (and no drag or
    resize) leaves in [selectedNotes] exactly the objects of the
    collection that the marquee test accepts. *)
Theorem release_selection (v : view) (s : state) :
  (isDragging s || isResizing s = true -> selectedNotes (_onInteractionEnd v s) = []) /\
  (isMarqueeSelecting s = true -> isDragging s = false -> isResizing s = false ->
   selectedNotes (_onInteractionEnd v s) = selectedNotes (_selectNotesInMarquee v s) /\
   forall l, l ∈ selectedNotes (_onInteractionEnd v s) <->
             l ∈ notes s /\ exists n, heap s !! l = Some n /\ in_marquee v s n = true).
Proof.
  split.
  - destruct s. unfold _onInteractionEnd. cbn.
    destruct potentialDeselect0, isDragging0, isResizing0, wasAddingNote0,
      isMarqueeSelecting0, isPanning0; cbn; intros H; try discriminate H; reflexivity.
  - intros Hm Hd Hr.
    assert (selectedNotes (_onInteractionEnd v s) = selectedNotes (_selectNotesInMarquee v s))
      as Heq.
    { destruct s. unfold _onInteractionEnd. cbn in Hm, Hd, Hr |- *. subst.
      destruct potentialDeselect0, wasAddingNote0, isPanning0; reflexivity. }
    split; [exact Heq |]. intros l. rewrite Heq. unfold _selectNotesInMarquee.
    cbn [selectedNotes set_selectedNotes]. rewrite list_elem_of_In, filter_In, <- list_elem_of_In.
    split.
    + intros [Hl Hin]. split; [exact Hl |]. destruct (heap s !! l) as [n |]; [eauto | discriminate].
    + intros [Hl (n & Hn & Hin)]. split; [exact Hl |]. rewrite Hn. exact Hin.
Qed.

(** *** The handlers as steps of the history *)

Lemma saveStateForUndo_frame s :
  heap (_saveStateForUndo s) = heap s /\ notes (_saveStateForUndo s) = notes s /\
  selectedNotes (_saveStateForUndo s) = selectedNotes s.
Proof.
  unfold _saveStateForUndo. cbn zeta. destruct (MAX_HISTORY <? _)%nat; repeat split.
Qed.

Lemma setTrackParameter_history now channel type value s :
  type <> unknownParameter ->
  same_history (_saveStateForUndo s) (_setTrackParameter now channel type value s).
Proof.
  intros Htype.
  assert (forall m, same_history (_saveStateForUndo s) (_saveStateForUndo (emit m s))) as Hemit.
  { intros m. destruct (saveStateForUndo_spec s) as [Hr Hu].
    destruct (saveStateForUndo_spec (emit m s)) as [Hr' Hu'].
    split; [rewrite Hu, Hu' | rewrite Hr, Hr']; reflexivity. }
  unfold _setTrackParameter.
  destruct type; [| | contradiction]; cbn zeta;
    match goal with |- context [_saveStateForUndo (emit ?m s)] =>
      destruct (Hemit m) as [Hu Hr]; set (s0 := _saveStateForUndo (emit m s)) in *
    end;
    unfold alloc; destruct (findIndex _ _ _); split; assumption.
Qed.

Lemma deleteNotes_history s :
  selectedNotes s <> [] -> same_history (_saveStateForUndo s) (_deleteNotes true s).
Proof.
  intros Hsel. unfold _deleteNotes. destruct (selectedNotes s); [contradiction |].
  cbn [negb]. cbn zeta. set (s0 := _saveStateForUndo s). split; reflexivity.
Qed.

Lemma fire_due_history from to l : forall s,
  same_history s (fold_left (fun s e => if due from to e then fire e s else s) l s).
Proof.
  unfold same_history.
  induction l as [| e l IH]; intros s; cbn [fold_left]; [split; reflexivity |].
  destruct (due from to e); [| apply IH].
  destruct (IH (fire e s)) as [-> ->]. unfold fire.
  destruct (muted s e); [| destruct e]; split; reflexivity.
Qed.

Lemma pause_history s : same_history s (pause s).
Proof.
  unfold pause.
  destruct (pause_fold (lookaheadEvents (set_isPlaying false s)) (set_isPlaying false s))
    as (_ & _ & _ & _ & Hu & Hr).
  split; [exact Hu | exact Hr].
Qed.

Lemma playbackLoop_history timestamp s : same_history s (_playbackLoop timestamp s).
Proof.
  unfold _playbackLoop. destruct (negb (isPlaying s)); [split; reflexivity |]. cbn zeta.
  set (s1 := fire_due _ _ _).
  assert (same_history s s1) as [Hu Hr].
  { destruct (fire_due_history (playheadTick (set_lastFrameTime timestamp s))
                (playheadTick (set_lastFrameTime timestamp s) + elapsedTicks timestamp s)
                (lookaheadEvents (set_lastFrameTime timestamp s))
                (set_lastFrameTime timestamp s)) as [Hu Hr].
    split; [exact Hu | exact Hr]. }
  destruct (Qgtb _ _).
  - unfold stop. destruct (pause_history (set_playheadTick
      (playheadTick (set_lastFrameTime timestamp s) + elapsedTicks timestamp s) s1)) as [Hu' Hr'].
    split; [etransitivity; [exact Hu' | exact Hu] | etransitivity; [exact Hr' | exact Hr]].
  - split; [exact Hu | exact Hr].
Qed.

(** C7.  [_saveStateForUndo], and with it every action that takes a
    snapshot, leaves the redo stack empty; the snapshot is pushed on the
    undo stack, whose oldest entry is dropped when that makes more than
    25; and in no state that the handlers can reach from the initial
    one is the undo stack deeper than 25. *)
Theorem undo_history_invariant :
  (forall s, redoHistory (_saveStateForUndo s) = [] /\
             undoHistory (_saveStateForUndo s) =
               (let pushed := undoHistory s ++ [snapshot s] in
                if (MAX_HISTORY <? length pushed)%nat then tail pushed else pushed)) /\
  (forall s s', same_history (_saveStateForUndo s) s' -> redoHistory s' = []) /\
  (forall v note pos s, same_history (_saveStateForUndo s) (_handleResizeMouseDown v note pos s)) /\
  (forall now channel type value s, type <> unknownParameter ->
     same_history (_saveStateForUndo s) (_setTrackParameter now channel type value s)) /\
  (forall s, selectedNotes s <> [] -> same_history (_saveStateForUndo s) (_deleteNotes true s)) /\
  (forall s, rtc step initial s -> (length (undoHistory s) <= 25)%nat).
Proof.
  split; [exact saveStateForUndo_spec |]. split; [| split; [| split; [| split]]].
  - intros s s' [_ ->]. apply saveStateForUndo_spec.
  - intros v note pos s. apply handleResizeMouseDown_spec.
  - exact setTrackParameter_history.
  - exact deleteNotes_history.
  - intros s Hreach. apply reachable_bounded in Hreach. unfold history_bounded in Hreach.
    change MAX_HISTORY with 25%nat in Hreach. lia.
Qed.

(** The other handlers of this model leave both stacks as they are. *)
Lemma handlers_keep_history :
  (forall v pos s s', _handleNoteResize v pos s = Some s' -> originals_recorded s ->
                      same_history s s') /\
  (forall v s, same_history s (_onInteractionEnd v s)) /\
  (forall timestamp s, same_history s (_playbackLoop timestamp s)) /\
  (forall now s, same_history s (play now s)) /\
  (forall s, same_history s (stop s)) /\
  (forall v now pos s, same_history s (_handlePlayheadDrag v now pos s)) /\
  (forall messages ppqn s, same_history s (loadFromJson messages ppqn s)).
Proof.
  split; [| split; [| split; [| split; [| split; [| split]]]]].
  - intros v pos s s' Hrun Hrec.
    destruct (handleNoteResize_spec v pos s Hrec) as (s'' & Hrun' & _ & _ & _ & Hh & _).
    rewrite Hrun in Hrun'. injection Hrun' as ->. exact Hh.
  - intros v s. destruct s. unfold _onInteractionEnd. cbn.
    destruct potentialDeselect0, isDragging0, isResizing0, wasAddingNote0,
      isMarqueeSelecting0, isPanning0; split; reflexivity.
  - exact playbackLoop_history.
  - intros now s. unfold play. destruct (isPlaying s); split; reflexivity.
  - intros s. unfold stop. destruct (pause_history s) as [Hu Hr]. split; [exact Hu | exact Hr].
  - intros v now pos s. unfold _handlePlayheadDrag. cbn zeta.
    destruct (isPlaying _); split; reflexivity.
  - intros messages ppqn s. unfold loadFromJson. cbn zeta.
    destruct (adopt_history (imported <$> Codec._messagesToNotes messages) (set_ppqn ppqn s))
      as [Hu Hr].
    split; [exact Hu | exact Hr].
Qed.
End PianoRollProps.

(** ** The pointer-capture broker *)

Module BrokerProps.
Import Broker.
Local Open Scope Q_scope.

(** *** The protocol of [processResult] *)

Lemma processResult_spec r w :
  capturedControl (processResult r w) =
    match r with
    | Some (mkResult capture c) => c
    | Some (mkResult release _) => None
    | Some (mkResult persist _) | None => capturedControl w
    end /\
  controls (processResult r w) = controls w /\
  delivered (processResult r w) = delivered w /\
  called (processResult r w) = called w.
Proof.
  destruct r as [[[ | | ] c] |]; cbn; repeat split;
    destruct (capturedControl w) eqn:Hc; cbn; congruence.
Qed.

(** While a control is captured, an event dispatched through the broker
    reaches that control, once, and no other; the [owner] it carries is
    the captured control, whatever the caller had put there. *)
Lemma dispatchEvent_captured e target w c ctl :
  capturedControl w = Some c -> controls w !! c = Some ctl ->
  let e' := with_owner (ownerControl c) e in
  let w' := dispatchEvent e target w in
  delivered w' = delivered w ++ [(c, e')] /\
  controls w' = <[c := (control_handleEvent c e' ctl).1.1]> (controls w) /\
  capturedControl w' =
    match (control_handleEvent c e' ctl).2 with
    | Some (mkResult capture c') => c'
    | Some (mkResult release _) => None
    | Some (mkResult persist _) | None => Some c
    end.
Proof.
  intros Hc Hctl. cbn zeta. unfold dispatchEvent, deliver. rewrite Hc, Hctl.
  destruct (control_handleEvent c (with_owner (ownerControl c) e) ctl) as [[ctl' cbs] r].
  match goal with |- context [processResult ?r ?w0] =>
    destruct (processResult_spec r w0) as (Hcap & Hctls & Hdel & _)
  end.
  rewrite Hcap, Hctls, Hdel. cbn. repeat split.
Qed.

Lemma handleEvent_outside d e w c ctl :
  capturedControl w = Some c -> controls w !! c = Some ctl ->
  isPointInBounds d (x e) (y e) = false -> 0 <= scrollOffsetY d ->
  let e' := mkEvent (type e) (x e + scrollOffsetX d) (y e + scrollOffsetY d) (deltaY e)
              (ownerControl c) in
  exists w', handleEvent d e w = Some w' /\
    delivered w' = delivered w ++ [(c, e')] /\
    capturedControl w' =
      match (control_handleEvent c e' ctl).2 with
      | Some (mkResult capture c') => c'
      | Some (mkResult release _) => None
      | Some (mkResult persist _) | None => Some c
      end.
Proof.
  intros Hc Hctl Hout Hscroll. cbn zeta. unfold handleEvent. rewrite Hc, Hout. cbn [negb].
  assert (isPointInBounds d (x (with_xy (x e + scrollOffsetX d) (y e + scrollOffsetY d) e))
            (y (with_xy (x e + scrollOffsetX d) (y e + scrollOffsetY d) e)) = false) as ->.
  { unfold isPointInBounds in *. cbn. apply negb_false_iff in Hout. apply negb_false_iff.
    apply Qle_bool_iff in Hout. apply Qle_bool_iff.
    eapply Qle_trans; [exact Hout |].
    rewrite <- (Qplus_0_r (y e)) at 1. apply Qplus_le_r. exact Hscroll. }
  cbn [negb]. eexists. split; [reflexivity |].
  destruct (dispatchEvent_captured
              (with_owner ownerNull (with_xy (x e + scrollOffsetX d) (y e + scrollOffsetY d) e))
              (Some c) w c ctl Hc Hctl) as (Hdel & _ & Hcap).
  split; [exact Hdel | exact Hcap].
Qed.

(** C9 (code defect).  A pointer-down below the drawer, while the open
    popup slider 7 is captured, is delivered once, to control 7 only,
    but with [owner] set to control 7 instead of [null]: [dispatchEvent]
    overwrites the [owner: null] that [Drawer.handleEvent] had put on the
    outside click.  The popup's test [owner !== this] therefore fails,
    the popup stays open and the capture is not released.  The same
    click through [handleGlobalClick], which keeps [owner: null], closes
    the popup and leaves [capturedControl] null. *)
Theorem outside_click_owner_overwritten :
  (exists w', handleEvent panel click_outside captured_popup = Some w' /\
     delivered w' = [(7%nat, mkEvent pointerdown 500 400 0 (ownerControl 7%nat))] /\
     capturedControl w' = Some 7%nat /\
     controls w' !! 7%nat = Some (PopupSlider volumeOpen)) /\
  (let w' := handleGlobalClick click_outside captured_popup in
   delivered w' = [(7%nat, mkEvent pointerdown 500 400 0 ownerNull)] /\
   capturedControl w' = None /\
   controls w' !! 7%nat = Some (PopupSlider volumeClosed)).
Proof.
  split.
  - eexists. split; [reflexivity |]. vm_compute. repeat split.
  - vm_compute. repeat split.
Qed.
End BrokerProps.

(** ** Message lists with other-events *)

Module MessageListsProps.
Import JsArray JsArrayProps Codec CodecProps MessageLists.
Local Open Scope Z_scope.

Lemma import_sorted ms :
  StronglySorted (fun a b => time a <= time b)
    (sort (fun a b => 0 <? import_compare a b) ms).
Proof.
  apply sort_sorted.
  - intros a b c. lia.
  - intros y x. unfold import_compare. intros H. apply Z.ltb_lt in H. lia.
  - intros y x. unfold import_compare. intros H. apply Z.ltb_ge in H. lia.
Qed.


Lemma import_fold_accounted ms l : forall out openNotes,
  StronglySorted (fun a b => time a <= time b) l ->
  (forall x, x ∈ l -> x ∈ ms) ->
  Forall (accounted ms) out -> open_ok ms l openNotes ->
  Forall (accounted ms) (fold_left import_message l (out, openNotes)).1.
Proof.
  induction l as [| m l IH]; intros out openNotes Hsorted Hsub Hout Hopen; [exact Hout |].
  apply StronglySorted_inv in Hsorted as [Hsorted Hm].
  assert (forall x, x ∈ l -> x ∈ ms) as Hsub' by (intros x Hx; apply Hsub; right; exact Hx).
  assert (open_ok ms l openNotes) as Hopen'.
  { intros k f Hk. destruct (Hopen k f Hk) as (H1 & H2 & H3 & H4).
    apply Forall_cons in H4 as [_ H4]. auto. }
  cbn [fold_left].
  assert (forall f, closes m = Some f ->
            Forall (accounted ms) (fold_left import_message l (close_note f (out, openNotes))).1)
    as Hclose.
  { intros f Hf. unfold close_note.
    destruct (openNotes !! key (m_pitch f) (m_channel f)) as [nOn |] eqn:Hlook.
    - destruct (Hopen _ _ Hlook) as (Hin & Hvel & Hkey & Hle).
      apply Forall_cons in Hle as [Hle _].
      apply IH; [exact Hsorted | exact Hsub' | |].
      + apply Forall_app. split; [exact Hout |]. constructor; [| constructor].
        exists (noteOn nOn), m, nOn, f.
        split; [exact Hin |]. split; [apply Hsub; left |].
        split; [cbn; destruct (Z.ltb_spec 0 (m_velocity nOn)); [reflexivity | lia] |].
        split; [exact Hf |].
        unfold key in Hkey. injection Hkey as Hp Hc.
        assert (time m = m_time f) as Ht.
        { destruct m as [g | g | t b]; cbn in Hf.
          - destruct (m_velocity g =? 0); [injection Hf as ->; reflexivity | discriminate].
          - injection Hf as ->. reflexivity.
          - discriminate. }
        rewrite Ht in Hle. repeat split; try done.
      + intros k g Hk. destruct (decide (k = key (m_pitch f) (m_channel f))) as [-> | Hne].
        * rewrite lookup_delete_eq in Hk. discriminate.
        * rewrite lookup_delete_ne in Hk by congruence. apply Hopen'. exact Hk.
    - apply IH; assumption. }
  destruct m as [f | f | t bytes]; cbn [import_message].
  - destruct (Z.ltb_spec 0 (m_velocity f)) as [Hpos | Hnpos].
    + apply IH; [exact Hsorted | exact Hsub' | exact Hout |].
      intros k g Hk. cbn [fst snd] in Hk.
      destruct (decide (k = key (m_pitch f) (m_channel f))) as [-> | Hne].
      * rewrite lookup_insert_eq in Hk. injection Hk as <-.
        split; [apply Hsub; left |]. split; [exact Hpos |]. split; [reflexivity |].
        exact Hm.
      * rewrite lookup_insert_ne in Hk by congruence. apply Hopen'. exact Hk.
    + destruct (Z.eqb_spec (m_velocity f) 0) as [Hz | Hnz].
      * apply Hclose. cbn. rewrite Hz. reflexivity.
      * apply IH; assumption.
  - apply Hclose. reflexivity.
  - cbn [fst snd]. apply IH; [exact Hsorted | exact Hsub' | | exact Hopen'].
    apply Forall_app. split; [exact Hout |]. constructor; [| constructor].
    cbn. apply Hsub. left.
Qed.

(** Every object that [_messagesToNotes] returns is accounted for by the
    messages it was given: an other-event is one of the 'other'
    messages; a note has the pitch, channel, velocity and time of a
    noteOn message of positive velocity, and ends at the time, not
    earlier, of a noteOff message (or a noteOn message of velocity 0) of
    that pitch and channel.  So an imported note has a positive velocity
    and a duration that is not negative. *)
Theorem import_accounted (ms : list message) :
  Forall (accounted ms) (_messagesToNotes ms) /\
  Forall (fun it => match it with
                    | Note n => 0 <= duration_ticks n /\ 0 < velocity n
                    | Other _ _ => True
                    end) (_messagesToNotes ms).
Proof.
  assert (Forall (accounted ms) (_messagesToNotes ms)) as Hacc.
  { unfold _messagesToNotes. apply import_fold_accounted.
    - apply import_sorted.
    - intros x Hx. rewrite sort_perm in Hx. exact Hx.
    - constructor.
    - intros k f Hk. rewrite lookup_empty in Hk. discriminate. }
  split; [exact Hacc |].
  eapply Forall_impl; [exact Hacc |].
  intros [n | t b]; [| done]. cbn.
  intros (m_on & m_off & f_on & f_off & _ & _ & Hon & _ & _ & _ & Hle & ->). cbn.
  split; [lia |]. destruct m_on as [g | g | ? ?]; cbn in Hon; try discriminate.
  destruct (Z.ltb_spec 0 (m_velocity g)); [injection Hon as <-; assumption | discriminate].
Qed.

Lemma import_fold_others l : forall out openNotes,
  omap other_item (fold_left import_message l (out, openNotes)).1 =
  omap other_item out ++ omap other_message l.
Proof.
  induction l as [| m l IH]; intros out openNotes; [cbn; rewrite app_nil_r; reflexivity |].
  cbn [fold_left].
  assert (forall f, omap other_item (fold_left import_message l (close_note f (out, openNotes))).1
                    = omap other_item out ++ omap other_message l) as Hclose.
  { intros f. unfold close_note.
    destruct (openNotes !! key (m_pitch f) (m_channel f)); [| apply IH].
    rewrite IH, omap_app. cbn. rewrite app_nil_r. reflexivity. }
  destruct m as [f | f | t bytes]; cbn [import_message omap list_omap other_message].
  - destruct (0 <? m_velocity f); [apply IH |].
    destruct (m_velocity f =? 0); [apply Hclose | apply IH].
  - apply Hclose.
  - cbn [fst snd]. rewrite IH, omap_app. cbn. rewrite <- app_assoc. reflexivity.
Qed.

Lemma StronglySorted_omap {A B} (f : A -> option B) (R : A -> A -> Prop) (S : B -> B -> Prop) l :
  (forall a b a' b', f a = Some a' -> f b = Some b' -> R a b -> S a' b') ->
  StronglySorted R l -> StronglySorted S (omap f l).
Proof.
  intros HRS. induction 1 as [| x l Hl IH Hx]; [constructor |].
  cbn. destruct (f x) as [x' |] eqn:Hfx; [| exact IH].
  constructor; [exact IH |]. apply Forall_forall. intros y' Hy'.
  apply list_elem_of_omap in Hy' as (y & Hy & Hfy). rewrite Forall_forall in Hx.
  eapply HRS; [exact Hfx | exact Hfy | apply Hx, Hy].
Qed.

(** The objects of type 'other' that [_messagesToNotes] returns are the
    'other' messages it was given, each once, in ascending order of time. *)
Theorem import_keeps_others (ms : list message) :
  omap other_item (_messagesToNotes ms) ≡ₚ omap other_message ms /\
  StronglySorted (fun a b => a.1 <= b.1) (omap other_item (_messagesToNotes ms)).
Proof.
  unfold _messagesToNotes. rewrite import_fold_others. cbn [omap list_omap app].
  split.
  - apply omap_Permutation, sort_perm.
  - eapply StronglySorted_omap; [| apply import_sorted].
    intros [| |] [| |] a' b'; cbn; try discriminate. intros [= <-] [= <-]. cbn. auto.
Qed.

Lemma import_fold_prefix l : forall out openNotes,
  fold_left import_message l (out, openNotes) =
  (out ++ (fold_left import_message l ([], openNotes)).1,
   (fold_left import_message l ([], openNotes)).2).
Proof.
  induction l as [| m l IH]; intros out openNotes.
  - cbn. rewrite app_nil_r. reflexivity.
  - cbn [fold_left].
    assert (forall f, fold_left import_message l (close_note f (out, openNotes)) =
              (out ++ (fold_left import_message l (close_note f ([], openNotes))).1,
               (fold_left import_message l (close_note f ([], openNotes))).2)) as Hclose.
    { intros f. unfold close_note.
      destruct (openNotes !! key (m_pitch f) (m_channel f)) as [nOn |]; [| apply IH].
      rewrite IH. rewrite (IH ([] ++ _)). cbn [fst snd app]. rewrite <- app_assoc. reflexivity. }
    destruct m as [f | f | t bytes]; cbn [import_message fst snd].
    + destruct (0 <? m_velocity f); [apply IH |].
      destruct (m_velocity f =? 0); [apply Hclose | apply IH].
    + apply Hclose.
    + rewrite IH. rewrite (IH ([] ++ _)). cbn [fst snd app]. rewrite <- app_assoc. reflexivity.
Qed.

Lemma import_fold_split l : forall openNotes,
  (fold_left import_message l ([], openNotes)).1 ≡ₚ
  (fold_left import_message (List.filter note_message l) ([], openNotes)).1
    ++ omap other_to_item l.
Proof.
  induction l as [| m l IH]; intros openNotes; [reflexivity |].
  cbn [fold_left List.filter].
  assert (forall f, note_message m = true -> import_message ([], openNotes) m = close_note f ([], openNotes) ->
            omap other_to_item (m :: l) = omap other_to_item l ->
            (fold_left import_message l (close_note f ([], openNotes))).1 ≡ₚ
            (fold_left import_message (if note_message m then m :: List.filter note_message l
                                       else List.filter note_message l) ([], openNotes)).1
              ++ omap other_to_item (m :: l)) as Hclose.
  { intros f -> Heq ->. cbn [fold_left]. rewrite Heq. unfold close_note.
    destruct (openNotes !! key (m_pitch f) (m_channel f)) as [nOn |]; [| apply IH].
    rewrite import_fold_prefix. rewrite (import_fold_prefix (List.filter _ _)).
    cbn [fst]. rewrite IH, <- app_assoc. reflexivity. }
  destruct m as [f | f | t bytes].
  - cbn [import_message]. destruct (0 <? m_velocity f) eqn:Hv.
    + cbn [note_message fold_left import_message omap list_omap other_to_item].
      rewrite Hv. apply IH.
    + destruct (m_velocity f =? 0) eqn:Hz.
      * apply Hclose; [reflexivity | | reflexivity]. cbn. rewrite Hv, Hz. reflexivity.
      * cbn [note_message fold_left import_message omap list_omap other_to_item].
        rewrite Hv, Hz. apply IH.
  - cbn [import_message]. apply Hclose; reflexivity.
  - cbn [import_message note_message omap list_omap other_to_item fst snd app].
    rewrite import_fold_prefix. cbn [fst]. rewrite IH.
    rewrite <- Permutation_middle. reflexivity.
Qed.

Lemma filter_note_messages (its : list item) :
  List.filter note_message (its ≫= item_messages) = (Note <$> notes_of its) ≫= item_messages.
Proof.
  induction its as [| [n | t b] its IH]; [reflexivity | |].
  - change ((Note n :: its) ≫= item_messages)
      with (noteOn (on_msg n) :: noteOff (off_msg n) :: its ≫= item_messages).
    cbn [List.filter note_message]. rewrite IH. reflexivity.
  - change ((Other t b :: its) ≫= item_messages) with (other t b :: its ≫= item_messages).
    cbn [List.filter note_message]. exact IH.
Qed.

Lemma others_of_messages (its : list item) :
  (Note <$> notes_of its) ++ omap other_to_item (its ≫= item_messages) ≡ₚ its.
Proof.
  induction its as [| [n | t b] its IH]; [reflexivity | |].
  - change ((Note n :: its) ≫= item_messages)
      with (noteOn (on_msg n) :: noteOff (off_msg n) :: its ≫= item_messages).
    cbn [omap list_omap other_to_item notes_of fmap list_fmap app]. fold (notes_of its).
    rewrite IH. reflexivity.
  - change ((Other t b :: its) ≫= item_messages) with (other t b :: its ≫= item_messages).
    cbn [omap list_omap other_to_item notes_of]. fold (notes_of its).
    rewrite <- Permutation_middle, IH. reflexivity.
Qed.

Lemma StronglySorted_filter {A} (R : A -> A -> Prop) (p : A -> bool) l :
  StronglySorted R l -> StronglySorted R (List.filter p l).
Proof.
  induction 1 as [| x l Hl IH Hx]; [constructor |]. cbn.
  destruct (p x); [| exact IH]. constructor; [exact IH |].
  rewrite Forall_forall in *. intros y Hy. apply list_elem_of_In, filter_In in Hy as [Hy _].
  apply Hx, list_elem_of_In, Hy.
Qed.

Lemma filter_Permutation {A} (p : A -> bool) (l l' : list A) :
  l ≡ₚ l' -> List.filter p l ≡ₚ List.filter p l'.
Proof.
  induction 1 as [| x l l' Hp IH | x y l | l l' l'' Hp1 IH1 Hp2 IH2]; cbn.
  - reflexivity.
  - destruct (p x); [rewrite IH |]; done.
  - destruct (p x), (p y); try reflexivity. apply perm_swap.
  - etransitivity; eassumption.
Qed.

(** Export followed by import, on what the export reads of the
    objects: the notes, and of an other-event its time and bytes. *)
Lemma export_import_items (its : list item) :
  NoDup (note_key <$> notes_of its) ->
  Forall (fun n => 0 < duration_ticks n /\ 0 < velocity n) (notes_of its) ->
  _messagesToNotes (_notesToMessages its) ≡ₚ its.
Proof.
  intros Hkeys Hsound. unfold _messagesToNotes.
  rewrite import_sort_id by apply notesToMessages_time_sorted.
  rewrite import_fold_split.
  rewrite (import_fold (notes_of its) Hkeys Hsound _ [] ∅).
  - cbn [app]. etransitivity; [| apply others_of_messages].
    apply Permutation_app.
    + rewrite (omap_Permutation _ _ _ (filter_Permutation note_message _ _ (notesToMessages_perm its))).
      rewrite filter_note_messages, omap_closed_messages; done.
    + apply omap_Permutation, notesToMessages_perm.
  - apply StronglySorted_filter, notesToMessages_time_sorted.
  - rewrite (filter_Permutation note_message _ _ (notesToMessages_perm its)), filter_note_messages.
    apply note_messages_NoDup, Hkeys.
  - intros m Hm. apply elem_of_note_messages. rewrite <- filter_note_messages.
    rewrite <- (filter_Permutation note_message _ _ (notesToMessages_perm its)). exact Hm.
  - intros n Hn _ Hon. exfalso. apply Hon.
    rewrite (filter_Permutation note_message _ _ (notesToMessages_perm its)), filter_note_messages.
    apply elem_of_note_messages. exists n. split; [exact Hn | left; reflexivity].
Qed.
End MessageListsProps.

(** ** The writer of MIDI files *)

Module MidiFileProps.
Import JsArray JsArrayProps Vlq VlqProps Codec CodecProps MidiFile.
Local Open Scope Z_scope.

Lemma toInt32_testbit z n : 0 <= n < 32 -> Z.testbit (toInt32 z) n = Z.testbit z n.
Proof.
  intros Hn. unfold toInt32.
  replace ((z + 2 ^ 31) mod 2 ^ 32 - 2 ^ 31)
    with (z + (- ((z + 2 ^ 31) / 2 ^ 32)) * 2 ^ 32)
    by (pose proof (Z.div_mod (z + 2 ^ 31) (2 ^ 32) ltac:(lia)); lia).
  rewrite <- (Z.mod_pow2_bits_low (z + _ * 2 ^ 32) 32 n) by lia.
  rewrite Z.mod_add by lia. apply Z.mod_pow2_bits_low. lia.
Qed.

Lemma js_byte z k : 0 <= k <= 24 -> js_and (js_sar z k) 255 = (z / 2 ^ k) mod 256.
Proof.
  intros Hk. unfold js_and, js_sar. rewrite (toInt32_small 255) by lia.
  change 255 with (Z.ones 8). rewrite Z.land_ones by lia. change (2 ^ 8) with 256.
  rewrite <- (Z.shiftr_div_pow2 z k) by lia.
  change 256 with (2 ^ 8). apply Z.bits_inj'. intros n Hn.
  destruct (Z.lt_ge_cases n 8) as [Hlt | Hge].
  - rewrite !Z.mod_pow2_bits_low by lia.
    rewrite toInt32_testbit by lia. rewrite !Z.shiftr_spec by lia.
    apply toInt32_testbit. lia.
  - rewrite !Z.mod_pow2_bits_high by lia. reflexivity.
Qed.

Lemma js_low_byte z : js_and z 255 = z mod 256.
Proof.
  unfold js_and. rewrite (toInt32_small 255) by lia.
  change 255 with (Z.ones 8). rewrite Z.land_ones by lia.
  change 256 with (2 ^ 8). apply Z.bits_inj'. intros n Hn.
  destruct (Z.lt_ge_cases n 8) as [Hlt | Hge].
  - rewrite !Z.mod_pow2_bits_low by lia. apply toInt32_testbit. lia.
  - rewrite !Z.mod_pow2_bits_high by lia. reflexivity.
Qed.

Lemma big_endian_4 z :
  big_endian [(z / 2 ^ 24) mod 256; (z / 2 ^ 16) mod 256; (z / 2 ^ 8) mod 256; z mod 256]
  = z mod 2 ^ 32.
Proof.
  unfold big_endian. cbn [fold_left].
  change (2 ^ 24) with (256 * 256 * 256). change (2 ^ 16) with (256 * 256).
  change (2 ^ 8) with 256. change (2 ^ 32) with (256 * (256 * (256 * 256))).
  rewrite !Z.rem_mul_r by lia. rewrite <- !Z.div_div by lia. lia.
Qed.

Lemma big_endian_3 z :
  big_endian [(z / 2 ^ 16) mod 256; (z / 2 ^ 8) mod 256; z mod 256] = z mod 2 ^ 24.
Proof.
  unfold big_endian. cbn [fold_left].
  change (2 ^ 16) with (256 * 256).
  change (2 ^ 8) with 256. change (2 ^ 24) with (256 * (256 * 256)).
  rewrite !Z.rem_mul_r by lia. rewrite <- !Z.div_div by lia. lia.
Qed.

Lemma big_endian_2 z : big_endian [(z / 2 ^ 8) mod 256; z mod 256] = z mod 2 ^ 16.
Proof.
  unfold big_endian. cbn [fold_left].
  change (2 ^ 8) with 256. change (2 ^ 16) with (256 * 256).
  rewrite !Z.rem_mul_r by lia. lia.
Qed.

Lemma mod_256_idem z : (z mod 256) mod 256 = z mod 256.
Proof. apply Z.mod_mod. lia. Qed.

Lemma track_events_prefix ms : forall track lastTime,
  exists events,
    (fold_left (fun '(track, lastTime) msg => (track ++ message_bytes lastTime msg, time msg))
               ms (track, lastTime)).1 = track ++ events.
Proof.
  induction ms as [| m ms IH]; intros track lastTime; cbn [fold_left].
  - exists []. rewrite app_nil_r. reflexivity.
  - destruct (IH (track ++ message_bytes lastTime m) (time m)) as [events Hev].
    exists (message_bytes lastTime m ++ events). rewrite Hev, <- app_assoc. reflexivity.
Qed.

(** The file that [write] returns is a sequence of bytes in the layout
    of a MIDI file of one track: the header chunk 'MThd' of length 6,
    format 0, one track, with the pulses per quarter note in two bytes;
    the chunk 'MTrk' with the number of bytes of the track in four
    bytes; a track that begins with the tempo event FF 51 03 at delta
    time 0, which holds round(60000000 / bpm) in three bytes, and ends
    with the end-of-track event FF 2F 00 at delta time 0.  The numbers
    are written most significant byte first, cut to the width of their
    field. *)
Theorem write_chunks (messages : list message) (ppqn : Z) (bpm : Q) :
  let file := write messages ppqn bpm in
  let track := drop 22 file in
  Forall (fun b => 0 <= b < 256) file /\
  take 12 file = [77; 84; 104; 100; 0; 0; 0; 6; 0; 0; 0; 1] /\
  big_endian (take 2 (drop 12 file)) = ppqn mod 2 ^ 16 /\
  take 4 (drop 14 file) = [77; 84; 114; 107] /\
  big_endian (take 4 (drop 18 file)) = Z.of_nat (length track) mod 2 ^ 32 /\
  take 4 track = [0; 255; 81; 3] /\
  big_endian (take 3 (drop 4 track)) = round (60000000 / bpm)%Q mod 2 ^ 24 /\
  drop (length track - 4) track = [0; 255; 47; 0].
Proof.
  cbn zeta. unfold write, write_buffer. cbn zeta.
  destruct (track_events_prefix messages
              (writeVlq 0 ++ [255; 81; 3;
                 js_and (js_sar (round (60000000 / bpm)%Q) 16) 255;
                 js_and (js_sar (round (60000000 / bpm)%Q) 8) 255;
                 js_and (round (60000000 / bpm)%Q) 255]) 0) as [events Hev].
  unfold track_events. rewrite Hev. clear Hev.
  set (us := round (60000000 / bpm)%Q).
  change (writeVlq 0) with [0].
  rewrite !js_byte, !js_low_byte by lia.
  split.
  { apply Forall_forall. intros b Hb. apply list_elem_of_fmap in Hb as (b' & -> & _).
    apply Z.mod_pos_bound. lia. }
  rewrite !fmap_app. cbn [fmap list_fmap]. rewrite <- !app_assoc. cbn [app take drop].
  set (ev := (fun b => b mod 256) <$> events).
  rewrite !mod_256_idem.
  split; [reflexivity |].
  split; [apply big_endian_2 |].
  split; [reflexivity |].
  split.
  { rewrite big_endian_4. do 2 f_equal. cbn [length]. rewrite !length_app. unfold ev.
    rewrite length_fmap. reflexivity. }
  split; [reflexivity |].
  split; [apply big_endian_3 |].
  change (0 mod 256 :: 255 mod 256 :: 81 mod 256 :: 3 mod 256 :: us / 2 ^ 16 mod 256
            :: us / 2 ^ 8 mod 256 :: us mod 256 :: ev ++ [0 mod 256; 255 mod 256; 47 mod 256; 0 mod 256])
    with (([0; 255; 81; 3; us / 2 ^ 16 mod 256; us / 2 ^ 8 mod 256; us mod 256] ++ ev)
            ++ [0; 255; 47; 0]).
  set (pre := [0; 255; 81; 3; us / 2 ^ 16 mod 256; us / 2 ^ 8 mod 256; us mod 256] ++ ev).
  rewrite length_app. cbn [length].
  replace (length pre + 4 - 4)%nat with (length pre) by lia.
  apply drop_app_length.
Qed.





End MidiFileProps.

(** ** The editor *)

Module EditorProps.
Import JsArray JsArrayProps PianoRoll PianoRollProps Editor.
Local Open Scope Q_scope.

Lemma alloc_fold_items its : forall ls s,
  let r := fold_left (fun '(ls, s) it => let '(l, s') := alloc it s in (ls ++ [l], s')) its (ls, s) in
  (forall l, (l < nextLoc s)%positive -> heap r.2 !! l = heap s !! l) /\
  (nextLoc s <= nextLoc r.2)%positive /\
  exists ls', r.1 = ls ++ ls' /\ omap (fun l => heap r.2 !! l) ls' = its /\
              Forall (fun l => (nextLoc s <= l)%positive) ls'.
Proof.
  induction its as [| it its IH]; intros ls s; cbn zeta.
  - cbn. split; [done |]. split; [reflexivity |]. exists []. rewrite app_nil_r. repeat split. constructor.
  - cbn [fold_left].
    set (s1 := set_nextLoc (Pos.succ (nextLoc s)) (set_heap (<[nextLoc s := it]> (heap s)) s)).
    change (let '(l, s') := alloc it s in ((ls ++ [l])%list, s'))
      with ((ls ++ [nextLoc s])%list, s1).
    destruct (IH (ls ++ [nextLoc s]) s1) as (Hheap & Hnext & ls' & Hls & Hits & Hge).
    cbn zeta in *.
    assert (nextLoc s1 = Pos.succ (nextLoc s)) as Hn1 by reflexivity.
    assert (heap s1 = <[nextLoc s := it]> (heap s)) as Hh1 by reflexivity.
    split; [| split; [lia |]].
    + intros l Hl. rewrite Hheap by lia. rewrite Hh1, lookup_insert_ne by lia. reflexivity.
    + exists (nextLoc s :: ls'). split; [rewrite Hls, <- app_assoc; reflexivity |].
      split.
      * cbn [omap list_omap]. rewrite Hheap by lia. rewrite Hh1, lookup_insert_eq, Hits. reflexivity.
      * constructor; [lia |]. eapply Forall_impl; [exact Hge |]. cbn. intros; lia.
Qed.

Lemma adopt_items its s : items (adopt its s) = its.
Proof.
  unfold adopt. pose proof (alloc_fold_items its [] s) as H. cbn zeta in H.
  destruct (fold_left _ its ([], s)) as [ls s'] eqn:Hf. cbn [fst snd] in H.
  destruct H as (_ & _ & ls' & -> & Hits & _). exact Hits.
Qed.

Lemma adopt_frame its s :
  selectedNotes (adopt its s) = selectedNotes s /\ out (adopt its s) = out s.
Proof.
  unfold adopt.
  assert (forall ls s, let r := fold_left (fun '(ls, s) it => let '(l, s') := alloc it s in (ls ++ [l], s')) its (ls, s) in
            selectedNotes r.2 = selectedNotes s /\ out r.2 = out s) as H.
  { induction its as [| it l IH]; intros ls s0; [split; reflexivity |].
    cbn [fold_left]. cbn zeta.
    change (let '(l, s') := alloc it s0 in ((ls ++ [l])%list, s'))
      with ((ls ++ [nextLoc s0])%list,
            set_nextLoc (Pos.succ (nextLoc s0)) (set_heap (<[nextLoc s0 := it]> (heap s0)) s0)).
    destruct (IH (ls ++ [nextLoc s0])
               (set_nextLoc (Pos.succ (nextLoc s0)) (set_heap (<[nextLoc s0 := it]> (heap s0)) s0)))
      as [-> ->]. split; reflexivity. }
  specialize (H [] s). cbn zeta in H.
  destruct (fold_left _ its ([], s)) as [ls s']. exact H.
Qed.

Lemma items_recalculate s : items (_recalculateSongDuration s) = items s.
Proof. reflexivity. Qed.

Lemma undo_spec s popped rest :
  undoHistory s = rest ++ [popped] ->
  items (undo s) = popped /\ undoHistory (undo s) = rest /\
  redoHistory (undo s) = redoHistory s ++ [items s] /\ selectedNotes (undo s) = [].
Proof.
  intros Hu. unfold undo. rewrite Hu, rev_app_distr. cbn [rev app].
  rewrite rev_involutive.
  set (s1 := set_undoHistory rest (set_redoHistory (redoHistory s ++ [snapshot s]) s)).
  destruct (adopt_history popped s1) as [Hh1 Hh2].
  split; [| split; [| split]].
  - rewrite items_recalculate. apply adopt_items.
  - cbn. exact Hh1.
  - cbn. exact Hh2.
  - reflexivity.
Qed.



Lemma saveStateForUndo_last s :
  exists rest, undoHistory (_saveStateForUndo s) = rest ++ [items s].
Proof.
  destruct (saveStateForUndo_spec s) as [_ ->]. cbn zeta.
  destruct (MAX_HISTORY <? _)%nat eqn:Hlt; [| exists (undoHistory s); reflexivity].
  destruct (undoHistory s) as [| h t].
  - cbn in Hlt. discriminate.
  - exists t. reflexivity.
Qed.

Lemma undo_after_save s s' :
  undoHistory s' = undoHistory (_saveStateForUndo s) -> items (undo s') = items s.
Proof.
  intros Hh. destruct (saveStateForUndo_last s) as (rest & Hrest). rewrite <- Hh in Hrest.
  apply (undo_spec s' _ _ Hrest).
Qed.



Lemma lastTick_attained l : forall acc,
  let lastTick :=
    fold_left (fun lastTick n =>
                 match n with
                 | Note n =>
                     let endTick := start_tick n + duration_ticks n in
                     if Qgtb endTick lastTick then endTick else lastTick
                 | Other _ => lastTick
                 end) l acc in
  lastTick = acc \/ exists n, Note n ∈ l /\ lastTick = start_tick n + duration_ticks n.
Proof.
  induction l as [| i l IH]; intros acc; cbn zeta; [left; reflexivity |].
  cbn [fold_left].
  assert (forall acc', acc' = acc \/ acc' = item_end i /\ (exists n, i = Note n) ->
            let lastTick := fold_left (fun lastTick n =>
                 match n with
                 | Note n =>
                     let endTick := start_tick n + duration_ticks n in
                     if Qgtb endTick lastTick then endTick else lastTick
                 | Other _ => lastTick
                 end) l acc' in
            lastTick = acc \/
            exists n, Note n ∈ i :: l /\ lastTick = start_tick n + duration_ticks n) as Hstep.
  { intros acc' Hacc'. cbn zeta. specialize (IH acc'). cbn zeta in IH.
    destruct IH as [IH | (n & Hn & IH)]; rewrite IH.
    - destruct Hacc' as [-> | [-> (n & ->)]]; [left; reflexivity |].
      right. exists n. split; [left | reflexivity].
    - right. exists n. split; [right; exact Hn | reflexivity]. }
  destruct i as [n0 | o].
  - destruct (Qgtb (start_tick n0 + duration_ticks n0) acc).
    + apply Hstep. right. split; [reflexivity | eexists; reflexivity].
    + apply Hstep. left. reflexivity.
  - apply Hstep. left. reflexivity.
Qed.

(** [_recalculateSongDuration] sets [songDurationTicks] to the latest
    end tick of a note, and to 0 when no note ends after tick 0. *)
Theorem song_duration_exact (s : state) :
  let d := songDurationTicks (_recalculateSongDuration s) in
  0 <= d /\
  (forall n, Note n ∈ items s -> start_tick n + duration_ticks n <= d) /\
  (d = 0 \/ exists n, Note n ∈ items s /\ d = start_tick n + duration_ticks n).
Proof.
  cbn zeta. unfold _recalculateSongDuration. cbn [songDurationTicks set_songDurationTicks].
  destruct (lastTick_fold (items s) 0) as [H0 Hall]. cbn zeta in H0, Hall.
  split; [exact H0 |]. split; [exact Hall |]. apply lastTick_attained.
Qed.

Lemma items_filter (p : loc -> bool) s :
  items (set_notes (List.filter p (notes s)) s) =
  omap (fun l => heap s !! l) (List.filter p (notes s)).
Proof. reflexivity. Qed.

(** A confirmed delete removes the selected objects from the collection
    and nothing else, and [undo] brings them back; a cancelled delete
    and a delete with nothing selected change nothing. *)
Theorem delete_selected (s : state) :
  (selectedNotes s <> [] ->
   let s' := _deleteNotes true s in
   (forall l, l ∈ notes s' <-> l ∈ notes s /\ l ∉ selectedNotes s) /\
   notes s' = List.filter (fun l => negb (bool_decide (l ∈ selectedNotes s))) (notes s) /\
   heap s' = heap s /\ selectedNotes s' = [] /\ lookaheadEvents s' = [] /\
   items (undo s') = items s) /\
  _deleteNotes false s = s /\
  (selectedNotes s = [] -> forall confirm, _deleteNotes confirm s = s).
Proof.
  split; [| split].
  - intros Hsel. cbn zeta. unfold _deleteNotes.
    destruct (selectedNotes s) as [| l0 sel] eqn:Hs; [contradiction |]. cbn [negb].
    assert (selectedNotes (_saveStateForUndo s) = selectedNotes s
            /\ notes (_saveStateForUndo s) = notes s /\ heap (_saveStateForUndo s) = heap s)
      as (Hsel' & Hnotes' & Hheap').
    { unfold _saveStateForUndo. cbn zeta. destruct (MAX_HISTORY <? _)%nat; repeat split. }
    set (s0 := _saveStateForUndo s) in *.
    split; [| split; [| split; [| split; [| split]]]].
    + intros l. cbn. rewrite Hsel', Hnotes', Hs.
      rewrite list_elem_of_In, filter_In, <- list_elem_of_In, negb_true_iff, bool_decide_eq_false.
      reflexivity.
    + cbn. rewrite Hsel', Hnotes', Hs. reflexivity.
    + cbn. exact Hheap'.
    + reflexivity.
    + reflexivity.
    + apply (undo_after_save s). reflexivity.
  - unfold _deleteNotes. destruct (selectedNotes s); reflexivity.
  - intros Hs confirm. unfold _deleteNotes. rewrite Hs. reflexivity.
Qed.

(** *** Snapping to the grid *)

Lemma round_spec q : inject_Z (round q) - (1 # 2) <= q /\ q < inject_Z (round q) + (1 # 2).
Proof.
  unfold round. pose proof (Qfloor_le (q + (1 # 2))) as Hle.
  pose proof (Qlt_floor (q + (1 # 2))) as Hlt.
  rewrite inject_Z_plus in Hlt. change (inject_Z 1) with 1 in Hlt. split; lra.
Qed.

Lemma round_inject z : round (inject_Z z) = z.
Proof.
  unfold round. apply Z.le_antisymm.
  - assert (Qfloor (inject_Z z + (1 # 2)) < z + 1)%Z as Hlt; [| lia].
    rewrite Zlt_Qlt. eapply Qle_lt_trans; [apply Qfloor_le |].
    rewrite inject_Z_plus. change (inject_Z 1) with 1. lra.
  - rewrite <- (Qfloor_Z z) at 1. apply Qfloor_resp_le. lra.
Qed.

Lemma round_nonneg q : 0 <= q -> (0 <= round q)%Z.
Proof.
  intros Hq. unfold round. change 0%Z with (Qfloor 0). apply Qfloor_resp_le. lra.
Qed.

Lemma inject_Z_nonneg k : (0 <= k)%Z -> 0 <= inject_Z k.
Proof. intros Hk. change 0 with (inject_Z 0). rewrite <- Zle_Qle. exact Hk. Qed.

Lemma inject_Z_nonpos k : (k <= 0)%Z -> inject_Z k <= 0.
Proof. intros Hk. change 0 with (inject_Z 0). rewrite <- Zle_Qle. exact Hk. Qed.

Lemma quantum_pixels s : ~ ppqn s == 0 -> _tickToPixel s (ppqn s / 4) == 16.
Proof. intros Hp. unfold _tickToPixel, beatWidth. field. exact Hp. Qed.

(** [_pixelToGrid] returns a tick that is not negative and lies on the
    grid of sixteenth notes, and a pitch from 0 to 127; for a position
    right of the origin the tick is the grid line nearest to the
    pointer, and for a position on the rows of the grid the pitch is
    that of the row under the pointer. *)
Theorem pixelToGrid_snaps (s : state) (pos : Q * Q) :
  0 < ppqn s ->
  let g := _pixelToGrid s pos in
  0 <= g.1 /\
  (exists k : Z, (0 <= k)%Z /\ g.1 == inject_Z k * (ppqn s / 4)) /\
  (0 <= g.2 <= 127)%Z /\
  (0 <= pos.1 ->
   g.1 - ppqn s / 8 <= _pixelToTick s pos.1 /\ _pixelToTick s pos.1 < g.1 + ppqn s / 8) /\
  (0 <= pos.2 -> pos.2 < inject_Z totalPitches * noteHeight ->
   _pitchToPixel g.2 <= pos.2 /\ pos.2 < _pitchToPixel g.2 + noteHeight).
Proof.
  intros Hp. cbn zeta. unfold _pixelToGrid. cbn [fst snd].
  assert (~ ppqn s == 0) as Hp0 by lra.
  pose proof (quantum_pixels s Hp0) as Hq.
  set (k := round (pos.1 / _tickToPixel s (ppqn s / 4))).
  assert (0 < ppqn s / 4) as Hq4 by (unfold Qdiv; change (/ 4) with (1 # 4); lra).
  split; [apply Q.le_max_l |]. split; [| split; [lia |]]; [| split].
  - destruct (Z_le_gt_dec 0 k) as [Hk | Hk].
    + exists k. split; [exact Hk |]. apply Q.max_r.
      apply Qmult_le_0_compat; [apply inject_Z_nonneg, Hk | lra].
    + exists 0%Z. split; [lia |]. rewrite Q.max_l; [ring |].
      pose proof (inject_Z_nonpos k ltac:(lia)) as Hk'.
      set (q4 := ppqn s / 4) in *. nra.
  - intros Hx.
    assert (0 <= pos.1 / _tickToPixel s (ppqn s / 4)) as Hx'.
    { rewrite Hq. unfold Qdiv. change (/ 16) with (1 # 16). lra. }
    pose proof (round_nonneg _ Hx') as Hk. fold k in Hk.
    pose proof (inject_Z_nonneg k Hk) as Hk'.
    rewrite Q.max_r by (apply Qmult_le_0_compat; [exact Hk' | lra]).
    destruct (round_spec (pos.1 / _tickToPixel s (ppqn s / 4))) as [Hlo Hhi]. fold k in Hlo, Hhi.
    assert (pos.1 / _tickToPixel s (ppqn s / 4) == pos.1 / 16) as Hx16 by (rewrite Hq; reflexivity).
    rewrite Hx16 in Hlo, Hhi.
    unfold _pixelToTick, beatWidth.
    assert (pos.1 / 64 * ppqn s == pos.1 / 16 * (ppqn s / 4)) as -> by field.
    assert (ppqn s / 8 == (1 # 2) * (ppqn s / 4)) as -> by field.
    set (q4 := ppqn s / 4) in *. set (x := pos.1 / 16) in *.
    split; nra.
  - intros Hy0 Hy1. unfold totalPitches, noteHeight in *.
    change (inject_Z 128) with 128 in Hy1.
    set (row := Qfloor (pos.2 / 16)).
    assert (inject_Z row <= pos.2 * (1 # 16) /\ pos.2 * (1 # 16) < inject_Z row + 1) as [Hle Hlt].
    { pose proof (Qfloor_le (pos.2 / 16)) as Hle. pose proof (Qlt_floor (pos.2 / 16)) as Hlt.
      rewrite inject_Z_plus in Hlt. change (inject_Z 1) with 1 in Hlt.
      fold row in Hle, Hlt. unfold Qdiv in Hle, Hlt. change (/ 16) with (1 # 16) in Hle, Hlt.
      split; assumption. }
    assert (0 <= row <= 127)%Z as Hrow.
    { split.
      - rewrite Zle_Qle. change (inject_Z 0) with 0.
        assert (-1 < inject_Z row) as H1 by lra.
        change (-1) with (inject_Z (-1)) in H1. rewrite <- Zlt_Qlt in H1.
        apply inject_Z_nonneg. lia.
      - assert (row < 128)%Z; [| lia]. rewrite Zlt_Qlt.
        change (inject_Z 128) with 128. lra. }
    rewrite Z.max_r, Z.min_r by lia.
    unfold _pitchToPixel, totalPitches, noteHeight.
    replace (128 - 1 - (128 - 1 - row))%Z with row by lia.
    split; lra.
Qed.

Lemma pixelToGrid_snaps_witness :
  0 < ppqn demo /\ 0 <= (_pixelToGrid demo (50, 40)).1.
Proof.
  split; [reflexivity |]. exact (proj1 (pixelToGrid_snaps demo (50, 40) eq_refl)).
Defined.

Lemma grid_point_fixed s (k pitch : Z) (x y : Q) :
  0 < ppqn s -> (0 <= k)%Z -> (0 <= pitch <= 127)%Z ->
  x == _tickToPixel s (inject_Z k * (ppqn s / 4)) -> y == _pitchToPixel pitch ->
  (_pixelToGrid s (x, y)).1 == inject_Z k * (ppqn s / 4) /\ (_pixelToGrid s (x, y)).2 = pitch.
Proof.
  intros Hp Hk Hpitch Hx Hy. unfold _pixelToGrid. cbn [fst snd].
  assert (~ ppqn s == 0) as Hp0 by lra.
  assert (0 < ppqn s / 4) as Hq4 by (unfold Qdiv; change (/ 4) with (1 # 4); lra).
  split.
  - assert (x / _tickToPixel s (ppqn s / 4) == inject_Z k) as Hxk.
    { rewrite Hx. unfold _tickToPixel, beatWidth. field. exact Hp0. }
    unfold round. rewrite (Qfloor_comp _ (inject_Z k + (1 # 2))) by (rewrite Hxk; reflexivity).
    fold (round (inject_Z k)). rewrite round_inject.
    apply Q.max_r. apply Qmult_le_0_compat; [apply inject_Z_nonneg, Hk | lra].
  - rewrite (Qfloor_comp _ (inject_Z (128 - 1 - pitch))).
    + rewrite Qfloor_Z. unfold totalPitches. lia.
    + rewrite Hy. unfold _pitchToPixel, totalPitches, noteHeight. field.
Qed.

(** A point of the grid is snapped to itself: [_pixelToGrid] takes the
    corner that [_tickToPixel] and [_pitchToPixel] give for a grid tick
    and a pitch back to that tick and pitch. *)
Theorem pixelToGrid_of_grid_point (s : state) (k pitch : Z) :
  0 < ppqn s -> (0 <= k)%Z -> (0 <= pitch <= 127)%Z ->
  let tick := inject_Z k * (ppqn s / 4) in
  let g := _pixelToGrid s (_tickToPixel s tick, _pitchToPixel pitch) in
  g.1 == tick /\ g.2 = pitch.
Proof.
  intros Hp Hk Hpitch. cbn zeta.
  apply grid_point_fixed; [exact Hp | exact Hk | exact Hpitch | |]; reflexivity.
Qed.

Lemma pixelToGrid_of_grid_point_witness :
  (_pixelToGrid demo (_tickToPixel demo (inject_Z 3 * (ppqn demo / 4)), _pitchToPixel 60)).2 = 60%Z.
Proof.
  refine (proj2 (pixelToGrid_of_grid_point demo 3 60 eq_refl _ _)); lia.
Defined.

(** *** Adding a note *)

Lemma save_frame s :
  heap (_saveStateForUndo s) = heap s /\ nextLoc (_saveStateForUndo s) = nextLoc s /\
  notes (_saveStateForUndo s) = notes s /\ selectedNotes (_saveStateForUndo s) = selectedNotes s /\
  out (_saveStateForUndo s) = out s /\ ppqn (_saveStateForUndo s) = ppqn s /\
  bpm (_saveStateForUndo s) = bpm s.
Proof.
  unfold _saveStateForUndo. cbn zeta. destruct (MAX_HISTORY <? _)%nat; repeat split.
Qed.

Lemma items_app_fresh (h : gmap loc item) (ls : list loc) (l : loc) (it : item) :
  l ∉ ls ->
  omap (fun l' => <[l := it]> h !! l') (ls ++ [l]) = omap (fun l' => h !! l') ls ++ [it].
Proof.
  intros Hl. rewrite omap_app. cbn. rewrite lookup_insert_eq. f_equal.
  induction ls as [| a ls IH]; [reflexivity |].
  apply not_elem_of_cons in Hl as [Hne Hl]. cbn.
  rewrite lookup_insert_ne by congruence. rewrite IH by exact Hl. reflexivity.
Qed.

Lemma well_formed_fresh s : well_formed s -> nextLoc s ∉ notes s.
Proof. intros Hwf Hin. destruct (Hwf _ Hin) as [Hlt _]. lia. Qed.

(** In add mode a pointer-down on the grid appends one new note to the
    collection and selects it alone.  The note lies at the grid point
    that [_pixelToGrid] gives for the pointer, a tick that is not
    negative and a pitch from 0 to 127, and has velocity 100, the
    current channel and the current note size; the objects that were
    there stay as they are.  [onPlayNote] is called for the note exactly
    when [playOnClick] is set, the redo stack is emptied, and [undo]
    takes the note away again. *)
Theorem grid_click_adds_note (c : settings) (v : view) (pos : Q * Q) (s : state) :
  mode_of c = add -> 0 < ppqn s -> well_formed s ->
  let s' := (_handleGridMouseDown c v pos s).1 in
  exists l n,
    notes s' = (notes s ++ [l]) /\ (l ∉ notes s) /\ selectedNotes s' = [l] /\
    items s' = (items s ++ [Note n]) /\
    (start_tick n, pitch n) = _pixelToGrid s (_getGridPos v pos) /\
    0 <= start_tick n /\ (0 <= pitch n <= 127)%Z /\
    velocity n = 100%Z /\ channel n = currentChannel c /\ duration_ticks n = noteSize c /\
    wasAddingNote s' = true /\ redoHistory s' = [] /\
    out s' = (out s ++ if playOnClick c then [PlayNote (pitch n) 100 (currentChannel c)] else []) /\
    items (undo s') = items s /\
    well_formed s'.
Proof.
  intros Hmode _ Hwf. cbn zeta. unfold _handleGridMouseDown. rewrite Hmode. cbn zeta.
  pose proof (well_formed_fresh s Hwf) as Hfresh.
  set (s0 := set_selectedNotes [] s).
  destruct (save_frame s0) as (Hheap & Hnext & Hnotes & _ & Hout & Hppqn & _).
  destruct (saveStateForUndo_spec s0) as [Hredo Hundo].
  pose proof (saveStateForUndo_last s0) as [rest Hlast].
  change (items s0) with (items s) in Hlast.
  change (heap s0) with (heap s) in Hheap. change (nextLoc s0) with (nextLoc s) in Hnext.
  change (notes s0) with (notes s) in Hnotes. change (out s0) with (out s) in Hout.
  change (ppqn s0) with (ppqn s) in Hppqn.
  assert (_pixelToGrid (_saveStateForUndo s0) (_getGridPos v pos)
          = _pixelToGrid s (_getGridPos v pos)) as Hgrid.
  { unfold _pixelToGrid, _tickToPixel. rewrite Hppqn. reflexivity. }
  rewrite Hgrid. set (g := _pixelToGrid s (_getGridPos v pos)).
  clear Hundo Hgrid Hppqn.
  destruct (_saveStateForUndo s0) as [].
  cbn in Hheap, Hnext, Hnotes, Hout, Hredo, Hlast. subst.
  set (n := mkNote g.2 100 (currentChannel c) g.1 (noteSize c) None).
  exists (nextLoc s), n.
  assert ((0 <= g.2 <= 127)%Z /\ 0 <= g.1) as [Hpitch Htick].
  { unfold g, _pixelToGrid. cbn [fst snd]. split; [lia | apply Q.le_max_l]. }
  unfold alloc; destruct (playOnClick c); cbn -[undo g];
    (split; [reflexivity |]); (split; [exact Hfresh |]); (split; [reflexivity |]);
    (split; [apply items_app_fresh, Hfresh |]);
    (split; [destruct g; reflexivity |]);
    (split; [exact Htick |]); (split; [exact Hpitch |]);
    (split; [reflexivity |]); (split; [reflexivity |]); (split; [reflexivity |]);
    (split; [reflexivity |]); (split; [reflexivity |]);
    (split; [rewrite ?app_nil_r; reflexivity |]);
    (split; [match goal with |- items (undo ?s') = _ =>
               exact (proj1 (undo_spec s' (items s) rest eq_refl)) end |]);
    intros l Hl; cbn in Hl |- *;
    (apply elem_of_app in Hl as [Hin | Hin];
     [ destruct (Hwf l Hin) as [Hlt Hsome];
       split; [lia | rewrite lookup_insert_ne by lia; exact Hsome]
     | apply list_elem_of_singleton in Hin as ->;
       split; [lia | rewrite lookup_insert_eq; eexists; reflexivity] ]).
Qed.

Lemma grid_click_adds_note_witness :
  wasAddingNote (_handleGridMouseDown pencil (mkView 0 0) (228, 62) demo).1 = true.
Proof.
  assert (well_formed demo) as Hwf.
  { intros l Hl. vm_compute in Hl. apply list_elem_of_singleton in Hl as ->.
    split; [reflexivity | vm_compute; eexists; reflexivity]. }
  destruct (grid_click_adds_note pencil (mkView 0 0) (228, 62) demo eq_refl eq_refl Hwf)
    as (l & n & H).
  apply H.
Defined.

(** *** Clicking and dragging notes *)

Lemma clicked_selection_spec modifier note sel l :
  l ∈ clicked_selection modifier note sel <->
  if modifier
  then (if decide (l = note) then note ∉ sel else l ∈ sel)
  else (if decide (note ∈ sel) then l ∈ sel else l = note).
Proof.
  unfold clicked_selection. destruct modifier.
  - case_bool_decide as Hin.
    + rewrite list_elem_of_In, filter_In, <- list_elem_of_In, negb_true_iff, bool_decide_eq_false.
      destruct (decide (l = note)) as [-> | Hne]; tauto.
    + rewrite elem_of_app, list_elem_of_singleton.
      destruct (decide (l = note)) as [-> | Hne]; tauto.
  - case_bool_decide as Hin; destruct (decide (note ∈ sel)); try contradiction.
    + reflexivity.
    + apply list_elem_of_singleton.
Qed.

(** A pointer-down on a note completes, whatever the selection holds. *)
Lemma noteMouseDown_spec c v modifier note pos s (n : PianoRoll.note) :
  heap s !! note = Some (Note n) ->
  exists s1 tm,
    _handleNoteMouseDown c v modifier note pos s
      = Some (s1, offset_of v pos s <$> clicked_selection modifier note (selectedNotes s), tm) /\
    heap s1 = heap s /\ notes s1 = notes s /\ ppqn s1 = ppqn s /\
    selectedNotes s1 = clicked_selection modifier note (selectedNotes s) /\
    isDragging s1 = true /\
    potentialDeselect s1 =
      (if negb modifier && bool_decide (note ∈ selectedNotes s) then true
       else potentialDeselect s) /\
    same_history (_saveStateForUndo s) s1 /\
    out s1 = (out s ++ if playOnClick c then [PlayNote (pitch n) (velocity n) (channel n)]
                       else []).
Proof.
  intros Hnote. unfold _handleNoteMouseDown. rewrite Hnote.
  destruct (save_frame s) as (Hheap & _ & Hnotes & Hsel & Hout & Hppqn & _).
  assert (potentialDeselect (_saveStateForUndo s) = potentialDeselect s) as Hpot.
  { unfold _saveStateForUndo. cbn zeta. destruct (MAX_HISTORY <? _)%nat; reflexivity. }
  cbn zeta.
  assert (forall sx, heap sx = heap s -> ppqn sx = ppqn s ->
            offset_of v pos sx = offset_of v pos s) as Hoff.
  { intros sx Hh Hp. unfold offset_of, _tickToPixel. rewrite Hh, Hp. reflexivity. }
  destruct (_saveStateForUndo s) as [].
  cbn in Hheap, Hnotes, Hsel, Hout, Hppqn, Hpot. subst.
  unfold clicked_selection, same_history.
  destruct (playOnClick c), modifier; cbn -[offset_of];
    destruct (bool_decide (note ∈ selectedNotes s)); cbn -[offset_of];
    eexists _, _; (split; [rewrite Hoff by reflexivity; reflexivity |]);
    repeat split; rewrite ?app_nil_r; reflexivity.
Qed.

Lemma pixelToGrid_ppqn s s' p : ppqn s' = ppqn s -> _pixelToGrid s' p = _pixelToGrid s p.
Proof. intros Hp. unfold _pixelToGrid, _tickToPixel. rewrite Hp. reflexivity. Qed.

Lemma drag_fold v0 pos0 s0 v pos ls : forall s nan,
  dragged_from s0 s ->
  let r := fold_left (drag_one v pos) (offset_of v0 pos0 s0 <$> ls) (s, nan) in
  exists h',
    r.1 = set_heap h' s /\
    r.2 = nan ++ List.filter (fun l => negb (is_note s0 l)) ls /\
    (forall k, k ∉ ls \/ is_note s0 k = false -> h' !! k = heap s !! k) /\
    (forall k n, k ∈ ls -> heap s0 !! k = Some (Note n) ->
       let g := dragged_to s0 v0 pos0 v pos n in
       h' !! k = Some (Note (mkNote g.2 (velocity n) (channel n) g.1 (duration_ticks n)
                               (originalDuration n)))).
Proof.
  induction ls as [| l ls IH]; intros s nan [Hppqn Hrel]; cbn zeta.
  - exists (heap s). cbn. split; [destruct s; reflexivity |].
    split; [rewrite app_nil_r; reflexivity |]. split; [reflexivity |].
    intros k n Hk. inversion Hk.
  - rewrite fmap_cons. cbn [fold_left List.filter].
    pose proof (Hrel l) as Hl.
    destruct (heap s0 !! l) as [[n0 | o0] |] eqn:Hl0.
    + destruct Hl as (n' & Hn' & Hv & Hc & Hd & Ho).
      assert (is_note s0 l = true) as -> by (unfold is_note; rewrite Hl0; reflexivity).
      cbn [negb].
      set (g := dragged_to s0 v0 pos0 v pos n0).
      set (m := mkNote g.2 (velocity n0) (channel n0) g.1 (duration_ticks n0)
                  (originalDuration n0)).
      set (s1 := set_heap (<[l := Note m]> (heap s)) s).
      assert (drag_one v pos (s, nan) (offset_of v0 pos0 s0 l) = (s1, nan)) as ->.
      { unfold offset_of, drag_one. rewrite Hl0. cbn [fst snd]. rewrite Hn'. cbn zeta.
        rewrite (pixelToGrid_ppqn s0 s) by exact Hppqn. rewrite Hv, Hc, Hd, Ho. reflexivity. }
      assert (heap s1 = <[l := Note m]> (heap s)) as Hh1 by reflexivity.
      assert (dragged_from s0 s1) as Hrel1.
      { split; [exact Hppqn |]. intros k. rewrite Hh1.
        destruct (decide (l = k)) as [<- | Hne].
        - rewrite Hl0, lookup_insert_eq. exists m. repeat split.
        - rewrite lookup_insert_ne by exact Hne. apply Hrel. }
      destruct (IH s1 nan Hrel1) as (h' & Hrun & Hnan & Hout & Hin). cbn zeta in *.
      exists h'. split; [rewrite Hrun; reflexivity |]. split; [exact Hnan |]. split.
      * intros k Hk. rewrite (Hout k), Hh1.
        -- apply lookup_insert_ne. intros <-.
           destruct Hk as [Hk | Hk]; [apply Hk; left |].
           unfold is_note in Hk. rewrite Hl0 in Hk. discriminate.
        -- destruct Hk as [Hk | Hk]; [left | right; exact Hk].
           intros Hin'. apply Hk. right. exact Hin'.
      * intros k n Hk Hn.
        destruct (decide (k ∈ ls)) as [Hkr | Hkr]; [apply (Hin k n Hkr Hn) |].
        apply elem_of_cons in Hk as [-> | Hk]; [| contradiction].
        rewrite Hl0 in Hn. injection Hn as <-.
        rewrite (Hout l) by (left; exact Hkr). rewrite Hh1. apply lookup_insert_eq.
    + assert (is_note s0 l = false) as -> by (unfold is_note; rewrite Hl0; reflexivity).
      assert (drag_one v pos (s, nan) (offset_of v0 pos0 s0 l) = (s, nan ++ [l])) as ->.
      { unfold offset_of, drag_one. rewrite Hl0. cbn [fst snd].
        destruct (heap s !! l) as [[? | ?] |]; reflexivity. }
      destruct (IH s (nan ++ [l]) (conj Hppqn Hrel)) as (h' & Hrun & Hnan & Hout & Hin).
      cbn zeta in *. cbn [negb].
      exists h'. split; [exact Hrun |]. split; [rewrite Hnan, <- app_assoc; reflexivity |].
      split.
      * intros k Hk. apply Hout. destruct Hk as [Hk | Hk]; [left | right; exact Hk].
        intros Hin'. apply Hk. right. exact Hin'.
      * intros k n Hk Hn. apply elem_of_cons in Hk as [-> | Hk]; [congruence |].
        apply (Hin k n Hk Hn).
    + assert (is_note s0 l = false) as -> by (unfold is_note; rewrite Hl0; reflexivity).
      assert (drag_one v pos (s, nan) (offset_of v0 pos0 s0 l) = (s, nan ++ [l])) as ->.
      { unfold offset_of, drag_one. rewrite Hl0. cbn [fst snd].
        destruct (heap s !! l) as [[? | ?] |]; reflexivity. }
      destruct (IH s (nan ++ [l]) (conj Hppqn Hrel)) as (h' & Hrun & Hnan & Hout & Hin).
      cbn zeta in *. cbn [negb].
      exists h'. split; [exact Hrun |]. split; [rewrite Hnan, <- app_assoc; reflexivity |].
      split.
      * intros k Hk. apply Hout. destruct Hk as [Hk | Hk]; [left | right; exact Hk].
        intros Hin'. apply Hk. right. exact Hin'.
      * intros k n Hk Hn. apply elem_of_cons in Hk as [-> | Hk]; [congruence |].
        apply (Hin k n Hk Hn).
Qed.

(** A pointer-down on a note and a drag, for ppqn > 0 and whatever the
    selection holds.  Both complete.  The drag moves the selected notes
    and nothing else: the collection holds the same objects in the same
    order; an object that is not selected, or is not a note, is as it
    was in the store; a selected note keeps its velocity, channel and
    duration and lies at the grid point for its old corner shifted by
    the way of the pointer, at a tick that is not negative and a pitch
    from 0 to 127.  The selected objects that are not notes are the
    ones to which the code assigns NaN.  A drag that comes back to where
    the pointer went down leaves a note of the grid where it was. *)
Theorem note_drag (c : settings) (v0 : view) (modifier : bool) (note : loc) (pos0 : Q * Q)
    (s : state) (n0 : PianoRoll.note) (v : view) (pos : Q * Q) :
  0 < ppqn s -> heap s !! note = Some (Note n0) ->
  exists s1 offsets tm,
    _handleNoteMouseDown c v0 modifier note pos0 s = Some (s1, offsets, tm) /\
    let s' := (_handleNoteDrag v pos offsets s1).1 in
    notes s' = notes s /\ selectedNotes s' = selectedNotes s1 /\
    (_handleNoteDrag v pos offsets s1).2
      = List.filter (fun l => negb (is_note s l)) (selectedNotes s1) /\
    (forall l, l ∉ selectedNotes s1 \/ is_note s l = false -> heap s' !! l = heap s !! l) /\
    (forall l n, l ∈ selectedNotes s1 -> heap s !! l = Some (Note n) ->
       exists n', heap s' !! l = Some (Note n') /\
         (start_tick n', pitch n') = dragged_to s v0 pos0 v pos n /\
         0 <= start_tick n' /\ (0 <= pitch n' <= 127)%Z /\
         velocity n' = velocity n /\ channel n' = channel n /\
         duration_ticks n' = duration_ticks n /\
         (forall k : Z, v = v0 -> pos = pos0 -> (0 <= k)%Z ->
            start_tick n == inject_Z k * (ppqn s / 4) -> (0 <= pitch n <= 127)%Z ->
            start_tick n' == start_tick n /\ pitch n' = pitch n)).
Proof.
  intros Hp Hnote.
  destruct (noteMouseDown_spec c v0 modifier note pos0 s n0 Hnote)
    as (s1 & tm & Hdown & Hheap & Hnotes & Hppqn & Hsel & _).
  rewrite <- Hsel in Hdown.
  exists s1, (offset_of v0 pos0 s <$> selectedNotes s1), tm. split; [exact Hdown |]. cbn zeta.
  assert (dragged_from s s1) as Hrel.
  { split; [exact Hppqn |]. intros k. rewrite Hheap.
    destruct (heap s !! k) as [[n | o] |]; [| reflexivity | reflexivity].
    exists n. repeat split. }
  destruct (drag_fold v0 pos0 s v pos (selectedNotes s1) s1 [] Hrel)
    as (h' & Hrun & Hnan & Hout & Hin). cbn zeta in *.
  fold (_handleNoteDrag v pos (offset_of v0 pos0 s <$> selectedNotes s1) s1) in Hrun, Hnan.
  rewrite Hrun, Hnan.
  split; [exact Hnotes |]. split; [reflexivity |]. split; [reflexivity |].
  split; [intros l Hl; cbn; rewrite (Hout l Hl), Hheap; reflexivity |].
  intros l n Hl Hn. eexists. split; [cbn; apply (Hin l n Hl Hn) |].
  cbn [start_tick pitch velocity channel duration_ticks].
  split; [destruct (dragged_to _ _ _ _ _ _); reflexivity |].
  split; [apply Q.le_max_l |]. split; [cbn; lia |].
  split; [reflexivity |]. split; [reflexivity |]. split; [reflexivity |].
  intros k -> -> Hk Hgrid Hpitch. unfold dragged_to.
  destruct (grid_point_fixed s k (pitch n)
              ((_getGridPos v0 pos0).1 - ((_getGridPos v0 pos0).1 - _tickToPixel s (start_tick n)))
              ((_getGridPos v0 pos0).2 - ((_getGridPos v0 pos0).2 - _pitchToPixel (pitch n)))
              Hp Hk Hpitch) as [Ht Hpi].
  - unfold _tickToPixel. rewrite Hgrid. ring.
  - ring.
  - split; [rewrite Ht, Hgrid; reflexivity | exact Hpi].
Qed.

Lemma note_drag_witness :
  exists s1 offsets tm,
    _handleNoteMouseDown pencil (mkView 0 0) false 1%positive (110, 1110)
      (set_selectedNotes [1%positive; 2%positive] with_program) = Some (s1, offsets, tm) /\
    (_handleNoteDrag (mkView 0 0) (174, 1094) offsets s1).2 = [2%positive].
Proof.
  destruct (note_drag pencil (mkView 0 0) false 1%positive (110, 1110)
              (set_selectedNotes [1%positive; 2%positive] with_program)
              (mkNote 60 100 0 (inject_Z 0) (inject_Z 96) None)
              (mkView 0 0) (174, 1094) eq_refl eq_refl)
    as (s1 & offsets & tm & Hdown & _ & _ & Hnan & _).
  exists s1, offsets, tm. split; [exact Hdown |].
  rewrite Hnan. apply (f_equal selectedNotes) in Hdown || idtac.
  destruct (noteMouseDown_spec pencil (mkView 0 0) false 1%positive (110, 1110)
              (set_selectedNotes [1%positive; 2%positive] with_program)
              (mkNote 60 100 0 (inject_Z 0) (inject_Z 96) None) eq_refl)
    as (s1' & tm' & Hdown' & _ & _ & _ & Hsel & _).
  rewrite Hdown' in Hdown. injection Hdown as <- _ _. rewrite Hsel. vm_compute. reflexivity.
Defined.

(** A click on a note, pointer-down and pointer-up, whatever the
    selection holds.  The pointer-down completes and selects: with shift
    or ctrl held it toggles the note in the selection; without, it keeps
    a selection that holds the note and replaces any other by the note
    alone.  The release then empties the selection, leaves the
    collection as it was, ends the drag, and leaves on the undo stack
    the snapshot that the pointer-down took. *)
Theorem note_click (c : settings) (v : view) (modifier : bool) (note : loc) (pos : Q * Q)
    (s : state) (n0 : PianoRoll.note) (v' : view) :
  heap s !! note = Some (Note n0) ->
  exists s1 offsets tm,
    _handleNoteMouseDown c v modifier note pos s = Some (s1, offsets, tm) /\
    (forall l, l ∈ selectedNotes s1 <->
       if modifier
       then (if decide (l = note) then note ∉ selectedNotes s else l ∈ selectedNotes s)
       else (if decide (note ∈ selectedNotes s) then l ∈ selectedNotes s else l = note)) /\
    isDragging s1 = true /\
    out s1 = (out s ++ if playOnClick c then [PlayNote (pitch n0) (velocity n0) (channel n0)]
                       else []) /\
    let s2 := _onInteractionEnd v' s1 in
    selectedNotes s2 = [] /\ items s2 = items s /\
    isDragging s2 = false /\ potentialDeselect s2 = false /\
    same_history (_saveStateForUndo s) s2 /\ covers_notes s2.
Proof.
  intros Hnote.
  destruct (noteMouseDown_spec c v modifier note pos s n0 Hnote)
    as (s1 & tm & Hdown & Hheap & Hnotes & _ & Hsel & Hdrag & _ & Hhist & Hout).
  eexists s1, _, tm. split; [exact Hdown |].
  split; [intros l; rewrite Hsel; apply clicked_selection_spec |].
  split; [exact Hdrag |]. split; [exact Hout |]. cbn zeta.
  assert (isDragging s1 || isResizing s1 || wasAddingNote s1 = true) as Hflags
    by (rewrite Hdrag; reflexivity).
  destruct (onInteractionEnd_recalculates v' s1 Hflags) as (Hn2 & Hh2 & Hd2).
  assert (items (_onInteractionEnd v' s1) = items s) as Hitems.
  { unfold items. rewrite Hn2, Hh2, Hnotes, Hheap. reflexivity. }
  assert (covers_notes (_onInteractionEnd v' s1)) as Hcov.
  { intros l n Hl Hn. rewrite Hn2 in Hl. rewrite Hh2 in Hn. rewrite Hd2.
    exact (recalculate_covers_notes s1 l n Hl Hn). }
  assert (same_history s1 (_onInteractionEnd v' s1)) as [Hu Hr].
  { destruct s1. unfold _onInteractionEnd. cbn.
    destruct potentialDeselect0, isDragging0, isResizing0, wasAddingNote0,
      isMarqueeSelecting0, isPanning0; split; reflexivity. }
  destruct Hhist as [Hu1 Hr1].
  split; [| split; [exact Hitems |]; split; [| split; [| split; [| exact Hcov]]]].
  - clear -Hdrag. destruct s1. cbn in Hdrag. subst. unfold _onInteractionEnd. cbn.
    destruct potentialDeselect0, isResizing0, wasAddingNote0, isMarqueeSelecting0, isPanning0;
      reflexivity.
  - clear. destruct s1. unfold _onInteractionEnd. cbn.
    destruct potentialDeselect0, isDragging0, isResizing0, wasAddingNote0,
      isMarqueeSelecting0, isPanning0; reflexivity.
  - clear. destruct s1. unfold _onInteractionEnd. cbn.
    destruct potentialDeselect0, isDragging0, isResizing0, wasAddingNote0,
      isMarqueeSelecting0, isPanning0; reflexivity.
  - split; congruence.
Qed.

Lemma note_click_witness :
  exists s1 offsets tm,
    _handleNoteMouseDown pencil (mkView 0 0) true 1%positive (110, 1110)
      (set_selectedNotes [1%positive; 2%positive] with_program) = Some (s1, offsets, tm) /\
    selectedNotes (_onInteractionEnd (mkView 0 0) s1) = [].
Proof.
  destruct (note_click pencil (mkView 0 0) true 1%positive (110, 1110)
              (set_selectedNotes [1%positive; 2%positive] with_program)
              (mkNote 60 100 0 (inject_Z 0) (inject_Z 96) None) (mkView 0 0) eq_refl)
    as (s1 & offsets & tm & Hdown & _ & _ & _ & Hsel & _).
  exists s1, offsets, tm. split; [exact Hdown | exact Hsel].
Defined.

(** *** The hit test *)

Lemma find_rev_last {A} (p : A -> bool) (l : list A) :
  match List.find p (rev l) with
  | Some x => exists i, l !! i = Some x /\ p x = true /\
                forall j y, (i < j)%nat -> l !! j = Some y -> p y = false
  | None => forall y, y ∈ l -> p y = false
  end.
Proof.
  induction l as [| a l IH] using rev_ind; [intros y Hy; inversion Hy |].
  rewrite rev_app_distr. cbn [rev app find]. destruct (p a) eqn:Hpa.
  - exists (length l). split; [apply list_lookup_middle; reflexivity |]. split; [exact Hpa |].
    intros j y Hj Hy. apply lookup_lt_Some in Hy. rewrite length_app in Hy. cbn in Hy. lia.
  - destruct (find p (rev l)) as [x |].
    + destruct IH as (i & Hi & Hpx & Hlast). exists i.
      split; [apply lookup_app_l_Some, Hi |]. split; [exact Hpx |].
      intros j y Hj Hy. apply lookup_app_Some in Hy as [Hy | [Hlen Hy]].
      * eapply Hlast; eassumption.
      * destruct (j - length l)%nat; cbn in Hy; [| discriminate]. congruence.
    + intros y Hy. apply elem_of_app in Hy as [Hy | Hy]; [apply IH, Hy |].
      apply list_elem_of_singleton in Hy as ->. exact Hpa.
Qed.

Lemma hit_spec c s g l :
  match heap s !! l with Some it => hit c s g it | None => false end = true <->
  under_pointer c s g l.
Proof.
  unfold under_pointer, on_note. destruct (heap s !! l) as [[n | o] |].
  - cbn. unfold Qleb. rewrite !andb_true_iff, negb_true_iff, bool_decide_eq_false.
    rewrite !Qgeb_ge, !Qle_bool_iff. split.
    + intros (Hhid & ((H1 & H2) & H3) & H4). exists n. tauto.
    + intros (n' & [= <-] & Hhid & H1 & H2 & H3 & H4). tauto.
  - split; [discriminate | intros (n & Hn & _); discriminate].
  - split; [discriminate | intros (n & Hn & _); discriminate].
Qed.

(** [_getNoteAt] returns the last object of the collection that is a
    note of a visible channel under the pointer, and nothing for a
    pointer in the timeline or when there is no such note. *)
Theorem getNoteAt_topmost (c : settings) (v : view) (x y : Q) (s : state) :
  0 < ppqn s ->
  match _getNoteAt c v x y s with
  | Some l =>
      timelineHeight <= y /\
      exists i, notes s !! i = Some l /\ under_pointer c s (_getGridPos v (x, y)) l /\
        forall j l', (i < j)%nat -> notes s !! j = Some l' ->
                     ~ under_pointer c s (_getGridPos v (x, y)) l'
  | None =>
      y < timelineHeight \/
      forall l, l ∈ notes s -> ~ under_pointer c s (_getGridPos v (x, y)) l
  end.
Proof.
  intros _. unfold _getNoteAt. destruct (Qltb y timelineHeight) eqn:Hy.
  - left. apply Qltb_lt, Hy.
  - apply Qltb_ge in Hy. cbn zeta.
    pose proof (find_rev_last
                  (fun l => match heap s !! l with
                            | Some it => hit c s (_getGridPos v (x, y)) it
                            | None => false
                            end) (notes s)) as Hfind.
    destruct (find _ (rev (notes s))) as [l |].
    + destruct Hfind as (i & Hi & Hp & Hlast). split; [exact Hy |].
      exists i. split; [exact Hi |]. split; [apply hit_spec, Hp |].
      intros j l' Hj Hl' Hunder. apply hit_spec in Hunder.
      rewrite (Hlast j l' Hj Hl') in Hunder. discriminate.
    + right. intros l Hl Hunder. apply hit_spec in Hunder.
      rewrite (Hfind l Hl) in Hunder. discriminate.
Qed.

Lemma getNoteAt_topmost_witness :
  exists l, _getNoteAt pencil (mkView 0 0) 110 1110 demo = Some l /\ timelineHeight <= 1110.
Proof.
  pose proof (getNoteAt_topmost pencil (mkView 0 0) 110 1110 demo eq_refl) as H.
  destruct (_getNoteAt pencil (mkView 0 0) 110 1110 demo) as [l |] eqn:Hl.
  - exists l. split; [reflexivity | apply H].
  - vm_compute in Hl. discriminate.
Defined.

(** *** Consecutive frames *)

Lemma update_first_unflag p b l :
  map (set_playing false) (update_first p (set_playing b) l) = map (set_playing false) l.
Proof.
  induction l as [| e l IH]; [reflexivity |]. cbn [update_first].
  destruct (p e); cbn [map]; [| rewrite IH; reflexivity].
  destruct e; reflexivity.
Qed.

Lemma fire_unflag e s :
  map (set_playing false) (lookaheadEvents (fire e s)) = map (set_playing false) (lookaheadEvents s)
  /\ lastFrameTime (fire e s) = lastFrameTime s /\ bpm (fire e s) = bpm s
  /\ ppqn (fire e s) = ppqn s.
Proof.
  unfold fire. destruct (muted s e); [repeat split |].
  destruct e; cbn; rewrite ?update_first_unflag; repeat split.
Qed.

Lemma fire_due_unflag from to l : forall s,
  let s' := fold_left (fun s e => if due from to e then fire e s else s) l s in
  map (set_playing false) (lookaheadEvents s') = map (set_playing false) (lookaheadEvents s)
  /\ lastFrameTime s' = lastFrameTime s /\ bpm s' = bpm s /\ ppqn s' = ppqn s.
Proof.
  induction l as [| e l IH]; intros s; cbn zeta; cbn [fold_left]; [repeat split |].
  destruct (due from to e); [| apply IH].
  destruct (IH (fire e s)) as (H1 & H2 & H3 & H4). cbn zeta in *.
  destruct (fire_unflag e s) as (F1 & F2 & F3 & F4).
  rewrite H1, H2, H3, H4, F1, F2, F3, F4. repeat split.
Qed.

Lemma filter_unflag (P : event -> bool) (l1 l : list event) :
  (forall e, P (set_playing false e) = P e) ->
  map (set_playing false) l1 = map (set_playing false) l ->
  map emission (List.filter P l1) = map emission (List.filter P l).
Proof.
  intros HP. revert l. induction l1 as [| a l1 IH]; intros [| b l] Hmap; try discriminate.
  - reflexivity.
  - cbn [map] in Hmap. injection Hmap as Hab Hmap. cbn [List.filter].
    rewrite <- (HP a), <- (HP b), Hab. destruct (P (set_playing false b)).
    + cbn [map]. rewrite (IH l Hmap). f_equal.
      destruct a, b; cbn in Hab |- *; try discriminate; injection Hab; intros; subst; reflexivity.
    + apply IH, Hmap.
Qed.

Lemma filter_disjoint_app {A} (P Q R : A -> bool) (l : list A) :
  (forall x, x ∈ l -> R x = P x || Q x) -> (forall x, x ∈ l -> P x && Q x = false) ->
  List.filter P l ++ List.filter Q l ≡ₚ List.filter R l.
Proof.
  induction l as [| a l IH]; intros HR Hdis; [reflexivity |].
  cbn [List.filter]. rewrite (HR a) by left. specialize (Hdis a ltac:(left)) as Ha.
  specialize (IH (fun x Hx => HR x ltac:(right; exact Hx))
                 (fun x Hx => Hdis x ltac:(right; exact Hx))).
  destruct (P a), (Q a); cbn in Ha |- *; try discriminate.
  - rewrite IH. reflexivity.
  - rewrite <- Permutation_middle, IH. reflexivity.
  - exact IH.
Qed.

(** A frame that leaves the roll playing. *)
Lemma playbackLoop_running timestamp s :
  isPlaying (_playbackLoop timestamp s) = true ->
  let s' := _playbackLoop timestamp s in
  isPlaying s = true /\ playheadTick s' = playheadTick s + elapsedTicks timestamp s /\
  lastFrameTime s' = timestamp /\ bpm s' = bpm s /\ ppqn s' = ppqn s /\
  mutedChannels s' = mutedChannels s /\ songDurationTicks s' = songDurationTicks s /\
  out s' = (out s ++ map emission (fired (playheadTick s) (playheadTick s') s)) /\
  map (set_playing false) (lookaheadEvents s') = map (set_playing false) (lookaheadEvents s).
Proof.
  cbn zeta. unfold _playbackLoop.
  destruct (isPlaying s) eqn:Hplay; cbn [negb]; [| congruence]. cbn zeta.
  set (s0 := set_lastFrameTime timestamp s).
  change (playheadTick s0) with (playheadTick s).
  set (to := playheadTick s + elapsedTicks timestamp s) in *.
  destruct (fire_due_fold (playheadTick s) to (lookaheadEvents s0) s0)
    as (Hout & Hmut & Hp & Hhead & Hdur & _ & _ & _).
  destruct (fire_due_unflag (playheadTick s) to (lookaheadEvents s0) s0)
    as (Hun & Hlast & Hbpm & Hppqn).
  cbn zeta in *. fold (fire_due (playheadTick s) to s0) in *.
  rewrite (filter_ext _ (fun e => due (playheadTick s) to e && audible (mutedChannels s) e))
    in Hout by (intros e; change (muted s0 e) with (muted s e); rewrite muted_audible; reflexivity).
  set (s1 := fire_due (playheadTick s) to s0) in *.
  change (playheadTick (set_playheadTick to s1)) with to.
  change (songDurationTicks (set_playheadTick to s1)) with (songDurationTicks s1).
  destruct (Qgtb to (songDurationTicks s1)) eqn:Hgt.
  { intros Hrun. destruct (stop_spec (set_playheadTick to s1)) as (_ & Hstop & _). congruence. }
  intros _. clearbody s1. destruct s1. cbn in *. subst. repeat split; assumption.
Qed.

Lemma due_unflag from to e : due from to (set_playing false e) = due from to e.
Proof. destruct e; reflexivity. Qed.

Lemma audible_unflag channels e : audible channels (set_playing false e) = audible channels e.
Proof. destruct e; reflexivity. Qed.

Lemma due_spec from to e : due from to e = true <-> from <= tick e /\ tick e < to.
Proof. unfold due. rewrite andb_true_iff, Qgeb_ge, Qltb_lt. reflexivity. Qed.

Lemma elem_of_fired from to s e :
  e ∈ fired from to s <->
  e ∈ lookaheadEvents s /\ (from <= tick e /\ tick e < to) /\
  match e with
  | evNoteOn _ _ _ c _ | evNoteOff _ _ c => c ∉ mutedChannels s
  | evOther _ _ => True
  end.
Proof.
  unfold fired. rewrite !list_elem_of_In, filter_In, andb_true_iff, due_spec.
  destruct e as [t p v c b | t p c | t bytes]; cbn [audible];
    rewrite ?negb_true_iff, ?bool_decide_eq_false; tauto.
Qed.

(** Two frames in a row that leave the roll playing skip nothing and
    fire nothing twice.  With [p0], [p1] and [p2] the playhead before
    the first frame, between the frames and after the second, the first
    frame calls the callbacks of the events due from [p0] to [p1], the
    second those due from [p1] to [p2], and together these are, as a
    multiset, the callbacks of the events due from [p0] to [p2]: the
    lookahead events with a tick in that interval, but for the note-on
    and note-off events of a muted channel. *)
Theorem playback_frames_compose (t1 t2 : Q) (s : state) :
  isPlaying (_playbackLoop t2 (_playbackLoop t1 s)) = true ->
  lastFrameTime s <= t1 -> t1 <= t2 -> 0 <= bpm s -> 0 <= ppqn s ->
  let s1 := _playbackLoop t1 s in
  let s2 := _playbackLoop t2 s1 in
  let p0 := playheadTick s in
  let p1 := playheadTick s1 in
  let p2 := playheadTick s2 in
  p0 <= p1 /\ p1 <= p2 /\
  out s1 = (out s ++ map emission (fired p0 p1 s)) /\
  out s2 = (out s1 ++ map emission (fired p1 p2 s)) /\
  map emission (fired p0 p1 s) ++ map emission (fired p1 p2 s)
    ≡ₚ map emission (fired p0 p2 s) /\
  (forall e, e ∈ fired p0 p2 s <->
     e ∈ lookaheadEvents s /\ (p0 <= tick e /\ tick e < p2) /\
     match e with
     | evNoteOn _ _ _ c _ | evNoteOff _ _ c => c ∉ mutedChannels s
     | evOther _ _ => True
     end).
Proof.
  intros Hrun Ht1 Ht2 Hbpm Hppqn. cbn zeta.
  destruct (playbackLoop_running t2 _ Hrun)
    as (Hp1 & Hh2 & _ & _ & _ & _ & _ & Ho2 & _).
  destruct (playbackLoop_running t1 s Hp1)
    as (_ & Hh1 & Hl1 & Hb1 & Hq1 & Hm1 & _ & Ho1 & Hu1).
  cbn zeta in *. set (s1 := _playbackLoop t1 s) in *. set (s2 := _playbackLoop t2 s1) in *.
  assert (0 <= bpm s / 60 * ppqn s) as Htps.
  { apply Qmult_le_0_compat; [| exact Hppqn].
    unfold Qdiv. change (/ 60) with (1 # 60). lra. }
  assert (0 <= elapsedTicks t1 s) as He1.
  { unfold elapsedTicks. cbn zeta. set (tps := bpm s / 60 * ppqn s) in *.
    unfold Qdiv. change (/ 1000) with (1 # 1000). nra. }
  assert (0 <= elapsedTicks t2 s1) as He2.
  { unfold elapsedTicks. cbn zeta. rewrite Hl1, Hb1, Hq1. set (tps := bpm s / 60 * ppqn s) in *.
    unfold Qdiv. change (/ 1000) with (1 # 1000). nra. }
  assert (playheadTick s <= playheadTick s1) as H01 by (rewrite Hh1; lra).
  assert (playheadTick s1 <= playheadTick s2) as H12 by (rewrite Hh2; lra).
  split; [exact H01 |]. split; [exact H12 |]. split; [exact Ho1 |].
  assert (map emission (fired (playheadTick s1) (playheadTick s2) s1)
          = map emission (fired (playheadTick s1) (playheadTick s2) s)) as Hfired.
  { unfold fired. rewrite Hm1. apply filter_unflag; [| exact Hu1].
    intros e. rewrite due_unflag, audible_unflag. reflexivity. }
  split; [rewrite Ho2, Hfired; reflexivity |].
  split; [| intros e; apply elem_of_fired].
  rewrite <- !map_app. apply Permutation_map. unfold fired.
  apply filter_disjoint_app.
  - intros e _.
    destruct (audible (mutedChannels s) e); [| rewrite !andb_false_r; reflexivity].
    rewrite !andb_true_r. apply eq_true_iff_eq. rewrite orb_true_iff, !due_spec. split.
    + intros [Hlo Hhi].
      destruct (Qlt_le_dec (tick e) (playheadTick s1)); [left | right]; split; assumption.
    + intros [[Hlo Hhi] | [Hlo Hhi]]; split; lra.
  - intros e _.
    destruct (audible (mutedChannels s) e); [| rewrite !andb_false_r; reflexivity].
    rewrite !andb_true_r. apply not_true_is_false. rewrite andb_true_iff, !due_spec. lra.
Qed.

Lemma playback_frames_compose_witness :
  out (_playbackLoop 250 (_playbackLoop 100 (play 0 demo)))
    = out (_playbackLoop 100 (play 0 demo))
      ++ map emission (fired (playheadTick (_playbackLoop 100 (play 0 demo)))
                         (playheadTick (_playbackLoop 250 (_playbackLoop 100 (play 0 demo))))
                         (play 0 demo)).
Proof.
  refine (proj1 (proj2 (proj2 (proj2
            (playback_frames_compose 100 250 (play 0 demo) _ _ _ _ _)))));
    vm_compute; first [reflexivity | discriminate].
Defined.

(** *** Track parameters *)

Lemma findIndex_spec p h ls :
  match findIndex p h ls with
  | Some i => exists l it, ls !! i = Some l /\ h !! l = Some it /\ p it = true /\
                forall j l' it', (j < i)%nat -> ls !! j = Some l' -> h !! l' = Some it' ->
                                 p it' = false
  | None => forall l it, l ∈ ls -> h !! l = Some it -> p it = false
  end.
Proof.
  induction ls as [| l ls IH]; cbn [findIndex]; [intros l it Hl; inversion Hl |].
  destruct (match h !! l with Some n => p n | None => false end) eqn:Hhead.
  - destruct (h !! l) as [it |] eqn:Hl; [| discriminate].
    exists l, it. repeat split; try assumption. intros j l' it' Hj. lia.
  - destruct (findIndex p h ls) as [i |]; cbn.
    + destruct IH as (l' & it' & H1 & H2 & H3 & H4). exists l', it'.
      repeat split; try assumption.
      intros [| j] l0 it0 Hj Hl0 Hit0; cbn in Hl0.
      * injection Hl0 as <-. rewrite Hit0 in Hhead. exact Hhead.
      * eapply H4; [| eassumption | eassumption]. lia.
    + intros l' it' Hin Hl'. apply elem_of_cons in Hin as [-> | Hin].
      * rewrite Hl' in Hhead. exact Hhead.
      * eapply IH; eassumption.
Qed.

Lemma omap_Forall2 {A B} (f : A -> option B) ls its :
  Forall2 (fun l it => f l = Some it) ls its -> omap f ls = its.
Proof. induction 1 as [| l it ls its Hl _ IH]; [reflexivity |]. cbn. rewrite Hl, IH. reflexivity. Qed.

Lemma lookup_all_Forall2 (h : gmap loc item) ls :
  (forall l, l ∈ ls -> is_Some (h !! l)) ->
  Forall2 (fun l it => h !! l = Some it) ls (omap (fun l => h !! l) ls).
Proof.
  induction ls as [| l ls IH]; intros Hall; [constructor |].
  destruct (Hall l ltac:(left)) as [it Hit]. cbn. rewrite Hit.
  constructor; [exact Hit |]. apply IH. intros l' Hl'. apply Hall. right. exact Hl'.
Qed.

Lemma items_Forall2 s :
  well_formed s -> Forall2 (fun l it => heap s !! l = Some it) (notes s) (items s).
Proof. intros Hwf. apply lookup_all_Forall2. intros l Hl. apply Hwf, Hl. Qed.

Lemma lookup_fresh_Forall2 (h : gmap loc item) ls l0 it0 :
  l0 ∉ ls -> (forall l, l ∈ ls -> is_Some (h !! l)) ->
  Forall2 (fun l it => <[l0 := it0]> h !! l = Some it) ls (omap (fun l => h !! l) ls).
Proof.
  induction ls as [| l ls IH]; intros Hfresh Hall; [constructor |].
  apply not_elem_of_cons in Hfresh as [Hne Hfresh].
  destruct (Hall l ltac:(left)) as [it Hit]. cbn. rewrite Hit.
  constructor; [rewrite lookup_insert_ne by congruence; exact Hit |].
  apply IH; [exact Hfresh |]. intros l' Hl'. apply Hall. right. exact Hl'.
Qed.

Lemma elem_of_insert_other (its : list item) i o new x :
  its !! i = Some (Other o) ->
  (exists n, x = Note n) -> x ∈ <[i := new]> its <-> x ∈ its \/ x = new.
Proof.
  intros Hi [n ->]. split.
  - intros Hin. apply list_elem_of_lookup in Hin as [j Hj].
    destruct (decide (i = j)) as [<- | Hne].
    + rewrite list_lookup_insert_eq in Hj by (eapply lookup_lt_Some, Hi). right. congruence.
    + rewrite list_lookup_insert_ne in Hj by exact Hne. left. eapply list_elem_of_lookup_2, Hj.
  - intros [Hin | ->].
    + apply list_elem_of_lookup in Hin as [j Hj]. apply list_elem_of_lookup. exists j.
      rewrite list_lookup_insert_ne; [exact Hj |]. intros <-. congruence.
    + apply list_elem_of_lookup. exists i.
      apply list_lookup_insert_eq. eapply lookup_lt_Some, Hi.
Qed.

(** [_setTrackParameter] sends its message at once and stores it in the
    collection as an other-event, at the tick of the playhead when the
    playhead was dragged less than ten seconds ago and at tick 0
    otherwise.  When the collection has no event of that tick, kind and
    channel, the event is added (the collection is then sorted again, so
    as a multiset); when it has one, the first of them is replaced in
    place.  The notes of the collection stay, the redo stack is emptied
    and [undo] brings the old collection back. *)
Theorem setTrackParameter_stores (now : Q) (channel : Z) (type : trackParameter) (value : Z)
    (s : state) (message : list Z) (kind : eventKind) :
  parameter_message channel type value = Some (message, kind) -> well_formed s ->
  let s' := _setTrackParameter now channel type value s in
  let tick := parameter_tick now s in
  let new := Other (mkOther tick message (Some kind) (Some (channel - 1)%Z)) in
  out s' = (out s ++ [MidiMessage message]) /\
  ((forall it, it ∈ items s -> same_parameter tick kind channel it = false) ->
   items s' ≡ₚ items s ++ [new]) /\
  ((exists it, it ∈ items s /\ same_parameter tick kind channel it = true) ->
   exists i o, items s !! i = Some (Other o) /\
     same_parameter tick kind channel (Other o) = true /\
     (forall j it, (j < i)%nat -> items s !! j = Some it ->
                   same_parameter tick kind channel it = false) /\
     items s' = <[i := new]> (items s)) /\
  (forall n, Note n ∈ items s' <-> Note n ∈ items s) /\
  new ∈ items s' /\
  items (undo s') = items s /\ redoHistory s' = [] /\ well_formed s'.
Proof.
  intros Hmsg Hwf. cbn zeta.
  set (tick := parameter_tick now s).
  set (new := Other (mkOther tick message (Some kind) (Some (channel - 1)%Z))).
  set (P := same_parameter tick kind channel).
  pose proof (well_formed_fresh s Hwf) as Hfresh.
  pose proof (items_Forall2 s Hwf) as Hali.
  assert (forall l, l ∈ notes s -> is_Some (heap s !! l)) as Hall by (intros l Hl; apply Hwf, Hl).
  assert (_setTrackParameter now channel type value s =
          let s := emit (MidiMessage message) s in
          let s := _saveStateForUndo s in
          let existingEventIndex := findIndex P (heap s) (notes s) in
          let '(l, s) := alloc new s in
          let s := match existingEventIndex with
                   | Some i => set_notes (<[i := l]> (notes s)) s
                   | None => set_notes (JsArray.sort (by_time_gt (heap s)) (notes s ++ [l])) s
                   end in
          _buildLookaheadEvents s) as ->.
  { unfold _setTrackParameter, parameter_message in *.
    destruct type; try discriminate; injection Hmsg as <- <-; reflexivity. }
  cbn zeta.
  set (sa := emit (MidiMessage message) s).
  destruct (save_frame sa) as (Hheap & Hnext & Hnotes & _ & Hout & _ & _).
  pose proof (saveStateForUndo_spec sa) as [Hredo _].
  pose proof (saveStateForUndo_last sa) as [rest Hlast].
  change (items sa) with (items s) in Hlast.
  change (heap sa) with (heap s) in Hheap. change (nextLoc sa) with (nextLoc s) in Hnext.
  change (notes sa) with (notes s) in Hnotes.
  change (out sa) with (out s ++ [MidiMessage message]) in Hout.
  destruct (_saveStateForUndo sa) as [].
  cbn in Hheap, Hnext, Hnotes, Hout, Hredo, Hlast. subst.
  unfold alloc. cbn beta iota zeta. cbn [heap notes nextLoc].
  pose proof (findIndex_spec P (heap s) (notes s)) as Hfind.
  destruct (findIndex P (heap s) (notes s)) as [i |].
  - (* an event of the same kind, channel and tick is replaced *)
    destruct Hfind as (l0 & it0 & Hi & Hl0 & Hp0 & Hfirst).
    assert (items s !! i = Some it0) as Hit0.
    { destruct (Forall2_lookup_l _ _ _ _ _ Hali Hi) as (it & Hit & Hl). congruence. }
    assert (exists o0, it0 = Other o0) as [o0 ->].
    { destruct it0 as [n | o0]; [discriminate | eauto]. }
    match goal with |- context [items (_buildLookaheadEvents ?sx)] => set (sb := sx) end.
    assert (items (_buildLookaheadEvents sb) = <[i := new]> (items s)) as Hitems.
    { change (items (_buildLookaheadEvents sb)) with (items sb). unfold items at 1. cbn.
      apply omap_Forall2. apply Forall2_insert; [| apply lookup_insert_eq].
      apply lookup_fresh_Forall2; assumption. }
    rewrite Hitems.
    split; [reflexivity |]. split.
    { intros Hnone. rewrite (Hnone (Other o0)) in Hp0; [discriminate |].
      eapply list_elem_of_lookup_2, Hit0. }
    split.
    { intros _. exists i, o0. split; [exact Hit0 |]. split; [exact Hp0 |].
      split; [| reflexivity]. intros j it Hj Hit.
      destruct (Forall2_lookup_r _ _ _ _ _ Hali Hit) as (l & Hl & Hlit).
      eapply Hfirst; eassumption. }
    split.
    { intros n. rewrite (elem_of_insert_other _ i o0) by eauto.
      split; [intros [H | H]; [exact H | discriminate] | tauto]. }
    split.
    { apply list_elem_of_lookup. exists i. apply list_lookup_insert_eq.
      eapply lookup_lt_Some, Hit0. }
    split; [exact (proj1 (undo_spec (_buildLookaheadEvents sb) (items s) rest eq_refl)) |].
    split; [reflexivity |].
    intros l Hl. cbn in Hl |- *.
    apply list_elem_of_lookup in Hl as [j Hj].
    destruct (decide (i = j)) as [<- | Hne].
    + rewrite list_lookup_insert_eq in Hj by (eapply lookup_lt_Some, Hi). injection Hj as <-.
      split; [lia | rewrite lookup_insert_eq; eauto].
    + rewrite list_lookup_insert_ne in Hj by exact Hne.
      apply list_elem_of_lookup_2 in Hj. destruct (Hwf l Hj) as [Hlt Hsome].
      split; [lia | rewrite lookup_insert_ne by lia; exact Hsome].
  - (* the event is added, and the collection sorted *)
    match goal with |- context [items (_buildLookaheadEvents ?sx)] => set (sb := sx) end.
    assert (items (_buildLookaheadEvents sb) ≡ₚ items s ++ [new]) as Hitems.
    { change (omap (fun l => <[nextLoc s := new]> (heap s) !! l)
                (JsArray.sort (by_time_gt (<[nextLoc s := new]> (heap s)))
                   (notes s ++ [nextLoc s])) ≡ₚ items s ++ [new]).
      rewrite (omap_Permutation _ _ _ (sort_perm _ _)).
      rewrite items_app_fresh by exact Hfresh. reflexivity. }
    split; [reflexivity |]. split; [intros _; exact Hitems |]. split.
    { intros (it & Hit & Hp). exfalso.
      apply list_elem_of_lookup in Hit as [j Hj].
      destruct (Forall2_lookup_r _ _ _ _ _ Hali Hj) as (l & Hl & Hlit).
      rewrite (Hfind l it (list_elem_of_lookup_2 _ _ _ Hl) Hlit) in Hp. discriminate. }
    split.
    { intros n. rewrite Hitems, elem_of_app, list_elem_of_singleton.
      split; [intros [H | H]; [exact H | discriminate] | tauto]. }
    split; [rewrite Hitems; apply elem_of_app; right; left |].
    split; [exact (proj1 (undo_spec (_buildLookaheadEvents sb) (items s) rest eq_refl)) |].
    split; [reflexivity |].
    intros l Hl.
    change (l ∈ JsArray.sort (by_time_gt (<[nextLoc s := new]> (heap s)))
                  (notes s ++ [nextLoc s])) in Hl.
    rewrite sort_perm in Hl. cbn.
    apply elem_of_app in Hl as [Hin | Hin].
    + destruct (Hwf l Hin) as [Hlt Hsome].
      split; [lia | rewrite lookup_insert_ne by lia; exact Hsome].
    + apply list_elem_of_singleton in Hin as ->.
      split; [lia | rewrite lookup_insert_eq; eauto].
Qed.

Lemma setTrackParameter_stores_witness :
  out (_setTrackParameter 2000 1 volume 90 demo) = out demo ++ [MidiMessage [176; 7; 90]%Z].
Proof.
  assert (well_formed demo) as Hwf.
  { intros l Hl. vm_compute in Hl. apply list_elem_of_singleton in Hl as ->.
    split; [reflexivity | vm_compute; eexists; reflexivity]. }
  exact (proj1 (setTrackParameter_stores 2000 1 volume 90 demo _ _ eq_refl Hwf)).
Defined.

(** *** The lookahead list and the playhead *)


(** [_handlePlayheadDrag] puts the playhead at the tick under the
    pointer, and at tick 0 for a pointer left of the grid.  It changes
    no object and calls no callback, rebuilds the lookahead list exactly
    when the roll is playing, and makes [_setTrackParameter] store its
    events at the playhead for the next ten seconds and at tick 0 from
    then on. *)
Theorem playhead_drag (v : view) (now : Q) (pos : Q * Q) (s : state) :
  let s' := _handlePlayheadDrag v now pos s in
  0 <= playheadTick s' /\
  playheadTick s' = Qmax 0 (_pixelToTick s (_getGridPos v pos).1) /\
  items s' = items s /\ isPlaying s' = isPlaying s /\ out s' = out s /\
  (isPlaying s = true -> lookaheadEvents s' = lookaheadEvents (_buildLookaheadEvents s)) /\
  (isPlaying s = false -> lookaheadEvents s' = lookaheadEvents s) /\
  (forall later, later - now < TEN_SECONDS -> parameter_tick later s' = playheadTick s') /\
  (forall later, TEN_SECONDS <= later - now -> parameter_tick later s' = 0).
Proof.
  cbn zeta. unfold _handlePlayheadDrag. cbn zeta.
  set (p := Qmax 0 _).
  assert (0 <= p) as Hp by apply Q.le_max_l.
  destruct (isPlaying s) eqn:Hplay.
  - change (isPlaying (set_playheadTick p s)) with (isPlaying s). rewrite Hplay.
    split; [exact Hp |]. split; [reflexivity |]. split; [reflexivity |].
    split; [exact Hplay |]. split; [reflexivity |]. split; [intros _; reflexivity |].
    split; [discriminate |]. unfold parameter_tick. cbn. split; intros later Hl.
    + apply Qltb_lt in Hl. rewrite Hl. reflexivity.
    + apply Qltb_ge in Hl. rewrite Hl. reflexivity.
  - change (isPlaying (set_playheadTick p s)) with (isPlaying s). rewrite Hplay.
    split; [exact Hp |]. split; [reflexivity |]. split; [reflexivity |].
    split; [exact Hplay |]. split; [reflexivity |]. split; [discriminate |].
    split; [intros _; reflexivity |]. unfold parameter_tick. cbn. split; intros later Hl.
    + apply Qltb_lt in Hl. rewrite Hl. reflexivity.
    + apply Qltb_ge in Hl. rewrite Hl. reflexivity.
Qed.

(** *** Saving and loading *)

Lemma integer_spec q z : integer q = Some z -> z = Qfloor q /\ inject_Z z == q.
Proof.
  unfold integer. destruct (Qeq_bool q (inject_Z (Qfloor q))) eqn:Heq; [| discriminate].
  intros [= <-]. split; [reflexivity |]. apply Qeq_bool_iff in Heq. symmetry. exact Heq.
Qed.

Lemma read_item_spec it c :
  read_item it = Some c ->
  imported c = reloaded it /\
  match it, c with
  | Note n, Codec.Note m =>
      Codec.pitch m = pitch n /\ Codec.velocity m = velocity n /\
      Codec.channel m = channel n /\ inject_Z (Codec.start_tick m) == start_tick n /\
      inject_Z (Codec.duration_ticks m) == duration_ticks n
  | Other o, Codec.Other t bytes => inject_Z t == time o /\ bytes = msg o
  | _, _ => False
  end.
Proof.
  destruct it as [n | o]; cbn [read_item].
  - destruct (integer (start_tick n)) as [t |] eqn:Ht; cbn; [| discriminate].
    destruct (integer (duration_ticks n)) as [dur |] eqn:Hd; cbn; [| discriminate].
    intros [= <-]. apply integer_spec in Ht as [-> Ht], Hd as [-> Hd]. cbn. repeat split; assumption.
  - destruct (integer (time o)) as [t |] eqn:Ht; cbn; [| discriminate].
    intros [= <-]. apply integer_spec in Ht as [-> Ht]. cbn. repeat split; assumption.
Qed.

Lemma read_items its cs :
  Forall2 (fun it c => read_item it = Some c) its cs ->
  imported <$> cs = reloaded <$> its /\
  Codec.note_key <$> MessageLists.notes_of cs
    = (fun n => (pitch n, channel n)) <$> notes_in its /\
  (Forall (fun n => 0 < duration_ticks n /\ (0 < velocity n)%Z) (notes_in its) ->
   Forall (fun m => (0 < Codec.duration_ticks m /\ 0 < Codec.velocity m)%Z)
          (MessageLists.notes_of cs)).
Proof.
  induction 1 as [| it c its cs Hread _ IH]; [repeat split; constructor |].
  destruct IH as (Himp & Hkeys & Hpos).
  destruct (read_item_spec it c Hread) as [Hit Hfields].
  split; [rewrite !fmap_cons, Hit, Himp; reflexivity |].
  destruct it as [n | o], c as [m | t bytes]; try contradiction;
    unfold MessageLists.notes_of, notes_in in *; cbn [omap list_omap] in *.
  - destruct Hfields as (Hp & Hv & Hc & _ & Hd). split.
    + rewrite !fmap_cons, Hkeys. unfold Codec.note_key, Codec.key. rewrite Hp, Hc. reflexivity.
    + intros Hall. apply Forall_cons in Hall as [[Hdur Hvel] Hall].
      constructor; [| apply Hpos, Hall]. split; [| rewrite Hv; exact Hvel].
      rewrite <- Hd in Hdur. change 0 with (inject_Z 0) in Hdur.
      rewrite Zlt_Qlt. exact Hdur.
  - split; [exact Hkeys | exact Hpos].
Qed.

(** Saving a collection with [getNotesAsJson] and loading the messages
    with [loadFromJson], for a collection with integer ticks whose notes
    have pairwise distinct (pitch, channel) keys, positive durations and
    positive velocities: every object comes back once.  A note comes
    back with its pitch, velocity, channel, start and duration; an
    other-event with its time and bytes, but without the [eventType]
    and [channel] that [_setTrackParameter] gave it, so that in the
    loaded collection no event is found as the earlier setting of a
    track parameter. *)
Theorem save_and_load (s s0 : state) (messages : list Codec.message) (ppqn' : Q) :
  getNotesAsJson s = Some messages ->
  NoDup ((fun n => (pitch n, channel n)) <$> notes_in (items s)) ->
  Forall (fun n => 0 < duration_ticks n /\ (0 < velocity n)%Z) (notes_in (items s)) ->
  let s' := loadFromJson messages ppqn' s0 in
  items s' ≡ₚ reloaded <$> items s /\
  (forall it, it ∈ items s ->
     match it, reloaded it with
     | Note n, Note n' =>
         pitch n' = pitch n /\ velocity n' = velocity n /\ channel n' = channel n /\
         start_tick n' == start_tick n /\ duration_ticks n' == duration_ticks n /\
         originalDuration n' = None
     | Other o, Other o' =>
         time o' == time o /\ msg o' = msg o /\ eventType o' = None /\ o_channel o' = None
     | _, _ => False
     end) /\
  (forall tick kind channel it, it ∈ items s' -> same_parameter tick kind channel it = false).
Proof.
  intros Hsave Hkeys Hpos. cbn zeta. unfold getNotesAsJson in Hsave.
  apply fmap_Some in Hsave as (cs & Hread & ->). apply mapM_Some_1 in Hread.
  destruct (read_items _ _ Hread) as (Himp & Hk & Hp).
  assert (items (loadFromJson (Codec._notesToMessages cs) ppqn' s0)
          = imported <$> Codec._messagesToNotes (Codec._notesToMessages cs)) as Hitems.
  { unfold loadFromJson. cbn zeta. rewrite items_recalculate. apply adopt_items. }
  assert (items (loadFromJson (Codec._notesToMessages cs) ppqn' s0) ≡ₚ reloaded <$> items s)
    as Hperm.
  { rewrite Hitems, <- Himp. apply fmap_Permutation.
    apply MessageListsProps.export_import_items; [rewrite Hk; exact Hkeys | apply Hp, Hpos]. }
  split; [exact Hperm |]. split.
  - intros it Hit. apply list_elem_of_lookup in Hit as [i Hi].
    destruct (Forall2_lookup_l _ _ _ _ _ Hread Hi) as (c & _ & Hc).
    clear -Hc. destruct it as [n | o]; cbn [read_item reloaded] in *.
    + destruct (integer (start_tick n)) as [t |] eqn:Ht; [| discriminate].
      destruct (integer (duration_ticks n)) as [dur |] eqn:Hd; [| discriminate].
      apply integer_spec in Ht as [-> Ht], Hd as [-> Hd]. cbn. repeat split; assumption.
    + destruct (integer (time o)) as [t |] eqn:Ht; [| discriminate].
      apply integer_spec in Ht as [-> Ht]. cbn. repeat split; assumption.
  - intros tick kind channel it Hit. rewrite Hperm in Hit.
    apply list_elem_of_fmap in Hit as (it0 & -> & _).
    destruct it0 as [n | o]; cbn; [reflexivity |].
    rewrite andb_false_r. reflexivity.
Qed.

Lemma save_and_load_witness :
  items (loadFromJson [ Codec.noteOn (Codec.mkMsg 60 100 0 0);
                        Codec.other 0 [176; 7; 90]%Z;
                        Codec.noteOff (Codec.mkMsg 60 0 96 0) ] 96 initial)
    ≡ₚ reloaded <$> items with_volume.
Proof.
  refine (proj1 (save_and_load with_volume initial _ 96 _ _ _)).
  - vm_compute. reflexivity.
  - apply (bool_decide_unpack _). vm_compute. exact I.
  - vm_compute. repeat constructor.
Defined.
End EditorProps.

(** ** The transport *)

Module TransportProps.
Import JsArray JsArrayProps PianoRoll PianoRollProps Editor EditorProps Transport.
Local Open Scope Q_scope.

(** C4 (counterexample to the claim as stated).  The volume event that
    [_setTrackParameter] stored for channel 0 is in the lookahead list
    without a channel, and the first frame sends its message although
    channel 0 is muted; the note of that channel is suppressed. *)
Lemma other_event_fired_on_muted_channel :
  (0%Z ∈ mutedChannels muted_volume) /\
  items muted_volume =
    [ Note (mkNote 60 100 0 0 96 None);
      Other (mkOther 0 [176; 7; 90]%Z (Some volumeChange) (Some 0%Z)) ] /\
  lookaheadEvents muted_volume =
    [ evNoteOn 0 60 100 0 false; evOther 0 [176; 7; 90]%Z; evNoteOff 96 60 0 ] /\
  out (_playbackLoop 100 muted_volume) = out muted_volume ++ [MidiMessage [176; 7; 90]%Z].
Proof.
  split; [apply (bool_decide_unpack _); vm_compute; exact I |].
  vm_compute. repeat split.
Qed.

Lemma sounding_snoc p c trace o :
  sounding p c (trace ++ [o]) = heard p c (sounding p c trace) o.
Proof. unfold sounding. rewrite fold_left_app. reflexivity. Qed.

Lemma heard_stops p c (l : list output) : forall on,
  Forall (fun o => exists p' c', o = StopNote p' c') l ->
  fold_left (heard p c) l on = true -> on = true /\ StopNote p c ∉ l.
Proof.
  induction l as [| o l IH]; intros on Hall Hon; cbn [fold_left] in Hon.
  - split; [exact Hon | apply not_elem_of_nil].
  - apply Forall_cons in Hall as [(p' & c' & ->) Hall].
    destruct (IH _ Hall Hon) as [Hh Hnot]. cbn [heard] in Hh.
    destruct ((p' =? p)%Z && (c' =? c)%Z) eqn:Hk; [discriminate |].
    split; [exact Hh |]. intros Hin. apply elem_of_cons in Hin as [Heq | Hin]; [| tauto].
    injection Heq as <- <-. rewrite !Z.eqb_refl in Hk. discriminate.
Qed.

Lemma flagged_stopped t p v c (l : list event) :
  evNoteOn t p v c true ∈ l -> StopNote p c ∈ omap still_flagged l.
Proof.
  intros Hin. apply list_elem_of_omap. exists (evNoteOn t p v c true).
  split; [exact Hin | reflexivity].
Qed.

(** After [pause] no note sounds. *)
Lemma silenced trace s p c :
  flagged trace s -> sounding p c (trace ++ omap still_flagged (lookaheadEvents s)) = false.
Proof.
  intros Hfl. destruct (sounding p c (trace ++ _)) eqn:Hs; [exfalso | reflexivity].
  unfold sounding in Hs. rewrite fold_left_app in Hs.
  apply heard_stops in Hs as [Hon Hnot]; [| apply still_flagged_StopNote].
  destruct (Hfl p c Hon) as (t & v & Hin). apply Hnot. eapply flagged_stopped, Hin.
Qed.

Lemma update_first_keeps (P : event -> bool) f l x :
  x ∈ l -> P x = false \/ f x = x -> x ∈ update_first P f l.
Proof.
  intros Hin Hx. induction l as [| e l IH]; [exact Hin |]. cbn [update_first].
  destruct (P e) eqn:He.
  - apply elem_of_cons in Hin as [-> | Hin].
    + destruct Hx as [Hx | Hx]; [congruence | rewrite Hx; left].
    + right. exact Hin.
  - apply elem_of_cons in Hin as [-> | Hin]; [left | right; apply IH, Hin].
Qed.

Lemma update_first_hits (P : event -> bool) f l x :
  x ∈ l -> P x = true -> exists y, P y = true /\ f y ∈ update_first P f l.
Proof.
  intros Hin Hx. induction l as [| e l IH]; [inversion Hin |]. cbn [update_first].
  destruct (P e) eqn:He.
  - exists e. split; [exact He | left].
  - apply elem_of_cons in Hin as [-> | Hin]; [congruence |].
    destruct (IH Hin) as (y & Hy & Hiny). exists y. split; [exact Hy | right; exact Hiny].
Qed.

(** One fired event keeps the flags in step with the callbacks. *)
Lemma fire_flagged e s pre trace :
  out s = pre ++ trace -> flagged trace s ->
  set_playing false e ∈ map (set_playing false) (lookaheadEvents s) ->
  exists trace', out (fire e s) = pre ++ trace' /\ flagged trace' (fire e s).
Proof.
  intros Hout Hfl Hin. unfold fire. destruct (muted s e); [eauto |].
  apply list_elem_of_fmap in Hin as (e' & He' & Hin').
  destruct e as [t p v c b | t p c | t bytes].
  - exists (trace ++ [PlayNote p v c]). split; [cbn; rewrite Hout, app_assoc; reflexivity |].
    intros p2 c2 Hs. rewrite sounding_snoc in Hs. cbn [heard] in Hs.
    cbn [lookaheadEvents set_lookaheadEvents emit set_out].
    destruct ((p =? p2)%Z && (c =? c2)%Z) eqn:Hk.
    + apply andb_true_iff in Hk as [Hp Hc]. apply Z.eqb_eq in Hp, Hc. subst p2 c2.
      destruct e' as [t' p' v' c' b' | |]; try discriminate.
      injection He' as H1 H2 H3 H4. subst t' p' v' c'.
      edestruct (update_first_hits
                   (fun ev => match ev with
                              | evNoteOn t1 p1 _ c1 _ => Qeq_bool t1 t && (p1 =? p)%Z && (c1 =? c)%Z
                              | _ => false
                              end) (set_playing true) (lookaheadEvents s)) as (y & Hy & Hiny).
      * exact Hin'.
      * cbn. rewrite !Z.eqb_refl, !andb_true_r. apply Qeq_bool_iff. reflexivity.
      * destruct y as [t1 p1 v1 c1 b1 | |]; try discriminate.
        apply andb_true_iff in Hy as [Hy Hc]. apply andb_true_iff in Hy as [_ Hp].
        apply Z.eqb_eq in Hp, Hc. subst p1 c1. exists t1, v1. exact Hiny.
    + destruct (Hfl p2 c2 Hs) as (t2 & v2 & Hin2). exists t2, v2.
      apply update_first_keeps; [exact Hin2 | right; reflexivity].
  - exists (trace ++ [StopNote p c]). split; [cbn; rewrite Hout, app_assoc; reflexivity |].
    intros p2 c2 Hs. rewrite sounding_snoc in Hs. cbn [heard] in Hs.
    cbn [lookaheadEvents set_lookaheadEvents emit set_out].
    destruct ((p =? p2)%Z && (c =? c2)%Z) eqn:Hk; [discriminate |].
    destruct (Hfl p2 c2 Hs) as (t2 & v2 & Hin2). exists t2, v2.
    apply update_first_keeps; [exact Hin2 | left].
    rewrite (Z.eqb_sym p2 p), (Z.eqb_sym c2 c), andb_true_r, <- andb_assoc, Hk.
    apply andb_false_r.
  - exists (trace ++ [MidiMessage bytes]). split; [cbn; rewrite Hout, app_assoc; reflexivity |].
    intros p2 c2 Hs. rewrite sounding_snoc in Hs. apply Hfl, Hs.
Qed.

Lemma fire_due_flagged from to pre l : forall s trace,
  out s = pre ++ trace -> flagged trace s ->
  (forall e, e ∈ l -> set_playing false e ∈ map (set_playing false) (lookaheadEvents s)) ->
  let s' := fold_left (fun s e => if due from to e then fire e s else s) l s in
  exists trace', out s' = pre ++ trace' /\ flagged trace' s'.
Proof.
  induction l as [| e l IH]; intros s trace Hout Hfl Hin; cbn zeta; cbn [fold_left];
    [eauto |].
  destruct (due from to e).
  - destruct (fire_flagged e s pre trace Hout Hfl) as (trace1 & Hout1 & Hfl1);
      [apply Hin; left |].
    apply (IH (fire e s) trace1 Hout1 Hfl1). intros x Hx.
    destruct (fire_unflag e s) as [Heq _]. rewrite Heq. apply Hin. right. exact Hx.
  - apply (IH s trace Hout Hfl). intros x Hx. apply Hin. right. exact Hx.
Qed.

(** The invariant of a session: the flags are in step with the
    callbacks, and a roll that is not playing has no note sounding. *)
Lemma command_keeps_step c s pre trace :
  out s = pre ++ trace -> flagged trace s ->
  (isPlaying s = false -> forall p c, sounding p c trace = false) ->
  exists trace', out (run_command c s) = pre ++ trace' /\ flagged trace' (run_command c s) /\
    (isPlaying (run_command c s) = false -> forall p c, sounding p c trace' = false).
Proof.
  intros Hout Hfl Hidle.
  assert (forall s0 trace0, out s0 = pre ++ trace0 -> flagged trace0 s0 ->
            exists trace', out (pause s0) = pre ++ trace' /\ flagged trace' (pause s0) /\
              forall p c, sounding p c trace' = false) as Hpause.
  { intros s0 trace0 Hout0 Hfl0. destruct (pause_spec s0) as (Ho & _ & _ & Hl).
    exists (trace0 ++ omap still_flagged (lookaheadEvents s0)).
    split; [rewrite Ho, Hout0, app_assoc; reflexivity |].
    assert (forall p c, sounding p c (trace0 ++ omap still_flagged (lookaheadEvents s0)) = false)
      as Hsil by (intros p c0; apply silenced, Hfl0).
    split; [| exact Hsil]. intros p c0 Hs. rewrite Hsil in Hs. discriminate. }
  destruct c as [now | timestamp | | | channel]; cbn [run_command].
  - unfold play. destruct (isPlaying s) eqn:Hp.
    { exists trace. split; [exact Hout |]. split; [exact Hfl | intros Hf; congruence]. }
    exists trace. split; [exact Hout |]. split; [| intros _; apply Hidle; reflexivity].
    intros p c Hs. rewrite Hidle in Hs by reflexivity. discriminate.
  - unfold _playbackLoop. destruct (isPlaying s) eqn:Hp; cbn [negb];
      [| exists trace; split; [exact Hout |]; split; [exact Hfl |];
         intros _; apply Hidle; reflexivity].
    cbn zeta. set (s0 := set_lastFrameTime timestamp s).
    destruct (fire_due_flagged (playheadTick s0) (playheadTick s0 + elapsedTicks timestamp s)
                pre (lookaheadEvents s0) s0 trace Hout Hfl) as (trace1 & Hout1 & Hfl1).
    { intros e He. apply list_elem_of_fmap. exists e. split; [reflexivity | exact He]. }
    cbn zeta in Hout1, Hfl1. fold (fire_due (playheadTick s0)
                                     (playheadTick s0 + elapsedTicks timestamp s) s0) in *.
    destruct (fire_due_fold (playheadTick s0) (playheadTick s0 + elapsedTicks timestamp s)
                (lookaheadEvents s0) s0) as (_ & _ & Hplay & _).
    cbn zeta in Hplay. fold (fire_due (playheadTick s0)
                               (playheadTick s0 + elapsedTicks timestamp s) s0) in Hplay.
    set (s1 := fire_due _ _ s0) in *.
    set (s2 := set_playheadTick _ s1).
    destruct (Qgtb (playheadTick s2) (songDurationTicks s2)).
    + destruct (Hpause s2 trace1 Hout1 Hfl1) as (trace2 & Hout2 & Hfl2 & Hsil).
      exists trace2. split; [exact Hout2 |]. split; [exact Hfl2 | intros _; exact Hsil].
    + exists trace1. split; [exact Hout1 |]. split; [exact Hfl1 |].
      intros Hidle1. change (isPlaying s2) with (isPlaying s1) in Hidle1.
      rewrite Hplay in Hidle1. change (isPlaying s0) with (isPlaying s) in Hidle1. congruence.
  - destruct (Hpause s trace Hout Hfl) as (trace' & H1 & H2 & H3). eauto.
  - destruct (Hpause s trace Hout Hfl) as (trace' & H1 & H2 & H3). exists trace'.
    split; [exact H1 |]. split; [exact H2 | intros _; exact H3].
  - unfold toggleMute.
    destruct (bool_decide _); exists trace; (split; [exact Hout |]; split; [exact Hfl | exact Hidle]).
Qed.

(** In a session of play, pause, stop, animation frames and mute
    switches, from any state, the callbacks of the session leave no note
    sounding whenever the roll is not playing, so after every [pause]
    and [stop] and after the frame that reaches the end of the song:
    the last callback for a pitch and channel is then never an
    [onPlayNote]. *)
Theorem session_leaves_no_note_sounding (cs : list command) (s : state) :
  exists trace, out (run cs s) = out s ++ trace /\
    (isPlaying (run cs s) = false -> forall p c, sounding p c trace = false) /\
    (forall p c, sounding p c (trace ++ omap still_flagged (lookaheadEvents (run cs s))) = false) /\
    out (pause (run cs s)) = out (stop (run cs s)) /\
    out (stop (run cs s)) = out s ++ trace ++ omap still_flagged (lookaheadEvents (run cs s)).
Proof.
  assert (exists trace, out (run cs s) = out s ++ trace /\ flagged trace (run cs s) /\
            (isPlaying (run cs s) = false -> forall p c, sounding p c trace = false))
    as (trace & Hout & Hfl & Hidle).
  { unfold run. induction cs as [| c cs IH] using rev_ind.
    - exists []. split; [symmetry; apply app_nil_r |]. split; [| reflexivity].
      intros p c Hs. discriminate.
    - rewrite fold_left_app. cbn [fold_left].
      destruct IH as (trace & Hout & Hfl & Hidle).
      apply (command_keeps_step c _ (out s) trace Hout Hfl Hidle). }
  exists trace. split; [exact Hout |]. split; [exact Hidle |].
  split; [intros p c; apply silenced, Hfl |].
  destruct (stop_spec (run cs s)) as (Hstop & _). destruct (pause_spec (run cs s)) as (Hp & _).
  split; [rewrite Hp, Hstop; reflexivity | rewrite Hstop, Hout, app_assoc; reflexivity].
Qed.
End TransportProps.

(** ** Buttons and sliders *)

Module WidgetsProps.
Import Broker BrokerProps Widgets.
Local Open Scope Q_scope.

(** *** A click on a button *)

(** A press and a release on a button, with no control captured.  The
    pointer-down on the button sets [isPressed], calls [onClick] and
    then [onStateChange], and captures the pointer for the button; the
    pointer-up, whatever control is under it, goes to the button, resets
    [isPressed], calls nothing and releases the capture.  No other
    control is touched. *)
Theorem button_click (w : world) (c : ref) (b : buttonControl) (e : event) (target : option ref) :
  capturedControl w = None -> controls w !! c = Some (Button b) ->
  isPointInRect (x e) (y e) (Some (button_getBounds b)) = true ->
  let down := with_type pointerdown e in
  let up := with_type pointerup e in
  let w1 := dispatchEvent down (Some c) w in
  let w2 := dispatchEvent up target w1 in
  capturedControl w1 = Some c /\
  called w1 = (called w ++ [onClick c; onStateChange c]) /\
  controls w1 !! c = Some (Button (button_pressed true b)) /\
  capturedControl w2 = None /\
  called w2 = called w1 /\
  controls w2 !! c = Some (Button (button_pressed false b)) /\
  delivered w2 = (delivered w ++ [(c, with_owner (ownerControl c) down);
                                  (c, with_owner (ownerControl c) up)]) /\
  (forall c', c' <> c -> controls w2 !! c' = controls w !! c').
Proof.
  intros Hcap Hctl Hin. cbn zeta.
  assert (dispatchEvent (with_type pointerdown e) (Some c) w =
          mkWorld (Some c) (<[c := Button (button_pressed true b)]> (controls w))
            (delivered w ++ [(c, with_owner (ownerControl c) (with_type pointerdown e))])
            (called w ++ [onClick c; onStateChange c])) as Hw1.
  { unfold dispatchEvent, deliver. rewrite Hcap, Hctl.
    unfold control_handleEvent, button_handleEvent. cbn [type with_owner with_type x y].
    rewrite Hin. reflexivity. }
  rewrite Hw1. clear Hw1.
  split; [reflexivity |]. split; [reflexivity |]. split; [apply lookup_insert_eq |].
  unfold dispatchEvent, deliver. cbn [capturedControl controls delivered called].
  rewrite lookup_insert_eq. cbn.
  split; [reflexivity |]. split; [rewrite app_nil_r; reflexivity |].
  split; [apply lookup_insert_eq |]. split; [rewrite <- app_assoc; reflexivity |].
  intros c' Hne. rewrite !lookup_insert_ne by congruence. reflexivity.
Qed.

Lemma button_click_witness :
  capturedControl
    (dispatchEvent (with_type pointerup (mkEvent pointerdown 30 30 0 ownerUndefined)) None
       (dispatchEvent (with_type pointerdown (mkEvent pointerdown 30 30 0 ownerUndefined))
          (Some 3%nat)
          (mkWorld None {[ 3%nat := Button (mkButton 20 20 80 28 false) ]} [] []))) = None.
Proof.
  apply (button_click (mkWorld None {[ 3%nat := Button (mkButton 20 20 80 28 false) ]} [] [])
           3%nat (mkButton 20 20 80 28 false) (mkEvent pointerdown 30 30 0 ownerUndefined) None);
    reflexivity.
Defined.

(** *** The value of a slider *)

Lemma round_between (lo hi : Z) (q : Q) :
  inject_Z lo <= q -> q <= inject_Z hi -> (lo <= round q <= hi)%Z.
Proof.
  intros Hlo Hhi. unfold round. split.
  - rewrite <- (Qfloor_Z lo). apply Qfloor_resp_le. lra.
  - assert (Qfloor (q + (1 # 2)) < hi + 1)%Z as Hlt; [| lia].
    rewrite Zlt_Qlt. eapply Qle_lt_trans; [apply Qfloor_le |].
    rewrite inject_Z_plus. change (inject_Z 1) with 1. lra.
Qed.

Lemma round_Z z : round (inject_Z z) = z.
Proof. pose proof (round_between z z (inject_Z z) ltac:(lra) ltac:(lra)). lia. Qed.

Lemma clamp_unit q : 0 <= Qmax 0 (Qmin 1 q) /\ Qmax 0 (Qmin 1 q) <= 1.
Proof.
  split; [apply Q.le_max_l |]. apply Q.max_lub; [lra | apply Q.le_min_l].
Qed.

(** [updateValueFromPosition] keeps the value of a slider between its
    [min] and [max]: for a slider with [min <= max] and a track higher
    than its handle, the new value lies in the range for every position
    of the pointer, is [max] from the upper end of the way of the handle
    upwards and [min] from the lower end downwards.  [onStateChange] is
    called once when the value changes and not when it stays; the range
    and the drag flag are untouched. *)
Theorem slider_value_in_range (this : ref) (py : Q) (s : verticalSlider) :
  (sl_min s <= sl_max s)%Z -> handleHeight < sl_height s ->
  let r := slider_updateValueFromPosition this py s in
  (sl_min s <= sl_value r.1 <= sl_max s)%Z /\
  r.2 = (if (sl_value r.1 =? sl_value s)%Z then [] else [onStateChange this]) /\
  (py <= sl_y s + handleHeight / 2 -> sl_value r.1 = sl_max s) /\
  (sl_y s + sl_height s - handleHeight / 2 <= py -> sl_value r.1 = sl_min s) /\
  sl_min r.1 = sl_min s /\ sl_max r.1 = sl_max s /\ sl_isDragging r.1 = sl_isDragging s.
Proof.
  intros Hrange Hheight. cbn zeta. unfold slider_updateValueFromPosition. cbn zeta.
  set (rel := (py - (sl_y s + handleHeight / 2)) / (sl_height s - handleHeight)).
  set (ratio := 1 - Qmax 0 (Qmin 1 rel)).
  destruct (clamp_unit rel) as [Hc0 Hc1].
  assert (0 <= ratio /\ ratio <= 1) as [Hr0 Hr1] by (unfold ratio; split; lra).
  assert (0 <= inject_Z (sl_max s - sl_min s)) as Hspan.
  { change 0 with (inject_Z 0). rewrite <- Zle_Qle. lia. }
  assert (inject_Z (sl_max s) == inject_Z (sl_min s) + inject_Z (sl_max s - sl_min s)) as Hmax.
  { rewrite <- inject_Z_plus. apply inject_Z_injective. lia. }
  set (q := inject_Z (sl_min s) + ratio * inject_Z (sl_max s - sl_min s)).
  assert (inject_Z (sl_min s) <= q /\ q <= inject_Z (sl_max s)) as [Hq0 Hq1].
  { unfold q. set (span := inject_Z (sl_max s - sl_min s)) in *. split; [nra |].
    rewrite Hmax. nra. }
  pose proof (round_between _ _ q Hq0 Hq1) as Hround.
  assert (0 < sl_height s - handleHeight) as Hden by lra.
  assert (py <= sl_y s + handleHeight / 2 -> round q = sl_max s) as Htop.
  { intros Hy. assert (rel <= 0) as Hrel.
    { unfold rel. unfold Qdiv at 1. 
      assert (0 < / (sl_height s - handleHeight)) as Hinv by (apply Qinv_lt_0_compat, Hden).
      set (inv := / (sl_height s - handleHeight)) in *. nra. }
    assert (ratio == 1) as Hone.
    { unfold ratio. rewrite Q.max_l; [ring |]. eapply Qle_trans; [apply Q.le_min_r | exact Hrel]. }
    unfold round, q. rewrite (Qfloor_comp _ (inject_Z (sl_max s) + (1 # 2)));
      [apply round_Z | rewrite Hone, Hmax; ring]. }
  assert (sl_y s + sl_height s - handleHeight / 2 <= py -> round q = sl_min s) as Hbottom.
  { intros Hy. assert (1 <= rel) as Hrel.
    { unfold rel. apply Qle_shift_div_l; [exact Hden |].
      unfold handleHeight in *. unfold Qdiv in *. change (/ 2) with (1 # 2) in *. lra. }
    assert (ratio == 0) as Hzero.
    { unfold ratio. rewrite Q.max_r by (apply Q.min_glb; lra).
      rewrite Q.min_l by exact Hrel. ring. }
    unfold round, q. rewrite (Qfloor_comp _ (inject_Z (sl_min s) + (1 # 2)));
      [apply round_Z | rewrite Hzero; ring]. }
  fold (round q). destruct (Z.eqb_spec (round q) (sl_value s)) as [Heq | Hne]; cbn [fst snd].
  - rewrite Z.eqb_refl. rewrite <- Heq. repeat split; try lia; assumption.
  - cbn [sl_value sl_min sl_max sl_isDragging].
    destruct (Z.eqb_spec (round q) (sl_value s)); [contradiction |].
    repeat split; try lia; assumption.
Qed.

Lemma slider_value_in_range_witness :
  (0 <= sl_value (slider_updateValueFromPosition 7%nat 100 volumeSlider).1 <= 127)%Z.
Proof.
  apply (slider_value_in_range 7%nat 100 volumeSlider); [cbn; lia | reflexivity].
Defined.

(** *** Opening and closing a popup slider *)

(** Two pointer-downs on the button of a closed popup slider, with no
    control captured: the first opens the popup and captures the pointer
    for it; the second, whatever control is under it, goes to the popup,
    closes it and releases the capture.  The popup is then as it was, no
    callback has been called, and the popup alone has received the two
    events. *)
Theorem popup_toggle (w : world) (c : ref) (p : popupSlider) (e : event) (target : option ref) :
  capturedControl w = None -> controls w !! c = Some (PopupSlider p) ->
  pp_isOpen p = false -> type e = pointerdown ->
  isPointInRect (x e) (y e) (Some (popup_getBounds p)) = true ->
  let w1 := dispatchEvent e (Some c) w in
  let w2 := dispatchEvent e target w1 in
  capturedControl w1 = Some c /\
  controls w1 !! c = Some (PopupSlider (popup_open true p)) /\
  capturedControl w2 = None /\
  controls w2 !! c = Some (PopupSlider p) /\
  called w2 = called w /\
  delivered w2 = (delivered w ++ [(c, with_owner (ownerControl c) e);
                                  (c, with_owner (ownerControl c) e)]).
Proof.
  intros Hcap Hctl Hclosed Htype Hin. cbn zeta.
  assert (dispatchEvent e (Some c) w =
          mkWorld (Some c) (<[c := PopupSlider (popup_open true p)]> (controls w))
            (delivered w ++ [(c, with_owner (ownerControl c) e)]) (called w ++ [])) as ->.
  { unfold dispatchEvent, deliver. rewrite Hcap, Hctl.
    unfold control_handleEvent, popup_handleEvent, popup_onPointerDown.
    cbn [type with_owner x y owner_of]. rewrite Htype, Hclosed. cbn [andb negb].
    change (popup_getBounds (popup_open true p)) with (popup_getBounds p).
    rewrite Hin. reflexivity. }
  split; [reflexivity |]. split; [apply lookup_insert_eq |].
  unfold dispatchEvent, deliver. cbn [capturedControl controls delivered called].
  rewrite lookup_insert_eq.
  unfold control_handleEvent, popup_handleEvent, popup_onPointerDown.
  cbn [type with_owner x y owner_of pp_isOpen popup_open owner_is]. rewrite Htype.
  rewrite Nat.eqb_refl. cbn [andb negb].
  change (popup_getBounds (popup_open true p)) with (popup_getBounds p). rewrite Hin.
  cbn. rewrite !app_nil_r, <- app_assoc.
  split; [reflexivity |]. split; [| split; reflexivity].
  rewrite lookup_insert_eq. destruct p. cbn in Hclosed. subst. reflexivity.
Qed.

Lemma popup_toggle_witness :
  capturedControl
    (dispatchEvent (mkEvent pointerdown 30 30 0 ownerUndefined) None
       (dispatchEvent (mkEvent pointerdown 30 30 0 ownerUndefined) (Some 7%nat)
          (mkWorld None {[ 7%nat := PopupSlider volumeClosed ]} [] []))) = None.
Proof.
  apply (popup_toggle (mkWorld None {[ 7%nat := PopupSlider volumeClosed ]} [] []) 7%nat
           volumeClosed (mkEvent pointerdown 30 30 0 ownerUndefined) None); reflexivity.
Defined.

(** *** Dragging the slider of an open popup *)

Lemma slider_value_at_eq py s :
  slider_value_at py s =
  round (inject_Z (sl_min s) +
         (1 - Qmax 0 (Qmin 1 ((py - (sl_y s + handleHeight / 2)) / (sl_height s - handleHeight))))
         * inject_Z (sl_max s - sl_min s)).
Proof.
  unfold slider_value_at, slider_updateValueFromPosition. cbn zeta.
  destruct (Z.eqb_spec (round (inject_Z (sl_min s) +
         (1 - Qmax 0 (Qmin 1 ((py - (sl_y s + handleHeight / 2)) / (sl_height s - handleHeight))))
         * inject_Z (sl_max s - sl_min s))) (sl_value s)) as [Heq | Hne]; cbn [fst sl_value];
    [symmetry; exact Heq | reflexivity].
Qed.

Lemma slider_update_shape this py s :
  (slider_updateValueFromPosition this py s).1 =
    mkSlider (sl_x s) (sl_y s) (sl_width s) (sl_height s) (sl_min s) (sl_max s)
      (slider_value_at py s) (sl_isDragging s) /\
  Forall (fun cb => cb = onStateChange this) (slider_updateValueFromPosition this py s).2.
Proof.
  rewrite slider_value_at_eq. unfold slider_updateValueFromPosition. cbn zeta.
  destruct (Z.eqb_spec (round (inject_Z (sl_min s) +
         (1 - Qmax 0 (Qmin 1 ((py - (sl_y s + handleHeight / 2)) / (sl_height s - handleHeight))))
         * inject_Z (sl_max s - sl_min s))) (sl_value s)) as [Heq | Hne]; cbn [fst snd].
  - split; [rewrite Heq; destruct s; reflexivity | constructor].
  - split; [reflexivity | repeat constructor].
Qed.

Lemma dispatch_captured e target w c ctl :
  capturedControl w = Some c -> controls w !! c = Some ctl ->
  dispatchEvent e target w =
  processResult (control_handleEvent c (with_owner (ownerControl c) e) ctl).2
    (mkWorld (Some c)
       (<[c := (control_handleEvent c (with_owner (ownerControl c) e) ctl).1.1]> (controls w))
       (delivered w ++ [(c, with_owner (ownerControl c) e)])
       (called w ++ (control_handleEvent c (with_owner (ownerControl c) e) ctl).1.2)).
Proof.
  intros Hc Hctl. unfold dispatchEvent, deliver. rewrite Hc, Hctl.
  destruct (control_handleEvent c (with_owner (ownerControl c) e) ctl) as [[ctl' cbs] r].
  reflexivity.
Qed.

(** A drag on the slider of an open popup that holds the capture: a
    pointer-down on the slider (in the popup area, off the button), a
    move and the release.  The pointer-down sets the slider to the value
    for the height of the pointer and starts the drag; after the release
    the popup is open, the slider shows the value for the height of the
    move and is not dragging.  The popup holds the capture throughout,
    the only callback called is its [onStateChange], and it alone has
    received the three events. *)
Theorem popup_drag (w : world) (c : ref) (p : popupSlider) (down move up : event)
    (t1 t2 t3 : option ref) :
  capturedControl w = Some c -> controls w !! c = Some (PopupSlider p) ->
  pp_isOpen p = true -> sl_isDragging (pp_slider p) = false ->
  type down = pointerdown -> type move = pointermove -> type up = pointerup ->
  isPointInRect (x down) (y down) (Some (popup_getBounds p)) = false ->
  isPointInRect (x down) (y down) (getPopupBounds p) = true ->
  slider_isPointOnControl (x down) (y down) (pp_slider p) = true ->
  let w1 := dispatchEvent down t1 w in
  let w2 := dispatchEvent move t2 w1 in
  let w3 := dispatchEvent up t3 w2 in
  controls w1 !! c
    = Some (PopupSlider (popup_set true (slider_set_dragging true (pp_slider (popup_slid (y down) p)))
                           (popup_slid (y down) p))) /\
  controls w3 !! c = Some (PopupSlider (popup_slid (y move) p)) /\
  capturedControl w1 = Some c /\ capturedControl w2 = Some c /\ capturedControl w3 = Some c /\
  (exists calls, called w3 = called w ++ calls /\ Forall (fun cb => cb = onStateChange c) calls) /\
  delivered w3 = (delivered w ++ [(c, with_owner (ownerControl c) down);
                                  (c, with_owner (ownerControl c) move);
                                  (c, with_owner (ownerControl c) up)]).
Proof.
  intros Hcap Hctl Hopen Hdrag Hdown Hmove Hup Hbutton Hpopup Hslider. cbn zeta.
  destruct p as [px py pw ph isOpen sl]. cbn in Hopen, Hdrag. subst isOpen.
  destruct sl as [sx sy sw sh smin smax sval sdrag]. cbn in Hdrag. subst sdrag.
  set (sl0 := mkSlider sx sy sw sh smin smax sval false) in *.
  set (p0 := mkPopup px py pw ph true sl0) in *.
  (* pointer-down *)
  destruct (slider_update_shape c (y down) (slider_set_dragging true sl0)) as [Hs1 Hc1].
  destruct (slider_updateValueFromPosition c (y down) (slider_set_dragging true sl0))
    as [sl1 cbs1] eqn:Hupd1. cbn [fst snd] in Hs1, Hc1.
  assert (slider_value_at (y down) (slider_set_dragging true sl0) = slider_value_at (y down) sl0)
    as Hv1 by (rewrite !slider_value_at_eq; reflexivity).
  rewrite Hv1 in Hs1. cbn in Hs1.
  assert (control_handleEvent c (with_owner (ownerControl c) down) (PopupSlider p0) =
          (PopupSlider (mkPopup px py pw ph true sl1), cbs1,
           Some (mkResult persist (Some c)))) as Hh1.
  { unfold control_handleEvent, popup_handleEvent, popup_onPointerDown.
    cbn [type with_owner x y owner_of pp_isOpen owner_is p0]. rewrite Hdown, Nat.eqb_refl.
    cbn [andb negb]. rewrite Hbutton, Hpopup.
    unfold slider_onPointerDown. rewrite Hslider. change (pp_slider p0) with sl0.
    rewrite Hupd1. reflexivity. }
  rewrite (dispatch_captured down t1 w c _ Hcap Hctl), Hh1.
  cbn [fst snd processResult action_of].
  set (w1 := mkWorld (Some c) _ _ _).
  (* pointer-move *)
  destruct (slider_update_shape c (y move) sl1) as [Hs2 Hc2].
  destruct (slider_updateValueFromPosition c (y move) sl1) as [sl2 cbs2] eqn:Hupd2.
  cbn [fst snd] in Hs2, Hc2.
  assert (slider_value_at (y move) sl1 = slider_value_at (y move) sl0) as Hv2
    by (rewrite Hs1, !slider_value_at_eq; reflexivity).
  rewrite Hv2 in Hs2.
  assert (sl_isDragging sl1 = true) as Hd1 by (rewrite Hs1; reflexivity).
  assert (control_handleEvent c (with_owner (ownerControl c) move)
            (PopupSlider (mkPopup px py pw ph true sl1)) =
          (PopupSlider (mkPopup px py pw ph true sl2), cbs2, None)) as Hh2.
  { unfold control_handleEvent, popup_handleEvent.
    cbn [type with_owner x y owner_of pp_isOpen pp_slider]. rewrite Hmove, Hd1. cbn [andb].
    unfold slider_onPointerMove. rewrite Hd1, Hupd2. reflexivity. }
  rewrite (dispatch_captured move t2 w1 c _ eq_refl (lookup_insert_eq _ _ _)), Hh2.
  cbn [fst snd processResult action_of].
  set (w2 := mkWorld (Some c) _ _ _).
  (* pointer-up *)
  assert (sl_isDragging sl2 = true) as Hd2 by (rewrite Hs2, Hs1; reflexivity).
  assert (control_handleEvent c (with_owner (ownerControl c) up)
            (PopupSlider (mkPopup px py pw ph true sl2)) =
          (PopupSlider (mkPopup px py pw ph true (slider_set_dragging false sl2)), [],
           Some (mkResult persist None))) as Hh3.
  { unfold control_handleEvent, popup_handleEvent.
    cbn [type with_owner x y owner_of pp_isOpen pp_slider]. rewrite Hup, Hd2. reflexivity. }
  rewrite (dispatch_captured up t3 w2 c _ eq_refl (lookup_insert_eq _ _ _)), Hh3.
  cbn [fst snd processResult action_of].
  unfold w2, w1. cbn [controls delivered called capturedControl].
  split; [rewrite lookup_insert_eq, Hs1; reflexivity |].
  split; [rewrite lookup_insert_eq, Hs2, Hs1; reflexivity |].
  split; [reflexivity |]. split; [reflexivity |]. split; [reflexivity |].
  split.
  - exists (cbs1 ++ cbs2). rewrite app_nil_r, <- app_assoc. split; [reflexivity |].
    apply Forall_app. split; assumption.
  - rewrite <- !app_assoc. reflexivity.
Qed.

Lemma popup_drag_witness :
  capturedControl
    (dispatchEvent (mkEvent pointerup 50 150 0 ownerUndefined) None
       (dispatchEvent (mkEvent pointermove 50 150 0 ownerUndefined) None
          (dispatchEvent (mkEvent pointerdown 50 100 0 ownerUndefined) None captured_popup)))
  = Some 7%nat.
Proof.
  apply (popup_drag captured_popup 7%nat volumeOpen
           (mkEvent pointerdown 50 100 0 ownerUndefined)
           (mkEvent pointermove 50 150 0 ownerUndefined)
           (mkEvent pointerup 50 150 0 ownerUndefined) None None None); reflexivity.
Defined.
End WidgetsProps.
